(** * FactorizedEPDriver: the sequential EP update

    A shallow embedding of [FactorizedEPDriver::sequentialUpdate]
    (src/eptools/FactorizedEPDriver.h) and the properties of it that the
    specification states.

    The C++ code computes on [double].  The embedding is written once over
    an interface [Double] that lists the operations the code uses, so that
    every control-flow property is proved for any arithmetic, IEEE binary64
    (instance [binary64], Rocq's primitive floats) included.  Properties
    that are algebraic identities (a marginal is the sum of its messages)
    hold in exact arithmetic only; they are proved under the ring laws
    [ExactArith], which the rationals (instance [rational]) satisfy. *)

From Stdlib Require Import ZArith QArith Qpower Qcanon Floats Ring Lia.
From stdpp Require Import base option list.

Set Warnings "-inexact-float".

(** ** The arithmetic interface *)

Class Double (num : Type) : Type := {
  add : num -> num -> num;
  sub : num -> num -> num;
  mul : num -> num -> num;
  div : num -> num -> num;
  ltb : num -> num -> bool;   (* a < b  *)
  leb : num -> num -> bool;   (* a <= b *)
  fabs : num -> num;
  sqrt : num -> num;
  c_0 : num;                  (* 0.0   *)
  c_1 : num;                  (* 1.0   *)
  c_half : num;               (* 0.5   *)
  c_002 : num;                (* 0.02  *)
  c_1em6 : num;               (* 1e-6  *)
  c_1em8 : num;               (* 1e-8  *)
  c_1em10 : num               (* 1e-10 *)
}.

Declare Scope dbl_scope.
Delimit Scope dbl_scope with D.
Infix "+" := add : dbl_scope.
Infix "-" := sub : dbl_scope.
Infix "*" := mul : dbl_scope.
Infix "/" := div : dbl_scope.
Infix "<?" := ltb : dbl_scope.
Infix "<=?" := leb : dbl_scope.

(** [std::max(a,b)] is [(a<b) ? b : a] and [std::min(a,b)] is
    [(b<a) ? b : a]; written out because the choice matters on NaN. *)
Definition std_max {num} `{Double num} (a b : num) : num :=
  if (a <? b)%D then b else a.

Definition std_min {num} `{Double num} (a b : num) : num :=
  if (b <? a)%D then b else a.

(** [#define MAXRELDIFF(a,b) (fabs((a)-(b))/std::max(fabs(a),std::max(fabs(b),1e-8)))] *)
Definition MAXRELDIFF {num} `{Double num} (a b : num) : num :=
  (fabs (a - b) / std_max (fabs a) (std_max (fabs b) c_1em8))%D.

(** IEEE 754 binary64: the [double] of the source. *)
#[export] Instance binary64 : Double float := {|
  add := PrimFloat.add;
  sub := PrimFloat.sub;
  mul := PrimFloat.mul;
  div := PrimFloat.div;
  ltb := PrimFloat.ltb;
  leb := PrimFloat.leb;
  fabs := PrimFloat.abs;
  sqrt := PrimFloat.sqrt;
  c_0 := 0%float;
  c_1 := 1%float;
  c_half := 0.5%float;
  c_002 := 0.02%float;
  c_1em6 := 1e-6%float;
  c_1em8 := 1e-8%float;
  c_1em10 := 1e-10%float
|}.

(** Exact rational arithmetic.  The square root is only approximated (to ten
    decimal digits, rounded down); it is used for the Delta metric alone and
    nothing is proved about its value. *)
Definition Qc_ltb (a b : Qc) : bool :=
  match (a ?= b)%Qc with Lt => true | _ => false end.

Definition Qc_leb (a b : Qc) : bool :=
  match (a ?= b)%Qc with Gt => false | _ => true end.

Definition Qc_abs (a : Qc) : Qc :=
  if Qc_ltb a 0%Qc then (- a)%Qc else a.

Definition Qc_sqrt_approx (a : Qc) : Qc :=
  let n := Qnum (this a) in
  let d := Z.pos (Qden (this a)) in
  let s := (10 ^ 10)%Z in
  Q2Qc (Qmake (Z.sqrt (n * d * s * s)) (Z.to_pos (d * s))).

#[export] Instance rational : Double Qc := {|
  add := Qcplus;
  sub := Qcminus;
  mul := Qcmult;
  div := Qcdiv;
  ltb := Qc_ltb;
  leb := Qc_leb;
  fabs := Qc_abs;
  sqrt := Qc_sqrt_approx;
  c_0 := Q2Qc 0;
  c_1 := Q2Qc 1;
  c_half := Q2Qc 0.5;
  c_002 := Q2Qc 0.02;
  c_1em6 := Q2Qc 1e-6;
  c_1em8 := Q2Qc 1e-8;
  c_1em10 := Q2Qc 1e-10
|}.

(** The ring laws of exact arithmetic. *)
Class ExactArith (num : Type) `{Double num} : Prop :=
  exact_ring : ring_theory c_0 c_1 add mul sub (fun x => sub c_0 x) (@eq num).

(** The laws of a total order that link [<] and [<=]. *)
Class OrderLaws (num : Type) `{Double num} : Prop := {
  leb_ltb_false : forall a b : num, (a <=? b)%D = true -> (b <? a)%D = false;
  ltb_leb_false : forall a b : num, (a <? b)%D = true -> (b <=? a)%D = false
}.

(** ** The data the driver works on *)

(** The services [FactEPMaximumPiValues], [FactEPMaximumAValues] and
    [FactEPMaximumCValues] are used through two methods only; their code is
    not part of the sources, so the driver is verified against the
    interface. *)
Class MaximumValuesService (num M : Type) : Type := {
  getMaxValue : M -> nat -> num;
  update : M -> nat -> nat -> num -> M
}.

(** Modelled from the spec: the max-precision index (4.C), whose code is
    missing.  It stores one entry per pair (variable, factor);
    [getMaxValue i] is the largest entry of variable [i] (0.0 when it has
    none) and [update i j v] replaces the entry of [(i, j)]. *)
Definition MaxIndex (num : Type) : Type := list (nat * nat * num).

Definition maxIndex_getMaxValue {num} `{Double num}
    (idx : MaxIndex num) (i : nat) : num :=
  match filter (fun e => e.1.1 = i) idx with
  | [] => c_0
  | e :: es => foldl (fun m e' => std_max m e'.2) e.2 es
  end.

Definition maxIndex_update {num}
    (idx : MaxIndex num) (i j : nat) (v : num) : MaxIndex num :=
  (i, j, v) :: filter (fun e => e.1 <> (i, j)) idx.

#[export] Instance maxIndex {num} `{Double num} :
    MaximumValuesService num (MaxIndex num) := {|
  getMaxValue := maxIndex_getMaxValue;
  update := maxIndex_update
|}.

(** Return status of [sequentialUpdate]. *)
Inductive Status : Set :=
  | updSuccess
  | updCavityInvalid
  | updNumericalError
  | updMarginalsInvalid
  | updCavCondSkipped.

Definition status_code (s : Status) : Z :=
  match s with
  | updSuccess => 0
  | updCavityInvalid => 1
  | updNumericalError => 2
  | updMarginalsInvalid => 3
  | updCavCondSkipped => 4
  end.

Inductive Exception : Set := InvalidParameterException.

(** How a call ends: it returns a status, throws, or is stopped ([Aborted]:
    the assertion [MYASS] fails, or the representation has no row [j]). *)
Inductive Outcome : Set :=
  | Returned (s : Status)
  | Thrown (e : Exception)
  | Aborted.

Inductive ArgumentGroup : Set := atypeUnivariate | atypeBivarPrec.

Section Driver.

Context {num : Type} `{Double num}.
Context {M : Type} `{MaximumValuesService num M}.

(** [stray] is the value found by a read that the C++ standard leaves
    undefined: an uninitialised local, or an array element outside its
    bounds. *)
Variable stray : num.

Local Open Scope dbl_scope.

(** One potential of the [PotentialManager]: its argument group and
    [compMoments(inp, ret)], [None] when it returns false. *)
Record EPScalarPotential : Type := {
  getArgumentGroup : ArgumentGroup;
  compMoments : list num -> option (list num)
}.

Record PotentialManager : Type := {
  getPot : nat -> option EPScalarPotential
}.

(** Modelled from the spec: the factor representation (3, 4.A), whose
    class is missing.  Row [j] holds V_j, the coefficients b_ji and the
    message parameters beta_ji and pi_ji, in one order. *)
Record Row : Type := {
  vjInd : list nat;
  bP : list num;
  betaP : list num;
  piP : list num
}.

(** Modelled from the spec: the bivariate-precision part of a row: k(j) and
    the messages a_j and c_j. *)
Record TauRow : Type := {
  tauInd : nat;
  aP : num;
  cP : num
}.

(** The members of [FactorizedEPDriver].  [epReprPrec] is [None] for the
    null pointer (univariate mode). *)
Record Driver : Type := {
  epRepr : list Row;
  epReprPrec : option (list TauRow);
  margBeta : list num;
  margPi : list num;
  piMinThres : num;
  epMaxPi : option M;
  margA : list num;
  margC : list num;
  aMinThres : num;
  cMinThres : num;
  epMaxA : option M;
  epMaxC : option M;
  buffVec : list num
}.

Definition set_epRepr (d : Driver) (v : list Row) : Driver :=
  {| epRepr := v; epReprPrec := epReprPrec d; margBeta := margBeta d;
     margPi := margPi d; piMinThres := piMinThres d; epMaxPi := epMaxPi d;
     margA := margA d; margC := margC d; aMinThres := aMinThres d;
     cMinThres := cMinThres d; epMaxA := epMaxA d; epMaxC := epMaxC d;
     buffVec := buffVec d |}.

Definition set_margBeta (d : Driver) (v : list num) : Driver :=
  {| epRepr := epRepr d; epReprPrec := epReprPrec d; margBeta := v;
     margPi := margPi d; piMinThres := piMinThres d; epMaxPi := epMaxPi d;
     margA := margA d; margC := margC d; aMinThres := aMinThres d;
     cMinThres := cMinThres d; epMaxA := epMaxA d; epMaxC := epMaxC d;
     buffVec := buffVec d |}.

Definition set_margPi (d : Driver) (v : list num) : Driver :=
  {| epRepr := epRepr d; epReprPrec := epReprPrec d; margBeta := margBeta d;
     margPi := v; piMinThres := piMinThres d; epMaxPi := epMaxPi d;
     margA := margA d; margC := margC d; aMinThres := aMinThres d;
     cMinThres := cMinThres d; epMaxA := epMaxA d; epMaxC := epMaxC d;
     buffVec := buffVec d |}.

Definition set_epMaxPi (d : Driver) (v : option M) : Driver :=
  {| epRepr := epRepr d; epReprPrec := epReprPrec d; margBeta := margBeta d;
     margPi := margPi d; piMinThres := piMinThres d; epMaxPi := v;
     margA := margA d; margC := margC d; aMinThres := aMinThres d;
     cMinThres := cMinThres d; epMaxA := epMaxA d; epMaxC := epMaxC d;
     buffVec := buffVec d |}.

Definition set_buffVec (d : Driver) (v : list num) : Driver :=
  {| epRepr := epRepr d; epReprPrec := epReprPrec d; margBeta := margBeta d;
     margPi := margPi d; piMinThres := piMinThres d; epMaxPi := epMaxPi d;
     margA := margA d; margC := margC d; aMinThres := aMinThres d;
     cMinThres := cMinThres d; epMaxA := epMaxA d; epMaxC := epMaxC d;
     buffVec := v |}.

(** What the caller can observe of the driver: the representation (A), the
    marginals (B) and the maximum-value services (C).  The scratch buffer
    [buffVec] is private. *)
Definition observable (d : Driver) : Driver := set_buffVec d [].

(** The memory a call runs in: the driver, the two out-parameters
    ([None]: not written), and the record of the calls made to
    [compMoments] (potential index and input), newest first. *)
Record Mem : Type := {
  drv : Driver;
  out_delta : option num;
  out_effDamp : option num;
  oracle_calls : list (nat * list num)
}.

Definition with_drv (m : Mem) (d : Driver) : Mem :=
  {| drv := d; out_delta := out_delta m; out_effDamp := out_effDamp m;
     oracle_calls := oracle_calls m |}.

(** ** Computations: state, and early exit with an [Outcome] *)

Definition Exec (A : Type) : Type := Mem -> Mem * (A + Outcome).

Definition ret {A} (a : A) : Exec A := fun m => (m, inl a).

Definition bind {A B} (c : Exec A) (k : A -> Exec B) : Exec B :=
  fun m => match c m with
           | (m', inl a) => k a m'
           | (m', inr o) => (m', inr o)
           end.

Definition exit {A} (o : Outcome) : Exec A := fun m => (m, inr o).

Definition gets {A} (f : Driver -> A) : Exec A := fun m => (m, inl (f (drv m))).

Definition modify (f : Driver -> Driver) : Exec unit :=
  fun m => (with_drv m (f (drv m)), inl tt).

Notation "x <- c ;; k" := (bind c (fun x => k))
  (at level 100, c at next level, right associativity).
Notation "c ;; k" := (bind c (fun _ => k))
  (at level 100, right associativity).

(** [for (ii=start; ii<start+count; ii++) acc = body(ii, acc)] *)
Fixpoint for_loop {A} (body : nat -> A -> Exec A) (ii count : nat) (acc : A)
    : Exec A :=
  match count with
  | O => ret acc
  | S count' => acc' <- body ii acc ;; for_loop body (S ii) count' acc'
  end.

(** Array reads and writes.  A read outside the array yields [stray]. *)
Definition rd (l : list num) (i : nat) : num := default stray (l !! i).

Definition row_of (d : Driver) (j : nat) : Row :=
  default {| vjInd := []; bP := []; betaP := []; piP := [] |} (epRepr d !! j).

Definition load_piP (j ii : nat) : Exec num :=
  gets (fun d => rd (piP (row_of d j)) ii).

Definition load_betaP (j ii : nat) : Exec num :=
  gets (fun d => rd (betaP (row_of d j)) ii).

Definition load_mPiP (i : nat) : Exec num := gets (fun d => rd (margPi d) i).

Definition load_mBetaP (i : nat) : Exec num := gets (fun d => rd (margBeta d) i).

Definition load_buf (p : nat) : Exec num := gets (fun d => rd (buffVec d) p).

Definition store_buf (p : nat) (v : num) : Exec unit :=
  modify (fun d => set_buffVec d (<[p := v]> (buffVec d))).

Definition store_piP (j ii : nat) (v : num) : Exec unit :=
  modify (fun d => set_epRepr d
    (alter (fun r => {| vjInd := vjInd r; bP := bP r; betaP := betaP r;
                        piP := <[ii := v]> (piP r) |}) j (epRepr d))).

Definition store_betaP (j ii : nat) (v : num) : Exec unit :=
  modify (fun d => set_epRepr d
    (alter (fun r => {| vjInd := vjInd r; bP := bP r;
                        betaP := <[ii := v]> (betaP r); piP := piP r |})
           j (epRepr d))).

Definition store_mPiP (i : nat) (v : num) : Exec unit :=
  modify (fun d => set_margPi d (<[i := v]> (margPi d))).

Definition store_mBetaP (i : nat) (v : num) : Exec unit :=
  modify (fun d => set_margBeta d (<[i := v]> (margBeta d))).

Definition store_effDamp (v : num) : Exec unit :=
  fun m => ({| drv := drv m; out_delta := out_delta m; out_effDamp := Some v;
               oracle_calls := oracle_calls m |}, inl tt).

Definition store_delta (v : num) : Exec unit :=
  fun m => ({| drv := drv m; out_delta := Some v; out_effDamp := out_effDamp m;
               oracle_calls := oracle_calls m |}, inl tt).

Definition when (b : bool) (c : Exec unit) : Exec unit :=
  if b then c else ret tt.

(** ** [sequentialUpdate] *)

(** Modelled from the spec: the macro [MYASS], whose definition is missing
    (4.E.extra: "a runtime check guards against a mismatched factor reaching
    sequentialUpdate"): a failed check stops the call. *)
Definition MYASS (cond : bool) : Exec unit :=
  if cond then ret tt else exit Aborted.

Definition hasBVPrec (d : Driver) : bool :=
  match epReprPrec d with Some _ => true | None => false end.

(** The condition asserted at entry: the potential [j] exists and its
    argument group is the one of the driver's mode. *)
Definition group_matches (epPots : PotentialManager) (d : Driver) (j : nat)
    : bool :=
  match getPot epPots j with
  | Some pot =>
      match getArgumentGroup pot, hasBVPrec d with
      | atypeUnivariate, false => true
      | atypeBivarPrec, true => true
      | _, _ => false
      end
  | None => false
  end.

(** [epRepr->accessRow(j,vjSz,vjInd,bP,betaP,piP)].  The constant arrays
    [vjInd] and [bP] are handed out as values; [betaP] and [piP] stay in
    the driver and are read and written through [load_]/[store_]. *)
Definition accessRow (j : nat) : Exec Row :=
  fun m => match epRepr (drv m) !! j with
           | Some r => (m, inl r)
           | None => (m, inr Aborted)
           end.

Definition tauRow_of (d : Driver) (j : nat) : TauRow :=
  default {| tauInd := 0; aP := stray; cP := stray |}
          (epReprPrec d ≫= (.!! j)).

(** [k=epReprPrec->accessTauRow(j,aP,cP)] *)
Definition accessTauRow (j : nat) : Exec nat :=
  fun m => match epReprPrec (drv m) ≫= (.!! j) with
           | Some t => (m, inl (tauInd t))
           | None => (m, inr Aborted)
           end.

Definition load_aP (j : nat) : Exec num := gets (fun d => aP (tauRow_of d j)).

Definition load_cP (j : nat) : Exec num := gets (fun d => cP (tauRow_of d j)).

(** [if (buffVec.size()<4*vjSz) buffVec.changeRep(4*vjSz)]; a fresh buffer
    holds undefined values. *)
Definition ensure_buffVec (n : nat) : Exec unit :=
  modify (fun d => if Nat.ltb (length (buffVec d)) n
                   then set_buffVec d (replicate n stray) else d).

(** [epPots->getPot(j).compMoments(inp,ret)]; a [false] result makes the
    caller return [updNumericalError]. *)
Definition call_compMoments (epPots : PotentialManager) (j : nat)
    (inp : list num) : Exec (list num) :=
  fun m =>
    let m' := {| drv := drv m; out_delta := out_delta m;
                 out_effDamp := out_effDamp m;
                 oracle_calls := (j, inp) :: oracle_calls m |} in
    match getPot epPots j with
    | Some pot =>
        match compMoments pot inp with
        | Some r => (m', inl r)
        | None => (m', inr (Returned updNumericalError))
        end
    | None => (m, inr Aborted)
    end.

(** The locals [cH], [cRho], [mH], [mRho] of the first loop. *)
Record CavAcc : Type := {
  l_cH : num;
  l_cRho : num;
  l_mH : num;
  l_mRho : num
}.

(** Layout of [buffVec]: [cBetaP] at 0, [cPiP] at [vjSz], [mprBetaP] at
    [2*vjSz], [mprPiP] at [3*vjSz]. *)
Definition cBetaP (vjSz ii : nat) : nat := ii.
Definition cPiP (vjSz ii : nat) : nat := vjSz + ii.
Definition mprBetaP (vjSz ii : nat) : nat := 2 * vjSz + ii.
Definition mprPiP (vjSz ii : nat) : nat := 3 * vjSz + ii.

(** Lines 309-323: the cavity of position [ii]. *)
Definition cavity_body (j vjSz : nat) (vjInd_ : list nat) (bP_ : list num)
    (thres2 : num) (ii : nat) (a : CavAcc) : Exec CavAcc :=
  let i := default 0%nat (vjInd_ !! ii) in
  mPi_i <- load_mPiP i ;;
  pi_ii <- load_piP j ii ;;
  let cPi := mPi_i - pi_ii in
  store_buf (cPiP vjSz ii) cPi ;;
  if cPi <? thres2 then exit (Returned updCavityInvalid) else
  mBeta_i <- load_mBetaP i ;;
  beta_ii <- load_betaP j ii ;;
  let cBeta := mBeta_i - beta_ii in
  store_buf (cBetaP vjSz ii) cBeta ;;
  let bval := rd bP_ ii in
  let temp := bval / cPi in
  let cRho' := l_cRho a + bval * temp in
  let cH' := l_cH a + temp * cBeta in
  mPi_i <- load_mPiP i ;;
  let temp := bval / mPi_i in
  let mRho' := l_mRho a + bval * temp in
  mBeta_i <- load_mBetaP i ;;
  let mH' := l_mH a + temp * mBeta_i in
  ret {| l_cH := cH'; l_cRho := cRho'; l_mH := mH'; l_mRho := mRho' |}.

(** Lines 324-329: the cavity on the precision variable. *)
Definition cavity_tau (j k : nat) : Exec (num * num) :=
  mA_k <- gets (fun d => rd (margA d) k) ;;
  a_j <- load_aP j ;;
  aMin <- gets aMinThres ;;
  let cA := mA_k - a_j in
  if cA <? c_half * aMin then exit (Returned updCavityInvalid) else
  mC_k <- gets (fun d => rd (margC d) k) ;;
  c_j <- load_cP j ;;
  cMin <- gets cMinThres ;;
  let cC := mC_k - c_j in
  if cC <? c_half * cMin then exit (Returned updCavityInvalid) else
  ret (cA, cC).

(** Lines 364-387: the new message of one position without damping,
    [(prPi, prBeta)]; [None] where the code returns [updNumericalError]. *)
Definition undampedUpdate (bval cPi cBeta alpha nu : num) : option (num * num) :=
  if c_1em6 <? fabs bval then
    let temp2 := cPi / bval in
    let temp := temp2 / bval - nu in
    if temp <? c_1em10 then None else
    let temp := c_1 / temp in
    Some (temp * cPi * nu, temp * (cBeta * nu + temp2 * alpha))
  else
    let temp := cPi - nu * bval * bval in
    if temp <? c_1em10 then None else
    let temp := bval / temp in
    Some (temp * bval * nu * cPi, temp * (cBeta * bval * nu + cPi * alpha)).

(** Lines 400-415: the clamp of one position, reached when [epMaxPi] is
    there and [prPi<piP[ii]].  The branch [piP[ii]==kappa] of the source is
    empty. *)
Definition selectiveDamping (kappa mPi_i pi_ii prPi piMin dampFact : num)
    (effDamp : bool) : Exec num :=
  if kappa <=? c_0 then exit (Returned updNumericalError) else
  let temp := std_min ((mPi_i - kappa - piMin) / (pi_ii - prPi)) c_1 in
  if temp <=? c_002 then
    when effDamp (store_effDamp c_1) ;;
    exit (Returned updCavCondSkipped)
  else ret (std_max dampFact (c_1 - temp)).

(** The locals that the second loop leaves behind: [dampFact], and [i] and
    [prPi], which the bivariate clamp reads again ([None]: never assigned). *)
Record UpdAcc : Type := {
  l_dampFact : num;
  l_i : option nat;
  l_prPi : num
}.

(** Lines 356-417: the undamped message of position [ii] and its clamp. *)
Definition undamped_body (j vjSz : nat) (vjInd_ : list nat) (bP_ : list num)
    (alpha nu : num) (effDamp : bool) (ii : nat) (a : UpdAcc) : Exec UpdAcc :=
  let i := default 0%nat (vjInd_ !! ii) in
  let bval := rd bP_ ii in
  cPi <- load_buf (cPiP vjSz ii) ;;
  cBeta <- load_buf (cBetaP vjSz ii) ;;
  match undampedUpdate bval cPi cBeta alpha nu with
  | None => exit (Returned updNumericalError)
  | Some (prPi, prBeta) =>
      store_buf (mprPiP vjSz ii) prPi ;;
      store_buf (mprBetaP vjSz ii) prBeta ;;
      mx <- gets epMaxPi ;;
      pi_ii <- load_piP j ii ;;
      dampFact <-
        match mx with
        | Some mx =>
            if prPi <? pi_ii then
              mPi_i <- load_mPiP i ;;
              piMin <- gets piMinThres ;;
              selectiveDamping (getMaxValue mx i) mPi_i pi_ii prPi piMin
                               (l_dampFact a) effDamp
            else ret (l_dampFact a)
        | None => ret (l_dampFact a)
        end ;;
      ret {| l_dampFact := dampFact; l_i := Some i; l_prPi := prPi |}
  end.

(** Lines 418-436: the bivariate branch after the second loop.  There [ii]
    equals [vjSz], so [piP[ii]] lies one past the end of the row, and [i]
    and [prPi] are what the last iteration left. *)
Definition bivar_clamp (j vjSz k : nat) (hatA hatC cA cC : num)
    (effDamp : bool) (a : UpdAcc) : Exec num :=
  let prA := hatA - cA in
  let prC := hatC - cC in
  mxA <- gets epMaxA ;;
  a_j <- load_aP j ;;
  match mxA with
  | Some mxA =>
      if prA <? a_j then
        let temp2 := getMaxValue mxA k in
        mPi_i <- match l_i a with
                 | Some i => load_mPiP i
                 | None => ret stray
                 end ;;
        piMin <- gets piMinThres ;;
        pi_ii <- load_piP j vjSz ;;
        let temp :=
          std_min ((mPi_i - std_max temp2 c_0 - piMin) / (pi_ii - l_prPi a))
                  c_1 in
        if temp <=? c_002 then
          when effDamp (store_effDamp c_1) ;;
          exit (Returned updCavCondSkipped)
        else ret (std_max (l_dampFact a) (c_1 - temp))
      else ret (l_dampFact a)
  | None => ret (l_dampFact a)
  end.

(** Lines 447-451: damping of one message parameter. *)
Definition damp (dampFact old pr : num) : num :=
  if c_0 <? dampFact then pr + dampFact * (old - pr) else pr.

(** Lines 441-458: damped message and new marginal of position [ii]. *)
Definition damped_body (j vjSz : nat) (dampFact thres2 : num) (ii : nat)
    (_ : unit) : Exec unit :=
  cPi <- load_buf (cPiP vjSz ii) ;;
  cBeta <- load_buf (cBetaP vjSz ii) ;;
  prPi <- load_buf (mprPiP vjSz ii) ;;
  prBeta <- load_buf (mprBetaP vjSz ii) ;;
  pi_ii <- load_piP j ii ;;
  beta_ii <- load_betaP j ii ;;
  let prPi := damp dampFact pi_ii prPi in
  let prBeta := damp dampFact beta_ii prBeta in
  store_buf (mprPiP vjSz ii) (cPi + prPi) ;;
  if cPi + prPi <? thres2 then exit (Returned updMarginalsInvalid) else
  store_buf (mprBetaP vjSz ii) (cBeta + prBeta) ;;
  store_buf (cPiP vjSz ii) prPi ;;
  store_buf (cBetaP vjSz ii) prBeta ;;
  ret tt.

(** Lines 461-474: write back position [ii]; the locals are [mprH] and
    [mprRho]. *)
Definition commit_body (j vjSz : nat) (vjInd_ : list nat) (bP_ : list num)
    (ii : nat) (a : num * num) : Exec (num * num) :=
  let i := default 0%nat (vjInd_ !! ii) in
  v <- load_buf (cBetaP vjSz ii) ;; store_betaP j ii v ;;
  v <- load_buf (cPiP vjSz ii) ;; store_piP j ii v ;;
  v <- load_buf (mprBetaP vjSz ii) ;; store_mBetaP i v ;;
  v <- load_buf (mprPiP vjSz ii) ;; store_mPiP i v ;;
  let bval := rd bP_ ii in
  mprPi <- load_buf (mprPiP vjSz ii) ;;
  let temp := bval / mprPi in
  let mprRho := a.2 + bval * temp in
  mprBeta <- load_buf (mprBetaP vjSz ii) ;;
  let mprH := a.1 + temp * mprBeta in
  mx <- gets epMaxPi ;;
  match mx with
  | Some mx =>
      pi_ii <- load_piP j ii ;;
      modify (fun d => set_epMaxPi d (Some (update mx i j pi_ii)))
  | None => ret tt
  end ;;
  ret (mprH, mprRho).

Definition sequentialUpdate_body (epPots : PotentialManager) (j : nat)
    (dampFact : num) (delta effDamp : bool) : Exec Status :=
  piMin <- gets piMinThres ;;
  let thres2 := c_half * piMin in
  bv <- gets hasBVPrec ;;
  ok <- gets (fun d => group_matches epPots d j) ;;
  MYASS ok ;;
  if (dampFact <? c_0) || (c_1 <=? dampFact)
  then exit (Thrown InvalidParameterException) else
  row <- accessRow j ;;
  let vjSz := length (vjInd row) in
  k <- (if bv then accessTauRow j else ret 0%nat) ;;
  ensure_buffVec (4 * vjSz) ;;
  (* Compute cavity marginals *)
  cav <- for_loop (cavity_body j vjSz (vjInd row) (bP row) thres2) 0 vjSz
           {| l_cH := c_0; l_cRho := c_0; l_mH := c_0; l_mRho := c_0 |} ;;
  cAC <- (if bv then cavity_tau j k else ret (stray, stray)) ;;
  (* Local EP update *)
  let inp := if bv then [l_cH cav; l_cRho cav; cAC.1; cAC.2]
             else [l_cH cav; l_cRho cav] in
  res <- call_compMoments epPots j inp ;;
  let alpha := rd res 0 in
  let nu := rd res 1 in
  (* New EP parameters without damping, effective damping factor *)
  upd <- for_loop (undamped_body j vjSz (vjInd row) (bP row) alpha nu effDamp)
           0 vjSz
           {| l_dampFact := dampFact; l_i := None; l_prPi := stray |} ;;
  dampFact <- (if bv then bivar_clamp j vjSz k (rd res 2) (rd res 3)
                            cAC.1 cAC.2 effDamp upd
               else ret (l_dampFact upd)) ;;
  when effDamp (store_effDamp dampFact) ;;
  (* New EP parameters with damping, new marginals *)
  for_loop (damped_body j vjSz dampFact thres2) 0 vjSz tt ;;
  (* Update succeeded: write back *)
  mpr <- for_loop (commit_body j vjSz (vjInd row) (bP row)) 0 vjSz (c_0, c_0) ;;
  when delta
    (store_delta (std_max (MAXRELDIFF (l_mH cav) mpr.1)
                          (MAXRELDIFF (sqrt (l_mRho cav)) (sqrt mpr.2)))) ;;
  ret updSuccess.

(** A call on a driver: the caller's out-parameters start unwritten. *)
Definition enter (d : Driver) : Mem :=
  {| drv := d; out_delta := None; out_effDamp := None; oracle_calls := [] |}.

Definition sequentialUpdate (epPots : PotentialManager) (d : Driver) (j : nat)
    (dampFact : num) (delta effDamp : bool) : Mem * Outcome :=
  match sequentialUpdate_body epPots j dampFact delta effDamp (enter d) with
  | (m, inl s) => (m, Returned s)
  | (m, inr o) => (m, o)
  end.

End Driver.

Arguments EPScalarPotential num : clear implicits.
Arguments PotentialManager num : clear implicits.
Arguments Row num : clear implicits.
Arguments TauRow num : clear implicits.
Arguments Driver num M : clear implicits.
Arguments Mem num M : clear implicits.
Arguments Exec num M A : clear implicits.
Arguments CavAcc num : clear implicits.
Arguments UpdAcc num : clear implicits.

(** ** The update as a function of the state before the call

    The quantities of the algorithm, written as functions of the driver [d]
    the call starts from.  [sequentialUpdate], which works through
    [buffVec], is shown below to compute exactly these
    ([sequentialUpdate_refines]). *)

Section Functional.

Context {num : Type} `{Double num}.
Context {M : Type} `{MaximumValuesService num M}.
Variable stray : num.

Local Open Scope dbl_scope.

Local Abbreviation rd := (rd stray).
Local Abbreviation tauRow_of := (tauRow_of stray).
Local Abbreviation Driver := (Driver num M).
Local Abbreviation Row := (Row num).
Local Abbreviation Mem := (Mem num M).
Local Abbreviation PotentialManager := (PotentialManager num).
Local Abbreviation CavAcc := (CavAcc num).

Definition vjSz_of (d : Driver) (j : nat) : nat := length (vjInd (row_of d j)).

Definition var_at (d : Driver) (j ii : nat) : nat :=
  default 0%nat (vjInd (row_of d j) !! ii).

Definition b_at (d : Driver) (j ii : nat) : num := rd (bP (row_of d j)) ii.

Definition pi_at (d : Driver) (j ii : nat) : num := rd (piP (row_of d j)) ii.

Definition beta_at (d : Driver) (j ii : nat) : num := rd (betaP (row_of d j)) ii.

Definition mPi_at (d : Driver) (j ii : nat) : num := rd (margPi d) (var_at d j ii).

Definition mBeta_at (d : Driver) (j ii : nat) : num :=
  rd (margBeta d) (var_at d j ii).

Definition thres2_of (d : Driver) : num := c_half * piMinThres d.

(** Cavity parameters of position [ii]. *)
Definition cavPi (d : Driver) (j ii : nat) : num := mPi_at d j ii - pi_at d j ii.

Definition cavBeta (d : Driver) (j ii : nat) : num :=
  mBeta_at d j ii - beta_at d j ii.

(** The moments on s_j that a pair of marginal vectors gives: [mH] and
    [mRho] of the first loop, [mprH] and [mprRho] of the last. *)
Definition moments_step (b mPi mBeta : num) (a : num * num) : num * num :=
  let temp := b / mPi in (a.1 + temp * mBeta, a.2 + b * temp).

Fixpoint moments_upto (r : Row) (mPi mBeta : list num) (ii : nat) : num * num :=
  match ii with
  | O => (c_0, c_0)
  | S t => moments_step (rd (bP r) t)
             (rd mPi (default 0%nat (vjInd r !! t)))
             (rd mBeta (default 0%nat (vjInd r !! t)))
             (moments_upto r mPi mBeta t)
  end.

Definition moments_on_sj (r : Row) (mPi mBeta : list num) : num * num :=
  moments_upto r mPi mBeta (length (vjInd r)).

(** The locals of the first loop after the positions below [ii]. *)
Fixpoint cav_acc (d : Driver) (j ii : nat) : CavAcc :=
  match ii with
  | O => {| l_cH := c_0; l_cRho := c_0; l_mH := c_0; l_mRho := c_0 |}
  | S t =>
      let a := cav_acc d j t in
      let temp := b_at d j t / cavPi d j t in
      let temp' := b_at d j t / mPi_at d j t in
      {| l_cH := l_cH a + temp * cavBeta d j t;
         l_cRho := l_cRho a + b_at d j t * temp;
         l_mH := l_mH a + temp' * mBeta_at d j t;
         l_mRho := l_mRho a + b_at d j t * temp' |}
  end.

Definition cavA (d : Driver) (j : nat) : num :=
  rd (margA d) (tauInd (tauRow_of d j)) - aP (tauRow_of d j).

Definition cavC (d : Driver) (j : nat) : num :=
  rd (margC d) (tauInd (tauRow_of d j)) - cP (tauRow_of d j).

(** Some cavity precision is below half its threshold. *)
Definition cavity_pi_invalid (d : Driver) (j : nat) : bool :=
  existsb (fun ii => cavPi d j ii <? thres2_of d) (seq 0 (vjSz_of d j)).

Definition cavity_tau_invalid (d : Driver) (j : nat) : bool :=
  hasBVPrec d &&
  ((cavA d j <? c_half * aMinThres d) || (cavC d j <? c_half * cMinThres d)).

Definition cavity_invalid (d : Driver) (j : nat) : bool :=
  cavity_pi_invalid d j || cavity_tau_invalid d j.

(** What the potential is asked, and what it answers. *)
Definition oracle_input (d : Driver) (j : nat) : list num :=
  let a := cav_acc d j (vjSz_of d j) in
  if hasBVPrec d then [l_cH a; l_cRho a; cavA d j; cavC d j]
  else [l_cH a; l_cRho a].

Definition oracle_answer (epPots : PotentialManager) (d : Driver) (j : nat)
    : option (list num) :=
  getPot epPots j ≫= (fun pot => compMoments pot (oracle_input d j)).

(** Undamped message of position [ii], for the answer [res]. *)
Definition und (d : Driver) (j : nat) (res : list num) (ii : nat)
    : option (num * num) :=
  undampedUpdate (b_at d j ii) (cavPi d j ii) (cavBeta d j ii)
                 (rd res 0) (rd res 1).

Definition prPi_at (d : Driver) (j : nat) (res : list num) (ii : nat) : num :=
  match und d j res ii with Some p => p.1 | None => stray end.

Definition prBeta_at (d : Driver) (j : nat) (res : list num) (ii : nat) : num :=
  match und d j res ii with Some p => p.2 | None => stray end.

(** The precision message of position [ii] decreases. *)
Definition decreases (d : Driver) (j : nat) (res : list num) (ii : nat) : bool :=
  prPi_at d j res ii <? pi_at d j ii.

(** The value 1-eta of position [ii]. *)
Definition one_minus_eta (d : Driver) (mx : M) (j : nat) (res : list num)
    (ii : nat) : num :=
  std_min ((mPi_at d j ii - getMaxValue mx (var_at d j ii) - piMinThres d)
           / (pi_at d j ii - prPi_at d j res ii)) c_1.

(** One position of the second loop: a status that ends the call, or the
    damping factor it goes on with. *)
Definition clamp_step (d : Driver) (j : nat) (res : list num) (ii : nat)
    (dampFact : num) : Status + num :=
  match und d j res ii with
  | None => inl updNumericalError
  | Some _ =>
      match epMaxPi d with
      | Some mx =>
          if decreases d j res ii then
            if getMaxValue mx (var_at d j ii) <=? c_0
            then inl updNumericalError
            else if one_minus_eta d mx j res ii <=? c_002
            then inl updCavCondSkipped
            else inr (std_max dampFact (c_1 - one_minus_eta d mx j res ii))
          else inr dampFact
      | None => inr dampFact
      end
  end.

(** The second loop over the positions below [ii]. *)
Fixpoint damping_upto (d : Driver) (j : nat) (res : list num) (dampFact : num)
    (ii : nat) : Status + num :=
  match ii with
  | O => inr dampFact
  | S t =>
      match damping_upto d j res dampFact t with
      | inl s => inl s
      | inr dc => clamp_step d j res t dc
      end
  end.

(** The values of [i] and [prPi] after the second loop, and the element
    [piP[vjSz]] past the row, as the bivariate branch reads them. *)
Definition last_mPi (d : Driver) (j : nat) : num :=
  match vjSz_of d j with O => stray | S t => mPi_at d j t end.

Definition last_prPi (d : Driver) (j : nat) (res : list num) : num :=
  match vjSz_of d j with O => stray | S t => prPi_at d j res t end.

Definition bivar_temp (d : Driver) (mxA : M) (j : nat) (res : list num) : num :=
  std_min ((last_mPi d j
            - std_max (getMaxValue mxA (tauInd (tauRow_of d j))) c_0
            - piMinThres d)
           / (pi_at d j (vjSz_of d j) - last_prPi d j res)) c_1.

Definition bivar_clamp_fun (d : Driver) (j : nat) (res : list num)
    (dampFact : num) : Status + num :=
  if hasBVPrec d then
    match epMaxA d with
    | Some mxA =>
        if rd res 2 - cavA d j <? aP (tauRow_of d j) then
          if bivar_temp d mxA j res <=? c_002 then inl updCavCondSkipped
          else inr (std_max dampFact (c_1 - bivar_temp d mxA j res))
        else inr dampFact
    | None => inr dampFact
    end
  else inr dampFact.

(** The effective damping factor, or the status that ends the call. *)
Definition eff_damping (d : Driver) (j : nat) (res : list num) (dampFact : num)
    : Status + num :=
  match damping_upto d j res dampFact (vjSz_of d j) with
  | inl s => inl s
  | inr dc => bivar_clamp_fun d j res dc
  end.

(** Damped messages and the marginals they give. *)
Definition newPi (d : Driver) (j : nat) (res : list num) (deff : num)
    (ii : nat) : num :=
  damp deff (pi_at d j ii) (prPi_at d j res ii).

Definition newBeta (d : Driver) (j : nat) (res : list num) (deff : num)
    (ii : nat) : num :=
  damp deff (beta_at d j ii) (prBeta_at d j res ii).

Definition newMargPi (d : Driver) (j : nat) (res : list num) (deff : num)
    (ii : nat) : num :=
  cavPi d j ii + newPi d j res deff ii.

Definition newMargBeta (d : Driver) (j : nat) (res : list num) (deff : num)
    (ii : nat) : num :=
  cavBeta d j ii + newBeta d j res deff ii.

Definition marginals_invalid (d : Driver) (j : nat) (res : list num)
    (deff : num) : bool :=
  existsb (fun ii => newMargPi d j res deff ii <? thres2_of d)
          (seq 0 (vjSz_of d j)).

(** [l[at ii] = f ii] for the positions [ii] below [n], in turn. *)
Fixpoint scatter {A} (at_ : nat -> nat) (f : nat -> A) (n : nat) (l : list A)
    : list A :=
  match n with
  | O => l
  | S t => <[at_ t := f t]> (scatter at_ f t l)
  end.

(** The row, marginals and max-pi service that a successful call leaves. *)
Definition commit_row (d : Driver) (j : nat) (res : list num) (deff : num)
    (n : nat) : Row :=
  {| vjInd := vjInd (row_of d j);
     bP := bP (row_of d j);
     betaP := scatter id (newBeta d j res deff) n (betaP (row_of d j));
     piP := scatter id (newPi d j res deff) n (piP (row_of d j)) |}.

Fixpoint commit_maxPi (d : Driver) (j : nat) (res : list num) (deff : num)
    (n : nat) (mx : M) : M :=
  match n with
  | O => mx
  | S t => update (commit_maxPi d j res deff t mx) (var_at d j t) j
             (rd (piP (commit_row d j res deff (S t))) t)
  end.

Definition commit_fun (d : Driver) (j : nat) (res : list num) (deff : num)
    (n : nat) : Driver :=
  {| epRepr := <[j := commit_row d j res deff n]> (epRepr d);
     epReprPrec := epReprPrec d;
     margBeta := scatter (var_at d j) (newMargBeta d j res deff) n (margBeta d);
     margPi := scatter (var_at d j) (newMargPi d j res deff) n (margPi d);
     piMinThres := piMinThres d;
     epMaxPi := commit_maxPi d j res deff n <$> epMaxPi d;
     margA := margA d; margC := margC d;
     aMinThres := aMinThres d; cMinThres := cMinThres d;
     epMaxA := epMaxA d; epMaxC := epMaxC d;
     buffVec := [] |}.

(** The locals [mprH], [mprRho] of the last loop after the positions
    below [ii]. *)
Fixpoint mpr_acc (d : Driver) (j : nat) (res : list num) (deff : num)
    (ii : nat) : num * num :=
  match ii with
  | O => (c_0, c_0)
  | S t => moments_step (b_at d j t) (newMargPi d j res deff t)
             (newMargBeta d j res deff t) (mpr_acc d j res deff t)
  end.

Definition delta_fun (d : Driver) (j : nat) (res : list num) (deff : num) : num :=
  let a := cav_acc d j (vjSz_of d j) in
  let a' := mpr_acc d j res deff (vjSz_of d j) in
  std_max (MAXRELDIFF (l_mH a) a'.1)
          (MAXRELDIFF (sqrt (l_mRho a)) (sqrt a'.2)).

(** The conditions under which the call gets past its entry: the asserted
    condition holds, the damping factor passes the test of the code, and
    row [j] is there. *)
Definition entry_ok (epPots : PotentialManager) (d : Driver) (j : nat)
    (dampFact : num) : bool :=
  group_matches epPots d j
  && negb ((dampFact <? c_0) || (c_1 <=? dampFact))
  && bool_decide (is_Some (epRepr d !! j))
  && (negb (hasBVPrec d)
      || bool_decide (is_Some (epReprPrec d ≫= (.!! j)))).

(** Everything a call yields: outcome, observable driver, the two
    out-parameters and the calls made to [compMoments]. *)
Record Result : Type := {
  r_outcome : Outcome;
  r_driver : Driver;
  r_delta : option num;
  r_effDamp : option num;
  r_calls : list (nat * list num)
}.

Definition result_of (r : Mem * Outcome) : Result :=
  {| r_outcome := r.2;
     r_driver := observable (drv r.1);
     r_delta := out_delta r.1;
     r_effDamp := out_effDamp r.1;
     r_calls := oracle_calls r.1 |}.

Definition failed (d : Driver) (o : Outcome) (eff : option num)
    (calls : list (nat * list num)) : Result :=
  {| r_outcome := o; r_driver := observable d; r_delta := None;
     r_effDamp := eff; r_calls := calls |}.

Definition sequentialUpdate_fun (epPots : PotentialManager) (d : Driver)
    (j : nat) (dampFact : num) (delta effDamp : bool) : Result :=
  if negb (group_matches epPots d j) then failed d Aborted None []
  else if (dampFact <? c_0) || (c_1 <=? dampFact)
  then failed d (Thrown InvalidParameterException) None []
  else if negb (entry_ok epPots d j dampFact) then failed d Aborted None []
  else if cavity_invalid d j
  then failed d (Returned updCavityInvalid) None []
  else
    let calls := [(j, oracle_input d j)] in
    match oracle_answer epPots d j with
    | None => failed d (Returned updNumericalError) None calls
    | Some res =>
        match eff_damping d j res dampFact with
        | inl s =>
            failed d (Returned s)
              (if effDamp then
                 match s with updCavCondSkipped => Some c_1 | _ => None end
               else None) calls
        | inr deff =>
            let eff := if effDamp then Some deff else None in
            if marginals_invalid d j res deff
            then failed d (Returned updMarginalsInvalid) eff calls
            else
              {| r_outcome := Returned updSuccess;
                 r_driver := commit_fun d j res deff (vjSz_of d j);
                 r_delta := if delta then Some (delta_fun d j res deff)
                            else None;
                 r_effDamp := eff;
                 r_calls := calls |}
        end
    end.

End Functional.

(** ** Memories met during a call *)

Section Invariants.

Context {num : Type} `{Double num}.
Context {M : Type} `{MaximumValuesService num M}.
Variable stray : num.

Local Abbreviation rds := (rd stray).
Local Abbreviation Driver := (Driver num M).
Local Abbreviation Mem := (Mem num M).
Local Abbreviation Exec := (Exec num M).

(** The memory whose driver is [d] but for the scratch buffer [b]. *)
Definition mem_of (d : Driver) (b : list num) (dlt eff : option num)
    (calls : list (nat * list num)) : Mem :=
  {| drv := set_buffVec d b; out_delta := dlt; out_effDamp := eff;
     oracle_calls := calls |}.

(** The array of [buffVec] at offset [off] holds [f] on the positions from
    [lo] up to [hi]. *)
Definition holds (b : list num) (off : nat -> nat) (f : nat -> num)
    (lo hi : nat) : Prop :=
  forall t, lo <= t < hi -> rds b (off t) = f t.

(** Hoare triple of a computation with early exit: from a memory in [P] it
    ends in [Q] with a value, or in [E] with an outcome. *)
Definition triple {A} (P : Mem -> Prop) (c : Exec A)
    (Q : A -> Mem -> Prop) (E : Outcome -> Mem -> Prop) : Prop :=
  forall m, P m ->
    match c m with
    | (m', inl a) => Q a m'
    | (m', inr o) => E o m'
    end.

End Invariants.

Section LoopInvariants.

Context {num : Type} `{Double num}.
Context {M : Type} `{MaximumValuesService num M}.
Variable stray : num.

Local Abbreviation rds := (rd stray).
Local Abbreviation Driver := (Driver num M).
Local Abbreviation Mem := (Mem num M).

(** The memories that the four loops of a call run through, as loop
    invariants ([I1] to [I4], at position [ii]) and exit conditions ([E1]
    to [E3]).  [d] is the driver the call started from. *)

Definition I1 (d : Driver) (j : nat) (ii : nat) (a : CavAcc num) (m : Mem) : Prop :=
  exists b, m = mem_of d b None None [] /\ 4 * vjSz_of d j <= length b /\
    a = cav_acc stray d j ii /\
    holds stray b (cPiP (vjSz_of d j)) (cavPi stray d j) 0 ii /\
    holds stray b (cBetaP (vjSz_of d j)) (cavBeta stray d j) 0 ii /\
    (forall t, t < ii -> ((cavPi stray d j t) <? (thres2_of d))%D = false).

Definition E1 (d : Driver) (j : nat) (o : Outcome) (m : Mem) : Prop :=
  o = Returned updCavityInvalid /\ (exists b, m = mem_of d b None None []) /\
  cavity_pi_invalid stray d j = true.

Definition skipped_effDamp (effDamp : bool) (s : Status) : option num :=
  if effDamp then match s with updCavCondSkipped => Some c_1 | _ => None end
  else None.

Definition I2 (d : Driver) (j : nat) (res : list num) (dampFact : num)
    (calls : list (nat * list num)) (ii : nat) (a : UpdAcc num) (m : Mem) : Prop :=
  exists b, m = mem_of d b None None calls /\ 4 * vjSz_of d j <= length b /\
    holds stray b (cPiP (vjSz_of d j)) (cavPi stray d j) 0 (vjSz_of d j) /\
    holds stray b (cBetaP (vjSz_of d j)) (cavBeta stray d j) 0 (vjSz_of d j) /\
    holds stray b (mprPiP (vjSz_of d j)) (prPi_at stray d j res) 0 ii /\
    holds stray b (mprBetaP (vjSz_of d j)) (prBeta_at stray d j res) 0 ii /\
    damping_upto stray d j res dampFact ii = inr (l_dampFact a) /\
    l_i a = match ii with O => None | S t => Some (var_at d j t) end /\
    l_prPi a = match ii with O => stray | S t => prPi_at stray d j res t end.

Definition E2 (d : Driver) (j : nat) (res : list num) (dampFact : num)
    (effDamp : bool) (calls : list (nat * list num)) (o : Outcome) (m : Mem) : Prop :=
  exists s b, o = Returned s /\
    damping_upto stray d j res dampFact (vjSz_of d j) = inl s /\
    m = mem_of d b None (skipped_effDamp effDamp s) calls.

Definition I3 (d : Driver) (j : nat) (res : list num) (deff : num)
    (eff : option num) (calls : list (nat * list num)) (ii : nat) (u : unit)
    (m : Mem) : Prop :=
  exists b, m = mem_of d b None eff calls /\ 4 * vjSz_of d j <= length b /\
    holds stray b (cPiP (vjSz_of d j)) (cavPi stray d j) ii (vjSz_of d j) /\
    holds stray b (cBetaP (vjSz_of d j)) (cavBeta stray d j) ii (vjSz_of d j) /\
    holds stray b (mprPiP (vjSz_of d j)) (prPi_at stray d j res) ii (vjSz_of d j) /\
    holds stray b (mprBetaP (vjSz_of d j)) (prBeta_at stray d j res) ii (vjSz_of d j) /\
    holds stray b (mprPiP (vjSz_of d j)) (newMargPi stray d j res deff) 0 ii /\
    holds stray b (mprBetaP (vjSz_of d j)) (newMargBeta stray d j res deff) 0 ii /\
    holds stray b (cPiP (vjSz_of d j)) (newPi stray d j res deff) 0 ii /\
    holds stray b (cBetaP (vjSz_of d j)) (newBeta stray d j res deff) 0 ii /\
    (forall t, t < ii ->
       (newMargPi stray d j res deff t <? thres2_of d)%D = false).

Definition E3 (d : Driver) (j : nat) (res : list num) (deff : num)
    (eff : option num) (calls : list (nat * list num)) (o : Outcome)
    (m : Mem) : Prop :=
  o = Returned updMarginalsInvalid /\
  (exists b, m = mem_of d b None eff calls) /\
  marginals_invalid stray d j res deff = true.

Definition I4 (d : Driver) (j : nat) (res : list num) (deff : num)
    (eff : option num) (calls : list (nat * list num)) (ii : nat)
    (a : num * num) (m : Mem) : Prop :=
  exists b, m = mem_of (commit_fun stray d j res deff ii) b None eff calls /\
    4 * vjSz_of d j <= length b /\
    holds stray b (mprPiP (vjSz_of d j)) (newMargPi stray d j res deff) 0 (vjSz_of d j) /\
    holds stray b (mprBetaP (vjSz_of d j)) (newMargBeta stray d j res deff) 0 (vjSz_of d j) /\
    holds stray b (cPiP (vjSz_of d j)) (newPi stray d j res deff) 0 (vjSz_of d j) /\
    holds stray b (cBetaP (vjSz_of d j)) (newBeta stray d j res deff) 0 (vjSz_of d j) /\
    a = mpr_acc stray d j res deff ii.

(** The buffer after [ensure_buffVec n]. *)
Definition buf0 (d : Driver) (n : nat) : list num :=
  if Nat.ltb (length (buffVec d)) n then replicate n stray else buffVec d.

(** The outcome of a body that has run. *)
Definition finish (r : Mem * (Status + Outcome)) : Mem * Outcome :=
  match r with
  | (m, inl s) => (m, Returned s)
  | (m, inr o) => (m, o)
  end.

End LoopInvariants.

Section Cases.

Context {num : Type} `{Double num}.
Context {M : Type} `{MaximumValuesService num M}.
Variable stray : num.

Local Abbreviation Driver := (Driver num M).
Local Abbreviation PotentialManager := (PotentialManager num).

(** The cases of a call that returns a status. *)
Inductive returns_cases (epPots : PotentialManager) (d : Driver) (j : nat)
    (dampFact : num) (delta effDamp : bool) : Result -> Prop :=
  | rc_cavity :
      cavity_invalid stray d j = true ->
      returns_cases epPots d j dampFact delta effDamp
        (failed d (Returned updCavityInvalid) None [])
  | rc_oracle :
      cavity_invalid stray d j = false ->
      oracle_answer stray epPots d j = None ->
      returns_cases epPots d j dampFact delta effDamp
        (failed d (Returned updNumericalError) None [(j, oracle_input stray d j)])
  | rc_clamp res s :
      cavity_invalid stray d j = false ->
      oracle_answer stray epPots d j = Some res ->
      eff_damping stray d j res dampFact = inl s ->
      returns_cases epPots d j dampFact delta effDamp
        (failed d (Returned s) (skipped_effDamp effDamp s)
                [(j, oracle_input stray d j)])
  | rc_marginals res deff :
      cavity_invalid stray d j = false ->
      oracle_answer stray epPots d j = Some res ->
      eff_damping stray d j res dampFact = inr deff ->
      marginals_invalid stray d j res deff = true ->
      returns_cases epPots d j dampFact delta effDamp
        (failed d (Returned updMarginalsInvalid)
                (if effDamp then Some deff else None)
                [(j, oracle_input stray d j)])
  | rc_success res deff :
      cavity_invalid stray d j = false ->
      oracle_answer stray epPots d j = Some res ->
      eff_damping stray d j res dampFact = inr deff ->
      marginals_invalid stray d j res deff = false ->
      returns_cases epPots d j dampFact delta effDamp
        {| r_outcome := Returned updSuccess;
           r_driver := commit_fun stray d j res deff (vjSz_of d j);
           r_delta := if delta then Some (delta_fun stray d j res deff) else None;
           r_effDamp := if effDamp then Some deff else None;
           r_calls := [(j, oracle_input stray d j)] |}.


End Cases.

(** ** Concrete drivers, in binary64 and in the rationals *)

(** A potential manager all of whose potentials are of group [g] and answer
    [ans] to [compMoments]. *)

Definition pots_const {num : Type} (g : ArgumentGroup)
    (ans : option (list num)) : PotentialManager num :=
  {| getPot := fun _ =>
       Some {| getArgumentGroup := g; compMoments := fun _ => ans |} |}.

(** Two univariate factors on one variable, with the max-pi service
    (scenarios S2 to S4 of the specification): pi_00 = 10, pi_10 = 1,
    piMin = 0.1, and the marginal pi_0 = [mPi]. *)
Definition drv_two (mPi : float) : Driver float (MaxIndex float) :=
  {| epRepr :=
       [ {| vjInd := [0%nat]; bP := [1%float]; betaP := [0%float];
            piP := [10%float] |};
         {| vjInd := [0%nat]; bP := [1%float]; betaP := [0%float];
            piP := [1%float] |} ];
     epReprPrec := None;
     margBeta := [0%float]; margPi := [mPi]; piMinThres := 0.1%float;
     epMaxPi := Some [(0%nat, 0%nat, 10%float); (0%nat, 1%nat, 1%float)];
     margA := []; margC := []; aMinThres := 0%float; cMinThres := 0%float;
     epMaxA := None; epMaxC := None; buffVec := [] |}.

(** The answer (alpha, nu) = (0, -10/19), for which the undamped message
    of factor 1 is pi~ = -0.5 when pi_0 = 11. *)
Definition answer_drop : option (list float) :=
  Some [0%float; PrimFloat.div (-10)%float 19%float].

(** ** Definitions that the claims are stated with *)

Section ClaimDefs.

Context {num : Type} `{Double num}.
Context {M : Type} `{MaximumValuesService num M}.
Variable stray : num.

Local Abbreviation rds := (rd stray).
Local Abbreviation Driver := (Driver num M).
Local Abbreviation Row := (Row num).
Local Abbreviation PotentialManager := (PotentialManager num).

(** The damping factor that step 4 of the specification describes: the
    maximum of [dampFact] and of 1 - (1-eta) over the positions where the
    precision message decreases. *)
Definition damping_spec (d : Driver) (mx : M) (j : nat) (res : list num)
    (dampFact : num) (n : nat) : num :=
  foldl (fun dc ii =>
           if decreases stray d j res ii
           then std_max dc (c_1 - one_minus_eta stray d mx j res ii)%D
           else dc)
        dampFact (seq 0 n).

(** The sum of the message parameters that the rows send to variable [i]:
    [sel] picks the array ([piP] or [betaP]); a row contributes the entries
    at the positions of [i] in its V_j. *)
Fixpoint row_sum (i : nat) (ind : list nat) (vals : list num) : num :=
  match ind, vals with
  | i' :: ind', v :: vals' =>
      if decide (i' = i) then (v + row_sum i ind' vals')%D
      else row_sum i ind' vals'
  | _, _ => c_0
  end.

Definition msg_sum (sel : Row -> list num) (rows : list Row) (i : nat) : num :=
  foldr (fun r acc => (row_sum i (vjInd r) (sel r) + acc)%D) c_0 rows.

(** The value 1-eta of step 4 of the specification, for a quantity with
    aggregate [agg], largest incoming message [kappa], threshold [thres],
    and a message that goes from [old] to [new]. *)
Definition clamp_spec (agg kappa thres old new : num) : num :=
  std_min ((agg - kappa - thres) / (old - new))%D c_1.

End ClaimDefs.

(** The thresholds of step 3 as the specification writes them, on the
    doubles of the program.  A finite double with mantissa [m] and exponent
    [e] stands for the rational m * 2^e. *)
Definition real_value (m : positive) (e : Z) : Q := inject_Z (Zpos m) * 2 ^ e.

(** |b| >= 10^-6, for the real number 10^-6. *)
Definition at_least_1em6 (b : float) : bool :=
  match Prim2SF b with
  | S754_finite _ m e => Qle_bool (1 # 1000000) (real_value m e)
  | S754_infinity _ => true
  | S754_zero _ | S754_nan => false
  end.

(** The rational number that a double stands for (0 for an infinity and
    for NaN), and the sum of the message parameters that the rows send to
    variable [i], as [msg_sum] but added up without rounding. *)
Definition exact_value (x : float) : Q :=
  match Prim2SF x with
  | S754_finite s m e => if s then (- real_value m e)%Q else real_value m e
  | _ => 0%Q
  end.

Fixpoint exact_row_sum (i : nat) (ind : list nat) (vals : list float) : Q :=
  match ind, vals with
  | i' :: ind', v :: vals' =>
      if decide (i' = i) then (exact_value v + exact_row_sum i ind' vals')%Q
      else exact_row_sum i ind' vals'
  | _, _ => 0%Q
  end.

Definition exact_msg_sum (sel : Row float -> list float)
    (rows : list (Row float)) (i : nat) : Q :=
  foldr (fun r acc => (exact_row_sum i (vjInd r) (sel r) + acc)%Q) 0%Q rows.

(** x < 10^-10, for the real number 10^-10. *)
Definition below_1em10 (x : float) : bool :=
  match Prim2SF x with
  | S754_finite true _ _ => true
  | S754_finite false m e => negb (Qle_bool (1 # 10000000000) (real_value m e))
  | S754_infinity s => s
  | S754_zero _ => true
  | S754_nan => false
  end.

(** One univariate factor on one variable, without max-pi service:
    coefficient [b], messages pi_00 = [p] and beta_00 = [bt], marginals
    pi_0 = [mp] and beta_0 = [mb], piMin = 0.1. *)
Definition drv_one (b p bt mp mb : float) : Driver float (MaxIndex float) :=
  {| epRepr := [ {| vjInd := [0%nat]; bP := [b]; betaP := [bt]; piP := [p] |} ];
     epReprPrec := None;
     margBeta := [mb]; margPi := [mp]; piMinThres := 0.1%float;
     epMaxPi := None;
     margA := []; margC := []; aMinThres := 0%float; cMinThres := 0%float;
     epMaxA := None; epMaxC := None; buffVec := [] |}.

(** One bivariate-precision factor on two variables and one precision
    variable: b = (1, 2), pi_0j = (1, 2), beta_0j = (0.5, 0.25), marginals
    pi = (3, 5), beta = (1, 1), a_0 = c_0 = 4, all thresholds 0.1, messages
    a_j = [a_j] and c_j = [c_j], and the three maximum-value services. *)
Definition drv_bivar (a_j c_j : float) : Driver float (MaxIndex float) :=
  {| epRepr :=
       [ {| vjInd := [0%nat; 1%nat]; bP := [1%float; 2%float];
            betaP := [0.5%float; 0.25%float]; piP := [1%float; 2%float] |} ];
     epReprPrec := Some [ {| tauInd := 0; aP := a_j; cP := c_j |} ];
     margBeta := [1%float; 1%float]; margPi := [3%float; 5%float];
     piMinThres := 0.1%float;
     epMaxPi := Some [(0%nat, 0%nat, 1%float); (1%nat, 0%nat, 2%float)];
     margA := [4%float]; margC := [4%float];
     aMinThres := 0.1%float; cMinThres := 0.1%float;
     epMaxA := Some [(0%nat, 0%nat, a_j)];
     epMaxC := Some [(0%nat, 0%nat, c_j)];
     buffVec := [] |}.

(** Univariate factors on one variable, without max-pi service: one factor
    for each message pi_j0 of [ps], with coefficient [b] and beta_j0 = 0,
    the marginals pi_0 = [mPi] and beta_0 = 0, piMin = 0.1. *)
Definition drv_msgs (b : float) (ps : list float) (mPi : float)
    : Driver float (MaxIndex float) :=
  {| epRepr :=
       map (fun p => {| vjInd := [0%nat]; bP := [b]; betaP := [0%float];
                        piP := [p] |}) ps;
     epReprPrec := None;
     margBeta := [0%float]; margPi := [mPi]; piMinThres := 0.1%float;
     epMaxPi := None;
     margA := []; margC := []; aMinThres := 0%float; cMinThres := 0%float;
     epMaxA := None; epMaxC := None; buffVec := [] |}.

(** The drivers [drv_two] and [drv_one] in exact rational arithmetic. *)
Definition drvq_two : Driver Qc (MaxIndex Qc) :=
  {| epRepr :=
       [ {| vjInd := [0%nat]; bP := [Q2Qc 1]; betaP := [Q2Qc 0];
            piP := [Q2Qc 10] |};
         {| vjInd := [0%nat]; bP := [Q2Qc 1]; betaP := [Q2Qc 0];
            piP := [Q2Qc 1] |} ];
     epReprPrec := None;
     margBeta := [Q2Qc 0]; margPi := [Q2Qc 11]; piMinThres := Q2Qc 0.1;
     epMaxPi := Some [(0%nat, 0%nat, Q2Qc 10); (0%nat, 1%nat, Q2Qc 1)];
     margA := []; margC := []; aMinThres := Q2Qc 0; cMinThres := Q2Qc 0;
     epMaxA := None; epMaxC := None; buffVec := [] |}.



(** ** Construction, access, and runs of calls *)

#[export] Instance ArgumentGroup_eq_dec : EqDecision ArgumentGroup.
Proof. solve_decision. Defined.

(** The exception of the access methods. *)
Inductive AccessException : Set := WrongStatusException.

Section Construction.

Context {num : Type} `{Double num}.
Context {M : Type} `{MaximumValuesService num M}.

(** [stray] is the value of a member that a constructor leaves
    uninitialised. *)
Variable stray : num.

Local Open Scope dbl_scope.

Local Abbreviation rds := (rd stray).
Local Abbreviation Driver := (Driver num M).
Local Abbreviation Row := (Row num).
Local Abbreviation PotentialManager := (PotentialManager num).

(** Modelled from the spec: the representation (4.A) as a constructor sees
    it, the rows and the number n that [numVariables()] returns. *)
Record FactorizedEPRepresentation : Type := {
  rep_rows : list Row;
  numVariables : nat
}.

(** Modelled from the spec: the representation with the precision part
    (4.A): for each factor k(j), a_j and c_j, and the number K that
    [numPrecVars()] returns. *)
Record FactEPRepresBivarPrec : Type := {
  rep_base : FactorizedEPRepresentation;
  rep_tau : list (TauRow num);
  numPrecVars : nat
}.

(** Modelled from the spec: a potential manager given by the list of its
    potentials: [getPot(j)] is entry [j], [size()] the length and
    [numArgumentGroup(g)] the number of potentials of group [g]. *)
Definition manager_of (pots : list (EPScalarPotential num)) : PotentialManager :=
  {| getPot := fun j => pots !! j |}.

Definition numArgumentGroup (pots : list (EPScalarPotential num))
    (g : ArgumentGroup) : nat :=
  length (filter (fun pot => getArgumentGroup pot = g) pots).

(** Lines 135-150: the constructor for univariate potentials.  The
    members it does not mention are default-constructed (empty arrays,
    null handles) or, for the two [double]s, left uninitialised. *)
Definition FactorizedEPDriver_univariate
    (pepPots : list (EPScalarPotential num))
    (pepRepr : FactorizedEPRepresentation)
    (pmargBeta pmargPi : list num) (ppiMinThres : num)
    (pepMaxPi : option M) : Exception + Driver :=
  let numN := numVariables pepRepr in
  if (ppiMinThres <=? c_0)
     || negb (Nat.eqb (length pmargBeta) numN)
     || negb (Nat.eqb (length pmargPi) numN)
  then inl InvalidParameterException
  else if negb (Nat.eqb (length pepPots)
                        (numArgumentGroup pepPots atypeUnivariate))
  then inl InvalidParameterException
  else inr {| epRepr := rep_rows pepRepr; epReprPrec := None;
              margBeta := pmargBeta; margPi := pmargPi;
              piMinThres := ppiMinThres; epMaxPi := pepMaxPi;
              margA := []; margC := [];
              aMinThres := stray; cMinThres := stray;
              epMaxA := None; epMaxC := None; buffVec := [] |}.

(** Lines 170-196: the constructor for bivariate precision potentials. *)
Definition FactorizedEPDriver_bivarPrec
    (pepPots : list (EPScalarPotential num))
    (pepRepr : FactEPRepresBivarPrec)
    (pmargBeta pmargPi pmargA pmargC : list num)
    (ppiMinThres paMinThres pcMinThres : num)
    (pepMaxPi pepMaxA pepMaxC : option M) : Exception + Driver :=
  let numN := numVariables (rep_base pepRepr) in
  let numK := numPrecVars pepRepr in
  if (ppiMinThres <=? c_0)
     || negb (Nat.eqb (length pmargBeta) numN)
     || negb (Nat.eqb (length pmargPi) numN)
     || (paMinThres <=? c_0) || (pcMinThres <=? c_0)
     || negb (Nat.eqb (length pmargA) numK)
     || negb (Nat.eqb (length pmargC) numK)
  then inl InvalidParameterException
  else if negb (Nat.eqb (length pepPots)
                        (numArgumentGroup pepPots atypeBivarPrec))
  then inl InvalidParameterException
  else inr {| epRepr := rep_rows (rep_base pepRepr);
              epReprPrec := Some (rep_tau pepRepr);
              margBeta := pmargBeta; margPi := pmargPi;
              piMinThres := ppiMinThres; epMaxPi := pepMaxPi;
              margA := pmargA; margC := pmargC;
              aMinThres := paMinThres; cMinThres := pcMinThres;
              epMaxA := pepMaxA; epMaxC := pepMaxC; buffVec := [] |}.

(** Lines 218-236: the marginals; those of tau only in bivariate mode. *)
Definition getMarginalsBeta (d : Driver) : list num := margBeta d.

Definition getMarginalsPi (d : Driver) : list num := margPi d.

Definition getMarginalsA (d : Driver) : AccessException + list num :=
  if hasBVPrec d then inr (margA d) else inl WrongStatusException.

Definition getMarginalsC (d : Driver) : AccessException + list num :=
  if hasBVPrec d then inr (margC d) else inl WrongStatusException.

(** The driver after a run of calls [sequentialUpdate(j, dampFact)], one
    after the other and whatever their outcomes. *)
Definition after_updates (epPots : PotentialManager) (d : Driver)
    (calls : list (nat * num)) : Driver :=
  foldl (fun d c => drv (sequentialUpdate stray epPots d c.1 c.2 false false).1)
        d calls.

(** The parts of a driver that no call changes. *)
Definition same_shape (d d' : Driver) : Prop :=
  length (epRepr d') = length (epRepr d) /\
  (forall j, vjInd (row_of d' j) = vjInd (row_of d j) /\
             bP (row_of d' j) = bP (row_of d j) /\
             length (piP (row_of d' j)) = length (piP (row_of d j)) /\
             length (betaP (row_of d' j)) = length (betaP (row_of d j))) /\
  length (margPi d') = length (margPi d) /\
  length (margBeta d') = length (margBeta d) /\
  epReprPrec d' = epReprPrec d /\
  margA d' = margA d /\ margC d' = margC d /\
  piMinThres d' = piMinThres d /\
  aMinThres d' = aMinThres d /\ cMinThres d' = cMinThres d /\
  epMaxA d' = epMaxA d /\ epMaxC d' = epMaxC d /\
  (is_Some (epMaxPi d') <-> is_Some (epMaxPi d)).

(** The drivers [d] and [d'] hold the same in all that a call on factor
    [j] reads: row [j], the marginals of the variables of V_j, the part of
    tau, the thresholds and the services. *)
Definition agree_on (j : nat) (d d' : Driver) : Prop :=
  row_of d' j = row_of d j /\
  (is_Some (epRepr d' !! j) <-> is_Some (epRepr d !! j)) /\
  epReprPrec d' = epReprPrec d /\
  margA d' = margA d /\ margC d' = margC d /\
  piMinThres d' = piMinThres d /\
  aMinThres d' = aMinThres d /\ cMinThres d' = cMinThres d /\
  epMaxPi d' = epMaxPi d /\ epMaxA d' = epMaxA d /\
  (forall ii, (ii < vjSz_of d j)%nat ->
     rds (margPi d') (var_at d j ii) = rds (margPi d) (var_at d j ii)) /\
  (forall ii, (ii < vjSz_of d j)%nat ->
     rds (margBeta d') (var_at d j ii) = rds (margBeta d) (var_at d j ii)).

(** The variables of two factors are apart. *)
Definition apart (d : Driver) (j j' : nat) : Prop :=
  forall t t', (t < vjSz_of d j)%nat -> (t' < vjSz_of d j')%nat ->
    var_at d j t <> var_at d j' t'.

End Construction.

Arguments FactorizedEPRepresentation num : clear implicits.
Arguments FactEPRepresBivarPrec num : clear implicits.
Section ExtraDefs.
Context {num : Type} `{Double num}.
Context {M : Type} `{MaximumValuesService num M}.
Variable stray : num.

Local Abbreviation rds := (rd stray).
Local Abbreviation Driver := (Driver num M).
Local Abbreviation Row := (Row num).
Local Abbreviation Mem := (Mem num M).
Local Abbreviation Exec := (Exec num M).
Local Abbreviation PotentialManager := (PotentialManager num).

Local Open Scope dbl_scope.

(** The moments on s_j of the cavity distribution, summed in row order as
    the first loop does: h = sum (b_ji / pi^c_i) beta^c_i and
    rho = sum b_ji (b_ji / pi^c_i), with pi^c_i = pi_i - pi_ji and
    beta^c_i = beta_i - beta_ji. *)
Definition cavity_moments (d : Driver) (j : nat) : num * num :=
  foldl (fun a ii =>
           let b := rds (bP (row_of d j)) ii in
           let pic := rds (margPi d) (var_at d j ii) - rds (piP (row_of d j)) ii in
           let betac :=
             rds (margBeta d) (var_at d j ii) - rds (betaP (row_of d j)) ii in
           (a.1 + b / pic * betac, a.2 + b * (b / pic)))
        (c_0, c_0) (seq 0 (vjSz_of d j)).

End ExtraDefs.

(** ** More concrete drivers *)

(** A potential of group [g] that answers [ans]. *)
Definition pot_const {num : Type} (g : ArgumentGroup)
    (ans : option (list num)) : EPScalarPotential num :=
  {| getArgumentGroup := g; compMoments := fun _ => ans |}.

(** The representation of [drv_one 1 1 0.5 3 1]: one factor on one
    variable. *)
Definition repr_one : FactorizedEPRepresentation float :=
  {| rep_rows := [ {| vjInd := [0%nat]; bP := [1%float];
                      betaP := [0.5%float]; piP := [1%float] |} ];
     numVariables := 1 |}.

(** The representation of [drv_bivar 3 1]: one factor on two variables and
    one precision variable. *)
Definition repr_bivar : FactEPRepresBivarPrec float :=
  {| rep_base :=
       {| rep_rows := [ {| vjInd := [0%nat; 1%nat]; bP := [1%float; 2%float];
                           betaP := [0.5%float; 0.25%float];
                           piP := [1%float; 2%float] |} ];
          numVariables := 2 |};
     rep_tau := [ {| tauInd := 0; aP := 3%float; cP := 1%float |} ];
     numPrecVars := 1 |}.

(** One univariate factor without variables. *)
Definition drv_empty : Driver float (MaxIndex float) :=
  {| epRepr := [ {| vjInd := []; bP := []; betaP := []; piP := [] |} ];
     epReprPrec := None;
     margBeta := [1%float]; margPi := [3%float]; piMinThres := 0.1%float;
     epMaxPi := None;
     margA := []; margC := []; aMinThres := 0%float; cMinThres := 0%float;
     epMaxA := None; epMaxC := None; buffVec := [] |}.

(** Two univariate factors, factor 0 on variable 0 and factor 1 on
    variable 1, without max-pi service. *)
Definition drv_apart : Driver float (MaxIndex float) :=
  {| epRepr :=
       [ {| vjInd := [0%nat]; bP := [1%float]; betaP := [0.5%float];
            piP := [1%float] |};
         {| vjInd := [1%nat]; bP := [2%float]; betaP := [0.25%float];
            piP := [2%float] |} ];
     epReprPrec := None;
     margBeta := [1%float; 1%float]; margPi := [3%float; 5%float];
     piMinThres := 0.1%float; epMaxPi := None;
     margA := []; margC := []; aMinThres := 0%float; cMinThres := 0%float;
     epMaxA := None; epMaxC := None; buffVec := [] |}.

(** * Proofs *)

(** ** Arithmetic *)

(** The comparison of IEEE floats is antisymmetric, NaN apart. *)
Lemma SFcompare_antisym (x y : spec_float) :
  SFcompare y x = option_map CompOpp (SFcompare x y).
Proof.
  destruct x as [sx|sx| |sx mx ex], y as [sy|sy| |sy my ey]; cbn;
    try reflexivity;
    try (destruct sx; reflexivity); try (destruct sy; reflexivity);
    try (destruct sx, sy; reflexivity).
  destruct sx, sy; cbn; try reflexivity;
    rewrite (Z.compare_antisym ex ey);
    destruct (ex ?= ey)%Z; cbn; try reflexivity;
    fold (Pos.compare my mx); fold (Pos.compare mx my);
    rewrite (Pos.compare_antisym mx my);
    destruct (mx ?= my)%positive; reflexivity.
Qed.

#[export] Instance binary64_order : OrderLaws float.
Proof.
  split; intros a b; cbn; rewrite ltb_spec, leb_spec; unfold SFltb, SFleb;
    rewrite (SFcompare_antisym (Prim2SF a) (Prim2SF b));
    destruct (SFcompare (Prim2SF a) (Prim2SF b)) as [[]|]; cbn; congruence.
Qed.

#[export] Instance rational_order : OrderLaws Qc.
Proof.
  split; intros a b; cbn; unfold Qc_leb, Qc_ltb.
  - destruct (a ?= b)%Qc eqn:E; try discriminate; intros _;
      destruct (b ?= a)%Qc eqn:E'; try reflexivity;
      apply Qclt_alt in E'; exfalso; apply (Qclt_not_le _ _ E');
      apply Qcle_alt; rewrite E; discriminate.
  - intros E. destruct (a ?= b)%Qc eqn:E1; try discriminate.
    apply Qclt_alt in E1.
    destruct (b ?= a)%Qc eqn:E'; try reflexivity;
      exfalso; apply (Qclt_not_le _ _ E1); apply Qcle_alt; rewrite E';
      discriminate.
Qed.

#[export] Instance rational_exact : ExactArith Qc.
Proof.
  unfold ExactArith. cbn.
  replace (Q2Qc 0) with 0%Qc by (apply Qc_is_canon; reflexivity).
  replace (Q2Qc 1) with 1%Qc by (apply Qc_is_canon; reflexivity).
  constructor; intros; try ring.
Qed.

(** ** Running computations *)

Section Proofs.

Context {num : Type} `{Double num}.
Context {M : Type} `{MaximumValuesService num M}.
Variable stray : num.

Local Abbreviation rds := (rd stray).
Local Abbreviation Driver := (Driver num M).
Local Abbreviation Row := (Row num).
Local Abbreviation Mem := (Mem num M).
Local Abbreviation Exec := (Exec num M).
Local Abbreviation PotentialManager := (PotentialManager num).

Lemma for_loop_triple {A} (body : nat -> A -> Exec A)
    (I : nat -> A -> Mem -> Prop) (E : Outcome -> Mem -> Prop) (n : nat) :
  (forall ii a, ii < n -> triple (I ii a) (body ii a) (I (S ii)) E) ->
  forall a, triple (I 0%nat a) (for_loop body 0 n a) (I n) E.
Proof.
  intros Hbody.
  assert (G : forall count ii a, ii + count = n ->
            triple (I ii a) (for_loop body ii count a) (I n) E).
  { induction count as [|count IH]; intros ii a Hn m Hm; simpl.
    - replace n with ii by lia. exact Hm.
    - unfold bind. pose proof (Hbody ii a ltac:(lia) m Hm) as Hb.
      destruct (body ii a m) as [m' [a'|o]]; [|exact Hb].
      apply (IH (S ii) a' ltac:(lia) m' Hb). }
  intros a. apply G. lia.
Qed.

Lemma rd_insert_eq (b : list num) (p : nat) (v : num) :
  p < length b -> rds (<[p := v]> b) p = v.
Proof. intros Hp. unfold rd. by rewrite list_lookup_insert_eq. Qed.

Lemma rd_insert_ne (b : list num) (p q : nat) (v : num) :
  p <> q -> rds (<[p := v]> b) q = rds b q.
Proof. intros Hp. unfold rd. by rewrite list_lookup_insert_ne. Qed.

Lemma row_of_set_buffVec (d : Driver) b j : row_of (set_buffVec d b) j = row_of d j.
Proof. reflexivity. Qed.

Lemma set_buffVec_twice (d : Driver) b b' :
  set_buffVec (set_buffVec d b) b' = set_buffVec d b'.
Proof. reflexivity. Qed.

Lemma with_drv_mem_of (d : Driver) b b' dl e c :
  with_drv (mem_of d b dl e c) (set_buffVec d b') = mem_of d b' dl e c.
Proof. reflexivity. Qed.

Lemma tauRow_of_set_buffVec (d : Driver) b j :
  tauRow_of stray (set_buffVec d b) j = tauRow_of stray d j.
Proof. reflexivity. Qed.

Ltac norm_mem :=
  repeat first [ rewrite row_of_set_buffVec | rewrite tauRow_of_set_buffVec
               | rewrite set_buffVec_twice | rewrite with_drv_mem_of ].

Ltac rd_simpl :=
  unfold cPiP, cBetaP, mprPiP, mprBetaP in *;
  repeat first [ rewrite rd_insert_eq by (rewrite ?length_insert; lia)
               | rewrite rd_insert_ne by lia ].

Ltac run_step :=
  unfold bind, load_mPiP, load_piP, load_mBetaP, load_betaP, load_buf,
    store_buf, load_aP, load_cP, gets, modify, exit, ret, when, store_effDamp;
  cbn -[cPiP cBetaP mprPiP mprBetaP tauRow_of]; norm_mem.

(* holds after stores at position ii of some regions *)
Ltac holds_step ii :=
  let t := fresh "t" in let Ht := fresh "Ht" in
  intros t Ht; destruct (decide (t = ii)) as [->|?];
  [ rd_simpl; try reflexivity
  | rd_simpl;
    match goal with
    | Hh : holds _ _ _ _ _ _ |- _ => rewrite <- (Hh t) by lia; rd_simpl; reflexivity
    end ].

Lemma cavity_body_triple (d : Driver) (j ii : nat) (a : CavAcc num) :
  ii < vjSz_of d j ->
  triple (I1 stray d j ii a)
    (cavity_body stray j (vjSz_of d j) (vjInd (row_of d j)) (bP (row_of d j)) (thres2_of d) ii a)
    (I1 stray d j (S ii)) (E1 stray d j).
Proof.
  intros Hii m (b & -> & Hlen & -> & Hpi & Hbeta & Hok).
  unfold cavity_body. run_step.
  fold (var_at d j ii). fold (pi_at stray d j ii). fold (mPi_at stray d j ii). fold (cavPi stray d j ii).
  destruct (cavPi stray d j ii <? thres2_of d)%D eqn:Ec.
  - split; [reflexivity|]. split; [eexists; reflexivity|].
    apply existsb_exists. exists ii. split; [apply in_seq; lia| exact Ec].
  - cbn. norm_mem.
    fold (beta_at stray d j ii). fold (mBeta_at stray d j ii). fold (cavBeta stray d j ii).
    fold (b_at stray d j ii).
    eexists. split; [reflexivity|].
    split; [rewrite !length_insert; exact Hlen|].
    split; [reflexivity|].
    split; [|split].
    + intros t Ht. destruct (decide (t = ii)) as [->|Hne].
      * rd_simpl. reflexivity.
      * specialize (Hpi t ltac:(lia)). rd_simpl. exact Hpi.
    + intros t Ht. destruct (decide (t = ii)) as [->|Hne].
      * rd_simpl. reflexivity.
      * specialize (Hbeta t ltac:(lia)). rd_simpl. exact Hbeta.
    + intros t Ht. destruct (decide (t = ii)) as [->|Hne]; [exact Ec|apply Hok; lia].
Qed.

Lemma existsb_seq_false (f : nat -> bool) (n : nat) :
  (forall t, t < n -> f t = false) -> existsb f (seq 0 n) = false.
Proof.
  intros Hf. destruct (existsb f (seq 0 n)) eqn:E; [|reflexivity].
  apply existsb_exists in E as (t & Ht & Hft). apply in_seq in Ht.
  rewrite Hf in Hft by lia. discriminate.
Qed.

Lemma cavity_loop_triple (d : Driver) (j : nat) (b0 : list num) :
  4 * vjSz_of d j <= length b0 ->
  triple (eq (mem_of d b0 None None []))
    (for_loop (cavity_body stray j (vjSz_of d j) (vjInd (row_of d j))
                 (bP (row_of d j)) (thres2_of d)) 0 (vjSz_of d j)
       {| l_cH := c_0; l_cRho := c_0; l_mH := c_0; l_mRho := c_0 |})
    (fun a m => I1 stray d j (vjSz_of d j) a m /\ cavity_pi_invalid stray d j = false)
    (E1 stray d j).
Proof.
  intros Hlen m <-.
  pose proof (for_loop_triple (cavity_body stray j (vjSz_of d j) (vjInd (row_of d j))
                 (bP (row_of d j)) (thres2_of d)) (I1 stray d j) (E1 stray d j) (vjSz_of d j)
                (fun ii a Hii => cavity_body_triple d j ii a Hii)
                {| l_cH := c_0; l_cRho := c_0; l_mH := c_0; l_mRho := c_0 |}
                (mem_of d b0 None None [])) as Hl.
  lapply Hl.
  - clear Hl. intros Hl.
    destruct (for_loop _ _ _ _ _) as [m' [a'|o]]; [|exact Hl].
    split; [exact Hl|].
    destruct Hl as (b & _ & _ & _ & _ & _ & Hok).
    apply existsb_seq_false. exact Hok.
  - exists b0. repeat split; try assumption; intros t Ht; lia.
Qed.

Lemma damping_upto_inl (d : Driver) (j : nat) res dampFact s (ii k : nat) :
  damping_upto stray d j res dampFact ii = inl s ->
  damping_upto stray d j res dampFact (ii + k) = inl s.
Proof.
  intros Hs. induction k as [|k IH].
  - by rewrite Nat.add_0_r.
  - rewrite Nat.add_succ_r. simpl. by rewrite IH.
Qed.

Lemma damping_upto_S (d : Driver) (j : nat) res dampFact ii dc :
  damping_upto stray d j res dampFact ii = inr dc ->
  damping_upto stray d j res dampFact (S ii) = clamp_step stray d j res ii dc.
Proof. intros E. simpl. by rewrite E. Qed.

Lemma undamped_body_triple (d : Driver) (j : nat) (res : list num) (dampFact : num)
    (effDamp : bool) calls (ii : nat) (a : UpdAcc num) :
  ii < vjSz_of d j ->
  triple (I2 stray d j res dampFact calls ii a)
    (undamped_body stray j (vjSz_of d j) (vjInd (row_of d j)) (bP (row_of d j))
       (rds res 0) (rds res 1) effDamp ii a)
    (I2 stray d j res dampFact calls (S ii)) (E2 stray d j res dampFact effDamp calls).
Proof.
  intros Hii m (b & -> & Hlen & Hpi & Hbeta & Hpr & Hprb & Hd & Hi & Hp).
  unfold undamped_body. run_step.
  rewrite (Hpi ii) by lia. rewrite (Hbeta ii) by lia.
  fold (b_at stray d j ii). fold (und stray d j res ii).
  assert (Hexit : forall s, clamp_step stray d j res ii (l_dampFact a) = inl s ->
            damping_upto stray d j res dampFact (vjSz_of d j) = inl s).
  { intros s Hs. replace (vjSz_of d j) with (S ii + (vjSz_of d j - S ii))%nat by lia.
    apply damping_upto_inl. rewrite (damping_upto_S _ _ _ _ _ _ Hd). exact Hs. }
  pose proof (damping_upto_S _ _ _ _ _ _ Hd) as Hstep.
  pose proof (eq_refl : prPi_at stray d j res ii = prPi_at stray d j res ii) as HprPi.
  pose proof (eq_refl : prBeta_at stray d j res ii = prBeta_at stray d j res ii) as HprBeta.
  unfold prPi_at in HprPi at 2. unfold prBeta_at in HprBeta at 2.
  assert (Hcs : clamp_step stray d j res ii (l_dampFact a) =
                clamp_step stray d j res ii (l_dampFact a)) by reflexivity.
  unfold clamp_step in Hcs at 2. unfold decreases, one_minus_eta in Hcs.
  rewrite HprPi in Hcs.
  destruct (und stray d j res ii) as [[prPi prBeta]|] eqn:Eu.
  2:{ exists updNumericalError, b. split; [reflexivity|]. split; [by apply Hexit|].
      destruct effDamp; reflexivity. }
  cbn in HprPi, HprBeta. subst. cbn [fst snd] in Hcs.
  run_step.
  fold (var_at d j ii). fold (pi_at stray d j ii). fold (mPi_at stray d j ii).
  set (b' := <[_ := prBeta_at stray d j res ii]> (<[_ := prPi_at stray d j res ii]> b)).
  assert (Hcont : forall dc, clamp_step stray d j res ii (l_dampFact a) = inr dc ->
            I2 stray d j res dampFact calls (S ii)
              {| l_dampFact := dc; l_i := Some (var_at d j ii);
                 l_prPi := prPi_at stray d j res ii |}
              (mem_of d b' None None calls)).
  { intros dc Hdc. exists b'. split; [reflexivity|]. subst b'.
    split; [rewrite !length_insert; exact Hlen|].
    split; [intros t Ht; rd_simpl; rewrite <- (Hpi t) by lia; rd_simpl; reflexivity|].
    split; [intros t Ht; rd_simpl; rewrite <- (Hbeta t) by lia; rd_simpl; reflexivity|].
    split; [holds_step ii|]. split; [holds_step ii|].
    split; [rewrite Hstep; exact Hdc|]. split; reflexivity. }
  assert (Hquit : forall s b'', clamp_step stray d j res ii (l_dampFact a) = inl s ->
            E2 stray d j res dampFact effDamp calls (Returned s)
               (mem_of d b'' None (skipped_effDamp effDamp s) calls)).
  { intros s b'' Hs. exists s, b''. split; [reflexivity|]. split; [by apply Hexit|reflexivity]. }
  clearbody b'. clear Hstep Hexit.
  destruct (epMaxPi d) as [mx|]; [|by apply Hcont].
  destruct (prPi_at stray d j res ii <? pi_at stray d j ii)%D; [|by apply Hcont].
  unfold selectiveDamping. run_step.
  destruct (getMaxValue mx (var_at d j ii) <=? c_0)%D.
  { apply (Hquit updNumericalError b') in Hcs. destruct effDamp; exact Hcs. }
  destruct (_ <=? c_002)%D.
  { apply (Hquit updCavCondSkipped b') in Hcs. destruct effDamp; exact Hcs. }
  by apply Hcont.
Qed.

Lemma undamped_loop_triple (d : Driver) (j : nat) (res : list num) (dampFact : num)
    (effDamp : bool) calls (a0 : UpdAcc num) :
  l_dampFact a0 = dampFact -> l_i a0 = None -> l_prPi a0 = stray ->
  triple (I2 stray d j res dampFact calls 0 a0)
    (for_loop (undamped_body stray j (vjSz_of d j) (vjInd (row_of d j))
                 (bP (row_of d j)) (rds res 0) (rds res 1) effDamp)
       0 (vjSz_of d j) a0)
    (I2 stray d j res dampFact calls (vjSz_of d j))
    (E2 stray d j res dampFact effDamp calls).
Proof.
  intros _ _ _.
  apply (for_loop_triple _ (I2 stray d j res dampFact calls)).
  intros ii a Hii. by apply undamped_body_triple.
Qed.

Lemma damped_body_triple (d : Driver) (j : nat) (res : list num) (deff : num)
    eff calls (ii : nat) (u : unit) :
  ii < vjSz_of d j ->
  triple (I3 stray d j res deff eff calls ii u)
    (damped_body stray j (vjSz_of d j) deff (thres2_of d) ii u)
    (I3 stray d j res deff eff calls (S ii)) (E3 stray d j res deff eff calls).
Proof.
  intros Hii m (b & -> & Hlen & Hpi & Hbeta & Hpr & Hprb & Hmp & Hmb & Hnp & Hnb & Hok).
  unfold damped_body. run_step.
  rewrite (Hpi ii), (Hbeta ii), (Hpr ii), (Hprb ii) by lia.
  fold (pi_at stray d j ii). fold (beta_at stray d j ii).
  fold (newPi stray d j res deff ii). fold (newBeta stray d j res deff ii).
  fold (newMargPi stray d j res deff ii). fold (newMargBeta stray d j res deff ii).
  destruct (newMargPi stray d j res deff ii <? thres2_of d)%D eqn:Ec.
  - split; [reflexivity|]. split; [eexists; reflexivity|].
    apply existsb_exists. exists ii. split; [apply in_seq; lia|exact Ec].
  - run_step.
    eexists. split; [reflexivity|].
    split; [rewrite !length_insert; exact Hlen|].
    repeat split.
    + intros t Ht. rd_simpl. rewrite <- (Hpi t) by lia. rd_simpl. reflexivity.
    + intros t Ht. rd_simpl. rewrite <- (Hbeta t) by lia. rd_simpl. reflexivity.
    + intros t Ht. rd_simpl. rewrite <- (Hpr t) by lia. rd_simpl. reflexivity.
    + intros t Ht. rd_simpl. rewrite <- (Hprb t) by lia. rd_simpl. reflexivity.
    + intros t Ht. destruct (decide (t = ii)) as [->|?]; rd_simpl; [reflexivity|].
      rewrite <- (Hmp t) by lia. rd_simpl. reflexivity.
    + intros t Ht. destruct (decide (t = ii)) as [->|?]; rd_simpl; [reflexivity|].
      rewrite <- (Hmb t) by lia. rd_simpl. reflexivity.
    + intros t Ht. destruct (decide (t = ii)) as [->|?]; rd_simpl; [reflexivity|].
      rewrite <- (Hnp t) by lia. rd_simpl. reflexivity.
    + intros t Ht. destruct (decide (t = ii)) as [->|?]; rd_simpl; [reflexivity|].
      rewrite <- (Hnb t) by lia. rd_simpl. reflexivity.
    + intros t Ht. destruct (decide (t = ii)) as [->|?]; [exact Ec|apply Hok; lia].
Qed.

Lemma damped_loop_triple (d : Driver) (j : nat) (res : list num) (deff : num)
    eff calls :
  triple (I3 stray d j res deff eff calls 0 tt)
    (for_loop (damped_body stray j (vjSz_of d j) deff (thres2_of d))
       0 (vjSz_of d j) tt)
    (fun u m => I3 stray d j res deff eff calls (vjSz_of d j) u m /\
                marginals_invalid stray d j res deff = false)
    (E3 stray d j res deff eff calls).
Proof.
  intros m Hm.
  pose proof (for_loop_triple _ (I3 stray d j res deff eff calls) (E3 stray d j res deff eff calls)
                (vjSz_of d j)
                (fun ii a Hii => damped_body_triple d j res deff eff calls ii a Hii)
                tt m Hm) as Hl.
  destruct (for_loop _ _ _ _ _) as [m' [a'|o]]; [|exact Hl].
  split; [exact Hl|].
  destruct Hl as (b & _ & _ & _ & _ & _ & _ & _ & _ & _ & _ & Hok).
  apply existsb_seq_false. exact Hok.
Qed.

Lemma alter_insert_same {A} (f : A -> A) (l : list A) (j : nat) (x : A) :
  alter f j (<[j := x]> l) = <[j := f x]> l.
Proof.
  rewrite (list_insert_alter l j x), list_alter_alter_eq.
  by rewrite (list_insert_alter l j (f x)).
Qed.

Lemma row_of_commit_fun (d : Driver) (j : nat) res deff ii :
  j < length (epRepr d) ->
  row_of (commit_fun stray d j res deff ii) j = commit_row stray d j res deff ii.
Proof.
  intros Hj. unfold row_of, commit_fun. cbn.
  by rewrite list_lookup_insert_eq.
Qed.

Lemma driver_eq (D1 D2 : Driver) :
  epRepr D1 = epRepr D2 -> epReprPrec D1 = epReprPrec D2 ->
  margBeta D1 = margBeta D2 -> margPi D1 = margPi D2 ->
  piMinThres D1 = piMinThres D2 -> epMaxPi D1 = epMaxPi D2 ->
  margA D1 = margA D2 -> margC D1 = margC D2 ->
  aMinThres D1 = aMinThres D2 -> cMinThres D1 = cMinThres D2 ->
  epMaxA D1 = epMaxA D2 -> epMaxC D1 = epMaxC D2 ->
  buffVec D1 = buffVec D2 -> D1 = D2.
Proof. destruct D1, D2; cbn; intros; subst; reflexivity. Qed.

Lemma commit_body_triple (d : Driver) (j : nat) (res : list num) (deff : num)
    eff calls (ii : nat) (a : num * num) :
  j < length (epRepr d) ->
  ii < vjSz_of d j ->
  triple (I4 stray d j res deff eff calls ii a)
    (commit_body stray j (vjSz_of d j) (vjInd (row_of d j)) (bP (row_of d j)) ii a)
    (I4 stray d j res deff eff calls (S ii)) (fun _ _ => False).
Proof.
  intros Hj Hii m (b & -> & Hlen & Hmp & Hmb & Hnp & Hnb & ->).
  unfold I4.
  assert (HS : commit_fun stray d j res deff (S ii) =
               commit_fun stray d j res deff (S ii)) by reflexivity.
  unfold commit_fun at 2 in HS. cbn [scatter commit_maxPi] in HS.
  pose proof (row_of_commit_fun d j res deff (S ii) Hj) as Hrow.
  remember (commit_fun stray d j res deff (S ii)) as D' eqn:ED'. clear ED'.
  assert (HD : commit_fun stray d j res deff ii =
               commit_fun stray d j res deff ii) by reflexivity.
  unfold commit_fun at 2 in HD.
  remember (commit_fun stray d j res deff ii) as D eqn:ED. clear ED.
  subst D.
  unfold commit_body, store_betaP, store_piP, store_mBetaP, store_mPiP.
  unfold bind, load_piP, load_buf, gets, modify, ret, with_drv, mem_of.
  cbn -[cPiP cBetaP mprPiP mprBetaP commit_row].
  rewrite (Hmp ii), (Hmb ii), (Hnp ii), (Hnb ii) by lia.
  rewrite !alter_insert_same.
  fold (var_at d j ii). fold (b_at stray d j ii).
  assert (Hacc : mpr_acc stray d j res deff (S ii) =
    (((mpr_acc stray d j res deff ii).1 +
       b_at stray d j ii / newMargPi stray d j res deff ii *
       newMargBeta stray d j res deff ii)%D,
     ((mpr_acc stray d j res deff ii).2 +
       b_at stray d j ii *
       (b_at stray d j ii / newMargPi stray d j res deff ii))%D)) by reflexivity.
  rewrite <- Hacc. clear Hacc.
  destruct (epMaxPi d) as [mx|] eqn:Emx;
    cbn -[cPiP cBetaP mprPiP mprBetaP commit_row mpr_acc].
  - exists b. split; [|by repeat split].
    unfold mem_of. f_equal.
    apply driver_eq; rewrite HS; cbn -[commit_row mpr_acc]; try reflexivity.
    unfold row_of. cbn -[commit_row].
    rewrite list_lookup_insert_eq by exact Hj. reflexivity.
  - exists b. split; [|by repeat split].
    unfold mem_of. f_equal.
    apply driver_eq; rewrite HS; cbn -[commit_row mpr_acc]; reflexivity.
Qed.

Lemma commit_fun_0 (d : Driver) (j : nat) res deff b :
  j < length (epRepr d) ->
  set_buffVec (commit_fun stray d j res deff 0) b = set_buffVec d b.
Proof.
  intros Hj. apply driver_eq; cbn; try reflexivity.
  - apply list_insert_id. unfold commit_row, row_of. cbn.
    destruct (epRepr d !! j) as [r|] eqn:E.
    + by destruct r.
    + apply lookup_ge_None in E. lia.
  - by destruct (epMaxPi d).
Qed.

Lemma commit_loop_triple (d : Driver) (j : nat) (res : list num) (deff : num)
    eff calls :
  j < length (epRepr d) ->
  triple (I4 stray d j res deff eff calls 0 (c_0, c_0))
    (for_loop (commit_body stray j (vjSz_of d j) (vjInd (row_of d j))
                 (bP (row_of d j))) 0 (vjSz_of d j) (c_0, c_0))
    (I4 stray d j res deff eff calls (vjSz_of d j)) (fun _ _ => False).
Proof.
  intros Hj.
  apply (for_loop_triple _ (I4 stray d j res deff eff calls)).
  intros ii a Hii. by apply commit_body_triple.
Qed.


Lemma buf0_length (d : Driver) n : n <= length (buf0 stray d n).
Proof.
  unfold buf0. destruct (Nat.ltb_spec (length (buffVec d)) n).
  - by rewrite length_replicate.
  - assumption.
Qed.

Lemma ensure_buffVec_run (d : Driver) (n : nat) :
  ensure_buffVec stray n (enter d) = (mem_of d (buf0 stray d n) None None [], inl tt).
Proof.
  unfold ensure_buffVec, modify, buf0, enter, with_drv, mem_of.
  cbn [drv out_delta out_effDamp oracle_calls].
  destruct (Nat.ltb _ _); [reflexivity|]. by destruct d.
Qed.

Lemma bind_run {A B} (c : Exec A) (k : A -> Exec B) (m : Mem) :
  bind c k m = match c m with
               | (m', inl a) => k a m'
               | (m', inr o) => (m', inr o)
               end.
Proof. reflexivity. Qed.

Lemma cavity_tau_run (d : Driver) (j : nat) b calls :
  cavity_tau stray j (tauInd (tauRow_of stray d j)) (mem_of d b None None calls) =
  (mem_of d b None None calls,
   if ((cavA stray d j <? c_half * aMinThres d)
       || (cavC stray d j <? c_half * cMinThres d))%D
   then inr (Returned updCavityInvalid)
   else inl (cavA stray d j, cavC stray d j)).
Proof.
  unfold cavity_tau, cavA, cavC. run_step.
  destruct (_ <? c_half * aMinThres d)%D; [reflexivity|].
  cbn. destruct (_ <? c_half * cMinThres d)%D; reflexivity.
Qed.

Lemma call_compMoments_run (epPots : PotentialManager) (d : Driver) (j : nat) b :
  group_matches epPots d j = true ->
  call_compMoments epPots j (oracle_input stray d j) (mem_of d b None None []) =
  (mem_of d b None None [(j, oracle_input stray d j)],
   match oracle_answer stray epPots d j with
   | Some res => inl res
   | None => inr (Returned updNumericalError)
   end).
Proof.
  unfold group_matches, call_compMoments, oracle_answer. intros Hg.
  destruct (getPot epPots j) as [pot|]; [|discriminate]. cbn.
  destruct (compMoments pot (oracle_input stray d j)); reflexivity.
Qed.

Lemma bivar_clamp_run (d : Driver) (j : nat) (res : list num) (dampFact : num)
    (effDamp : bool) calls (upd : UpdAcc num) (m : Mem) :
  hasBVPrec d = true ->
  I2 stray d j res dampFact calls (vjSz_of d j) upd m ->
  exists b,
    bivar_clamp stray j (vjSz_of d j) (tauInd (tauRow_of stray d j))
      (rds res 2) (rds res 3) (cavA stray d j) (cavC stray d j) effDamp upd m =
    match bivar_clamp_fun stray d j res (l_dampFact upd) with
    | inl s => (mem_of d b None (skipped_effDamp effDamp s) calls,
                inr (Returned s))
    | inr dc => (mem_of d b None None calls, inl dc)
    end /\ m = mem_of d b None None calls.
Proof.
  intros Ebv (b & -> & Hlen & Hpi & Hbeta & Hpr & Hprb & Hd & Hi & Hp).
  exists b. split; [|reflexivity].
  unfold bivar_clamp, bivar_clamp_fun, bivar_temp, last_mPi, last_prPi.
  rewrite Ebv, Hi, Hp. run_step.
  destruct (epMaxA d) as [mxA|]; [|reflexivity].
  destruct (rds res 2 - cavA stray d j <? aP (tauRow_of stray d j))%D; [|reflexivity].
  fold (pi_at stray d j (vjSz_of d j)).
  destruct (vjSz_of d j) as [|t]; run_step.
  - destruct (_ <=? c_002)%D; [|reflexivity]. destruct effDamp; reflexivity.
  - fold (mPi_at stray d j t).
    destruct (_ <=? c_002)%D; [|reflexivity]. destruct effDamp; reflexivity.
Qed.


Lemma tail_run (d : Driver) (j : nat) (dampFact : num) (delta effDamp : bool)
    (res : list num) (b : list num) (k : nat) (cAC : num * num)
    (calls : list (nat * list num)) :
  j < length (epRepr d) ->
  4 * vjSz_of d j <= length b ->
  holds stray b (cPiP (vjSz_of d j)) (cavPi stray d j) 0 (vjSz_of d j) ->
  holds stray b (cBetaP (vjSz_of d j)) (cavBeta stray d j) 0 (vjSz_of d j) ->
  (hasBVPrec d = true ->
   k = tauInd (tauRow_of stray d j) /\ cAC = (cavA stray d j, cavC stray d j)) ->
  result_of (finish
    (bind (for_loop (undamped_body stray j (vjSz_of d j) (vjInd (row_of d j))
                       (bP (row_of d j)) (rds res 0) (rds res 1) effDamp)
             0 (vjSz_of d j)
             {| l_dampFact := dampFact; l_i := None; l_prPi := stray |})
       (fun upd =>
        bind (if hasBVPrec d
              then bivar_clamp stray j (vjSz_of d j) k (rds res 2) (rds res 3)
                     cAC.1 cAC.2 effDamp upd
              else ret (l_dampFact upd))
          (fun dampFact0 =>
           bind (when effDamp (store_effDamp dampFact0))
             (fun _ =>
              bind (for_loop (damped_body stray j (vjSz_of d j) dampFact0
                                (thres2_of d)) 0 (vjSz_of d j) tt)
                (fun _ =>
                 bind (for_loop (commit_body stray j (vjSz_of d j)
                                   (vjInd (row_of d j)) (bP (row_of d j)))
                         0 (vjSz_of d j) (c_0, c_0))
                   (fun mpr =>
                    bind (when delta
                            (store_delta
                               (std_max
                                  (MAXRELDIFF
                                     (l_mH (cav_acc stray d j (vjSz_of d j)))
                                     mpr.1)
                                  (MAXRELDIFF
                                     (sqrt (l_mRho (cav_acc stray d j (vjSz_of d j))))
                                     (sqrt mpr.2)))))
                      (fun _ => ret updSuccess))))))
       (mem_of d b None None calls))) =
  match eff_damping stray d j res dampFact with
  | inl s => failed d (Returned s) (skipped_effDamp effDamp s) calls
  | inr deff =>
      let eff := if effDamp then Some deff else None in
      if marginals_invalid stray d j res deff
      then failed d (Returned updMarginalsInvalid) eff calls
      else
        {| r_outcome := Returned updSuccess;
           r_driver := commit_fun stray d j res deff (vjSz_of d j);
           r_delta := if delta then Some (delta_fun stray d j res deff) else None;
           r_effDamp := eff;
           r_calls := calls |}
  end.
Proof.
  intros Hj Hlen Hpi Hbeta Hbv.
  rewrite bind_run.
  pose proof (undamped_loop_triple d j res dampFact effDamp calls
                {| l_dampFact := dampFact; l_i := None; l_prPi := stray |}
                eq_refl eq_refl eq_refl (mem_of d b None None calls)) as H2.
  lapply H2; [clear H2; intros H2|].
  2:{ exists b. repeat split; try assumption; intros t Ht; lia. }
  unfold eff_damping.
  destruct (for_loop _ _ _ _ _) as [m2 [upd|o]].
  2:{ destruct H2 as (s & b' & -> & -> & ->). reflexivity. }
  assert (H2' := H2).
  destruct H2' as (b2 & -> & Hlen2 & Hpi2 & Hbeta2 & Hpr2 & Hprb2 & Hd2 & _ & _).
  rewrite Hd2. rewrite bind_run.
  assert (Hclamp :
    exists b3,
    (if hasBVPrec d
     then bivar_clamp stray j (vjSz_of d j) k (rds res 2) (rds res 3)
            cAC.1 cAC.2 effDamp upd
     else ret (l_dampFact upd)) (mem_of d b2 None None calls) =
    match bivar_clamp_fun stray d j res (l_dampFact upd) with
    | inl s => (mem_of d b3 None (skipped_effDamp effDamp s) calls,
                inr (Returned s))
    | inr dc => (mem_of d b2 None None calls, inl dc)
    end).
  { destruct (hasBVPrec d) eqn:Ebv.
    - destruct (Hbv eq_refl) as [-> ->].
      destruct (bivar_clamp_run d j res dampFact effDamp calls upd _ Ebv H2)
        as (b3 & Hrun & Hm).
      exists b3. cbn [fst snd]. rewrite Hrun.
      destruct (bivar_clamp_fun _ _ _ _ _); [reflexivity|].
      by rewrite Hm.
    - exists b2. unfold bivar_clamp_fun. by rewrite Ebv. }
  destruct Hclamp as (b3 & ->).
  destruct (bivar_clamp_fun stray d j res (l_dampFact upd)) as [s|deff];
    [reflexivity|].
  rewrite bind_run.
  assert (Hw : when effDamp (store_effDamp deff) (mem_of d b2 None None calls) =
               (mem_of d b2 None (if effDamp then Some deff else None) calls, inl tt))
    by (destruct effDamp; reflexivity).
  rewrite Hw. clear Hw.
  set (eff := if effDamp then Some deff else None).
  rewrite bind_run.
  pose proof (damped_loop_triple d j res deff eff calls
                (mem_of d b2 None eff calls)) as H3.
  lapply H3; [clear H3; intros H3|].
  2:{ exists b2. repeat split; try assumption; intros t Ht; lia. }
  destruct (for_loop _ _ _ _ _) as [m3 [[]|o]].
  2:{ destruct H3 as (-> & (b' & ->) & ->). reflexivity. }
  destruct H3 as ((b4 & -> & Hlen4 & _ & _ & _ & _ & Hmp & Hmb & Hnp & Hnb & _) & ->).
  rewrite bind_run.
  pose proof (commit_loop_triple d j res deff eff calls Hj
                (mem_of d b4 None eff calls)) as H4.
  lapply H4; [clear H4; intros H4|].
  2:{ exists b4. unfold mem_of. rewrite commit_fun_0 by exact Hj.
      by repeat split. }
  destruct (for_loop _ _ _ _ _) as [m4 [mpr|o]]; [|destruct H4].
  destruct H4 as (b5 & -> & _ & _ & _ & _ & _ & ->).
  destruct delta; reflexivity.
Qed.

Theorem sequentialUpdate_refines (epPots : PotentialManager) (d : Driver)
    (j : nat) (dampFact : num) (delta effDamp : bool) :
  result_of (sequentialUpdate stray epPots d j dampFact delta effDamp) =
  sequentialUpdate_fun stray epPots d j dampFact delta effDamp.
Proof.
  unfold sequentialUpdate, sequentialUpdate_fun, sequentialUpdate_body.
  rewrite bind_run. cbn [gets enter drv].
  rewrite bind_run. cbn [gets enter drv].
  rewrite bind_run. cbn [gets enter drv].
  rewrite bind_run. unfold entry_ok.
  destruct (group_matches epPots d j) eqn:Eg; cbn [MYASS ret exit negb andb];
    [|reflexivity].
  destruct ((dampFact <? c_0)%D || (c_1 <=? dampFact)%D) eqn:Ed;
    cbn [exit negb andb]; [reflexivity|].
  rewrite bind_run. unfold accessRow at 1. cbn [enter drv].
  destruct (epRepr d !! j) as [r|] eqn:Er.
  2:{ rewrite bool_decide_eq_false_2 by (intros [? ?]; discriminate). reflexivity. }
  rewrite bool_decide_eq_true_2 by eauto.
  assert (Hr : r = row_of d j) by (unfold row_of; by rewrite Er).
  assert (Hj : j < length (epRepr d)) by (by eapply lookup_lt_Some).
  subst r. fold (vjSz_of d j). fold (thres2_of d).
  rewrite bind_run.
  assert (Hk : (exists k,
            (if hasBVPrec d then accessTauRow j else ret 0%nat) (enter d) =
              (enter d, inl k) /\
            (hasBVPrec d = true -> k = tauInd (tauRow_of stray d j)) /\
            (negb (hasBVPrec d)
             || bool_decide (is_Some (epReprPrec d ≫= (.!! j)))) = true)
          \/ ((if hasBVPrec d then accessTauRow j else ret 0%nat) (enter d) =
                (enter d, inr Aborted) /\
              (negb (hasBVPrec d)
               || bool_decide (is_Some (epReprPrec d ≫= (.!! j)))) = false)).
  { destruct (hasBVPrec d) eqn:Ebv; [|left; exists 0%nat; by repeat split].
    unfold accessTauRow, tauRow_of. cbn [enter drv negb orb].
    destruct (epReprPrec d ≫= (.!! j)) as [t|] eqn:Et.
    - left. exists (tauInd t). by repeat split.
    - right. split; [reflexivity|].
      apply bool_decide_eq_false_2. intros [? ?]; discriminate. }
  destruct Hk as [(k & -> & Hk & ->)|(-> & ->)]; [|reflexivity].
  cbn [andb negb].
  rewrite bind_run, ensure_buffVec_run. rewrite bind_run.
  pose proof (cavity_loop_triple d j (buf0 stray d (4 * vjSz_of d j))
                (buf0_length d _) _ eq_refl) as H1.
  unfold cavity_invalid.
  destruct (for_loop _ _ _ _ _) as [m1 [cav|o]].
  2:{ destruct H1 as (-> & (b' & ->) & ->). reflexivity. }
  destruct H1 as ((b1 & -> & Hlen1 & -> & Hpi1 & Hbeta1 & _) & ->).
  cbn [orb]. rewrite bind_run.
  assert (Htau : exists cAC,
    (if hasBVPrec d then cavity_tau stray j k else ret (stray, stray))
      (mem_of d b1 None None []) =
    (mem_of d b1 None None [],
     if cavity_tau_invalid stray d j then inr (Returned updCavityInvalid)
     else inl cAC) /\
    (hasBVPrec d = true -> cAC = (cavA stray d j, cavC stray d j))).
  { unfold cavity_tau_invalid. destruct (hasBVPrec d) eqn:Ebv.
    - exists (cavA stray d j, cavC stray d j). split; [|done].
      rewrite (Hk eq_refl), cavity_tau_run. reflexivity.
    - exists (stray, stray). split; [reflexivity|discriminate]. }
  destruct Htau as (cAC & -> & HcAC).
  destruct (cavity_tau_invalid stray d j); [reflexivity|].
  rewrite bind_run.
  assert (Hinp : (if hasBVPrec d
                  then [l_cH (cav_acc stray d j (vjSz_of d j));
                        l_cRho (cav_acc stray d j (vjSz_of d j)); cAC.1; cAC.2]
                  else [l_cH (cav_acc stray d j (vjSz_of d j));
                        l_cRho (cav_acc stray d j (vjSz_of d j))]) =
                 oracle_input stray d j).
  { unfold oracle_input. destruct (hasBVPrec d); [|reflexivity].
    by rewrite (HcAC eq_refl). }
  rewrite Hinp, (call_compMoments_run epPots d j b1 Eg).
  destruct (oracle_answer stray epPots d j) as [res|]; [|reflexivity].
  etransitivity.
  { apply (tail_run d j dampFact delta effDamp res b1 k cAC
             [(j, oracle_input stray d j)] Hj Hlen1 Hpi1 Hbeta1).
    intros Ebv. split; [by apply Hk|by apply HcAC]. }
  reflexivity.
Qed.

End Proofs.

(** ** What a call leaves and returns *)

Section Outcomes.

Context {num : Type} `{Double num}.
Context {M : Type} `{MaximumValuesService num M}.
Variable stray : num.

Local Abbreviation rds := (rd stray).
Local Abbreviation Driver := (Driver num M).
Local Abbreviation Row := (Row num).
Local Abbreviation Mem := (Mem num M).
Local Abbreviation Exec := (Exec num M).
Local Abbreviation PotentialManager := (PotentialManager num).

Local Open Scope dbl_scope.

(** What [sequentialUpdate] leaves and returns, read off the functional
    description. *)
Lemma outcome_refines epPots (d : Driver) j dampFact delta effDamp :
  (sequentialUpdate stray epPots d j dampFact delta effDamp).2 =
  r_outcome (sequentialUpdate_fun stray epPots d j dampFact delta effDamp).
Proof. by rewrite <- sequentialUpdate_refines. Qed.

Lemma driver_refines epPots (d : Driver) j dampFact delta effDamp :
  observable (drv (sequentialUpdate stray epPots d j dampFact delta effDamp).1) =
  r_driver (sequentialUpdate_fun stray epPots d j dampFact delta effDamp).
Proof. by rewrite <- sequentialUpdate_refines. Qed.

Lemma effDamp_refines epPots (d : Driver) j dampFact delta effDamp :
  out_effDamp (sequentialUpdate stray epPots d j dampFact delta effDamp).1 =
  r_effDamp (sequentialUpdate_fun stray epPots d j dampFact delta effDamp).
Proof. by rewrite <- sequentialUpdate_refines. Qed.

Lemma delta_refines epPots (d : Driver) j dampFact delta effDamp :
  out_delta (sequentialUpdate stray epPots d j dampFact delta effDamp).1 =
  r_delta (sequentialUpdate_fun stray epPots d j dampFact delta effDamp).
Proof. by rewrite <- sequentialUpdate_refines. Qed.

Lemma calls_refines epPots (d : Driver) j dampFact delta effDamp :
  oracle_calls (sequentialUpdate stray epPots d j dampFact delta effDamp).1 =
  r_calls (sequentialUpdate_fun stray epPots d j dampFact delta effDamp).
Proof. by rewrite <- sequentialUpdate_refines. Qed.

Lemma returns_inv epPots (d : Driver) j dampFact delta effDamp s :
  (sequentialUpdate stray epPots d j dampFact delta effDamp).2 = Returned s ->
  entry_ok epPots d j dampFact = true /\
  returns_cases stray epPots d j dampFact delta effDamp
    (sequentialUpdate_fun stray epPots d j dampFact delta effDamp).
Proof.
  rewrite outcome_refines. unfold sequentialUpdate_fun.
  destruct (group_matches epPots d j) eqn:Eg; cbn [negb]; [|discriminate].
  destruct ((dampFact <? c_0) || (c_1 <=? dampFact)) eqn:Ed; [discriminate|].
  destruct (entry_ok epPots d j dampFact) eqn:Ee; cbn [negb]; [|discriminate].
  intros Hs. split; [reflexivity|].
  destruct (cavity_invalid stray d j) eqn:Ec; [by constructor|].
  destruct (oracle_answer stray epPots d j) as [res|] eqn:Eo; [|by constructor].
  destruct (eff_damping stray d j res dampFact) as [s'|deff] eqn:Ef;
    [by eapply rc_clamp|].
  destruct (marginals_invalid stray d j res deff) eqn:Em.
  - by eapply rc_marginals.
  - by eapply rc_success.
Qed.

(** C1 (atomicity).  Whenever [sequentialUpdate] returns a status other
    than [updSuccess] ([updCavityInvalid], [updNumericalError],
    [updMarginalsInvalid] or [updCavCondSkipped]), everything observable
    of the driver is as before the call: the message parameters pi_ji,
    beta_ji, a_j, c_j ([epRepr], [epReprPrec]), the marginals ([margPi],
    [margBeta], [margA], [margC]) and the three maximum-value services.
    Only the private scratch buffer may differ. *)
Theorem sequentialUpdate_atomic (epPots : PotentialManager) (d : Driver)
    (j : nat) (dampFact : num) (delta effDamp : bool) (s : Status) :
  (sequentialUpdate stray epPots d j dampFact delta effDamp).2 = Returned s ->
  s <> updSuccess ->
  observable (drv (sequentialUpdate stray epPots d j dampFact delta effDamp).1)
  = observable d.
Proof.
  intros Hs Hne. destruct (returns_inv _ _ _ _ _ _ _ Hs) as [_ Hc].
  rewrite driver_refines. rewrite outcome_refines in Hs.
  destruct Hc; try reflexivity.
  cbn in Hs. congruence.
Qed.

Lemma existsb_seq_true (f : nat -> bool) (n : nat) :
  existsb f (seq 0 n) = true <-> exists ii, (ii < n)%nat /\ f ii = true.
Proof.
  rewrite existsb_exists. split; intros (ii & Hii & Hf); exists ii;
    (split; [|exact Hf]); apply in_seq in Hii || apply in_seq; lia.
Qed.

(** C7.  A call that returns a status returns [updCavityInvalid] exactly
    when some cavity precision pi_i - pi_ji is below 0.5*piMinThres or, in
    bivariate mode, a_k - a_j is below 0.5*aMinThres or c_k - c_j is below
    0.5*cMinThres.  In that case nothing observable has changed and
    [compMoments] has not been called. *)
Theorem sequentialUpdate_cavityInvalid (epPots : PotentialManager) (d : Driver)
    (j : nat) (dampFact : num) (delta effDamp : bool) (s : Status) :
  let r := sequentialUpdate stray epPots d j dampFact delta effDamp in
  let k := tauInd (tauRow_of stray d j) in
  let invalid :=
    (exists ii, (ii < vjSz_of d j)%nat /\
       (rds (margPi d) (var_at d j ii) - rds (piP (row_of d j)) ii
          <? c_half * piMinThres d) = true) \/
    (hasBVPrec d = true /\
     ((rds (margA d) k - aP (tauRow_of stray d j) <? c_half * aMinThres d) = true \/
      (rds (margC d) k - cP (tauRow_of stray d j) <? c_half * cMinThres d) = true)) in
  r.2 = Returned s ->
  (s = updCavityInvalid <-> invalid) /\
  (invalid -> observable (drv r.1) = observable d /\ oracle_calls r.1 = []).
Proof.
  intros r k invalid Hs.
  assert (Hinv : invalid <-> cavity_invalid stray d j = true).
  { unfold invalid, cavity_invalid, cavity_pi_invalid, cavity_tau_invalid.
    rewrite orb_true_iff, andb_true_iff, orb_true_iff, existsb_seq_true.
    reflexivity. }
  destruct (returns_inv _ _ _ _ _ _ _ Hs) as [_ Hc].
  unfold r in *. rewrite driver_refines, calls_refines.
  rewrite outcome_refines in Hs. rewrite Hinv.
  assert (Hclamp : forall res s', eff_damping stray d j res dampFact = inl s' ->
            s' <> updCavityInvalid).
  { intros res s' E ->. unfold eff_damping in E.
    assert (Hd : forall n, damping_upto stray d j res dampFact n
                           <> inl updCavityInvalid).
    { induction n as [|n IH]; [discriminate|]. simpl.
      destruct (damping_upto stray d j res dampFact n) as [s1|dc];
        [exact IH|].
      unfold clamp_step.
      repeat match goal with
             | |- context [match ?x with _ => _ end] => destruct x
             end; discriminate. }
    destruct (damping_upto stray d j res dampFact (vjSz_of d j)) eqn:Ed;
      [by apply (Hd (vjSz_of d j)); rewrite Ed; f_equal; congruence|].
    unfold bivar_clamp_fun in E.
    repeat match type of E with
           | context [match ?x with _ => _ end] => destruct x
           end; discriminate. }
  destruct Hc as [Hc|Hc Ho|res s' Hc Ho He|res deff Hc Ho He Hm|res deff Hc Ho He Hm];
    cbn in Hs |- *; injection Hs as <-; rewrite Hc.
  - split; [split; reflexivity|]. intros _. split; reflexivity.
  - split; [split; discriminate|discriminate].
  - split; [split; [intros ->; by destruct (Hclamp _ _ He)|discriminate]|discriminate].
  - split; [split; discriminate|discriminate].
  - split; [split; discriminate|discriminate].
Qed.

(** C10.  Once the asserted condition on the potential holds, a damping
    factor with [dampFact < 0] or [dampFact >= 1] makes the call throw
    [InvalidParameterException] with the memory untouched, whatever the
    representation holds (row [j] is not read); a damping factor with
    [0 <= dampFact] and [dampFact < 1] never does.  The second part needs
    the comparisons to be those of an order, as they are in binary64 and in
    the rationals. *)
Theorem sequentialUpdate_dampFact_validated `{!OrderLaws num}
    (epPots : PotentialManager) (d : Driver) (j : nat) (dampFact : num)
    (delta effDamp : bool) :
  group_matches epPots d j = true ->
  (((dampFact <? c_0) = true \/ (c_1 <=? dampFact) = true) ->
   sequentialUpdate stray epPots d j dampFact delta effDamp =
   (enter d, Thrown InvalidParameterException)) /\
  ((c_0 <=? dampFact) = true -> (dampFact <? c_1) = true ->
   (sequentialUpdate stray epPots d j dampFact delta effDamp).2 <>
   Thrown InvalidParameterException).
Proof.
  intros Hg. split.
  - intros Hbad.
    assert (Ed : (dampFact <? c_0) || (c_1 <=? dampFact) = true)
      by (apply orb_true_iff; exact Hbad).
    unfold sequentialUpdate, sequentialUpdate_body.
    do 4 (rewrite bind_run; cbn [gets enter drv]). rewrite Hg.
    cbn [MYASS ret]. rewrite Ed. reflexivity.
  - intros Hlo Hhi. rewrite outcome_refines. unfold sequentialUpdate_fun.
    rewrite Hg. cbn [negb].
    rewrite (leb_ltb_false _ _ Hlo), (ltb_leb_false _ _ Hhi). cbn [orb].
    repeat match goal with
           | |- context [match ?x with _ => _ end] => destruct x
           end; discriminate.
Qed.

End Outcomes.

(** ** Selective damping *)

Section SelectiveDamping.

Context {num : Type} `{Double num}.
Context {M : Type} `{MaximumValuesService num M}.
Variable stray : num.

Local Abbreviation rds := (rd stray).
Local Abbreviation Driver := (Driver num M).
Local Abbreviation Row := (Row num).
Local Abbreviation Mem := (Mem num M).
Local Abbreviation Exec := (Exec num M).
Local Abbreviation PotentialManager := (PotentialManager num).

Local Open Scope dbl_scope.

Lemma damping_upto_inl_le (d : Driver) (j : nat) res dampFact s (ii n : nat) :
  (ii <= n)%nat ->
  damping_upto stray d j res dampFact ii = inl s ->
  damping_upto stray d j res dampFact n = inl s.
Proof.
  intros Hle Hs. replace n with (ii + (n - ii))%nat by lia.
  by apply damping_upto_inl.
Qed.

Lemma damping_upto_spec (d : Driver) (mx : M) (j : nat) res dampFact n dfin :
  epMaxPi d = Some mx ->
  damping_upto stray d j res dampFact n = inr dfin ->
  dfin = damping_spec stray d mx j res dampFact n.
Proof.
  intros Hmx. revert dfin. induction n as [|n IH]; intros dfin Hd.
  - cbn in Hd. by injection Hd as <-.
  - unfold damping_spec. rewrite seq_S, foldl_app. cbn [foldl Nat.add].
    fold (damping_spec stray d mx j res dampFact n).
    cbn [damping_upto] in Hd.
    destruct (damping_upto stray d j res dampFact n) as [s|dc]; [discriminate|].
    rewrite <- (IH dc eq_refl).
    unfold clamp_step in Hd. rewrite Hmx in Hd.
    destruct (und stray d j res n); [|discriminate].
    destruct (decreases stray d j res n); [|by injection Hd as <-].
    destruct (_ <=? c_0); [discriminate|].
    destruct (_ <=? c_002); [discriminate|]. by injection Hd as <-.
Qed.

Lemma eff_damping_status (d : Driver) (j : nat) res dampFact s :
  eff_damping stray d j res dampFact = inl s ->
  s = updNumericalError \/ s = updCavCondSkipped.
Proof.
  assert (Hd : forall n s', damping_upto stray d j res dampFact n = inl s' ->
             s' = updNumericalError \/ s' = updCavCondSkipped).
  { induction n as [|n IH]; intros s' E; [discriminate|]. simpl in E.
    destruct (damping_upto stray d j res dampFact n) as [s1|dc];
      [injection E as <-; by apply IH|].
    unfold clamp_step in E.
    repeat match type of E with
           | context [match ?x with _ => _ end] => destruct x
           end; first [discriminate | injection E as <-; auto]. }
  unfold eff_damping. intros E.
  destruct (damping_upto stray d j res dampFact (vjSz_of d j)) eqn:Ed;
    [injection E as <-; by eapply Hd|].
  unfold bivar_clamp_fun in E.
  repeat match type of E with
         | context [match ?x with _ => _ end] => destruct x
         end; first [discriminate | injection E as <-; auto].
Qed.

(** C5 (selective damping on pi).  Let the max-pi service be there, and
    let the second loop reach a position [ii] with damping factor [dc],
    compute its undamped message, and find the precision decreasing
    (pi~_ji < pi_ji).  With kappa = [getMaxValue mx i] and
    1-eta = min((pi_i - kappa - piMin) / (pi_ji - pi~_ji), 1):
    if kappa <= 0 the call returns [updNumericalError]; otherwise, if
    1-eta <= 0.02 it returns [updCavCondSkipped] and writes 1.0 to
    [effDamp] when requested; otherwise the loop goes on with
    max(dc, 1 - (1-eta)).  A successful univariate call reports as
    effective damping the maximum so taken over all positions where the
    precision decreases. *)
Theorem sequentialUpdate_selective_damping (epPots : PotentialManager)
    (d : Driver) (j : nat) (dampFact : num) (delta effDamp : bool)
    (s : Status) (mx : M) (res : list num) :
  let r := sequentialUpdate stray epPots d j dampFact delta effDamp in
  r.2 = Returned s ->
  epMaxPi d = Some mx ->
  cavity_invalid stray d j = false ->
  oracle_answer stray epPots d j = Some res ->
  (forall ii dc,
     (ii < vjSz_of d j)%nat ->
     damping_upto stray d j res dampFact ii = inr dc ->
     und stray d j res ii <> None ->
     decreases stray d j res ii = true ->
     let kappa := getMaxValue mx (var_at d j ii) in
     let ome := one_minus_eta stray d mx j res ii in
     ((kappa <=? c_0) = true -> s = updNumericalError) /\
     ((kappa <=? c_0) = false -> (ome <=? c_002) = true ->
      s = updCavCondSkipped /\ (effDamp = true -> out_effDamp r.1 = Some c_1)) /\
     ((kappa <=? c_0) = false -> (ome <=? c_002) = false ->
      damping_upto stray d j res dampFact (S ii) = inr (std_max dc (c_1 - ome))))
  /\ (s = updSuccess -> hasBVPrec d = false -> effDamp = true ->
      out_effDamp r.1 =
      Some (damping_spec stray d mx j res dampFact (vjSz_of d j))).
Proof.
  intros r Hs Hmx Hcav Hres.
  destruct (returns_inv _ _ _ _ _ _ _ _ Hs) as [_ Hc].
  unfold r in *. rewrite effDamp_refines. rewrite outcome_refines in Hs.
  assert (Hexit : forall ii dc s', (ii < vjSz_of d j)%nat ->
            damping_upto stray d j res dampFact ii = inr dc ->
            clamp_step stray d j res ii dc = inl s' ->
            s = s' /\
            r_effDamp (sequentialUpdate_fun stray epPots d j dampFact delta effDamp)
              = skipped_effDamp effDamp s').
  { intros ii dc s' Hii Hd Hstep.
    assert (He : eff_damping stray d j res dampFact = inl s').
    { unfold eff_damping.
      rewrite (damping_upto_inl_le d j res dampFact s' (S ii) (vjSz_of d j));
        [reflexivity|lia|].
      rewrite (damping_upto_S _ _ _ _ _ _ _ Hd). exact Hstep. }
    destruct Hc; try congruence.
    cbn in Hs |- *. split; congruence. }
  split.
  - intros ii dc Hii Hd Hund Hdec.
    assert (Hstep := eq_refl (clamp_step stray d j res ii dc)).
    unfold clamp_step at 2 in Hstep. rewrite Hmx, Hdec in Hstep.
    destruct (und stray d j res ii); [|congruence].
    split; [|split].
    + intros Ek. rewrite Ek in Hstep. by apply (Hexit ii dc _ Hii Hd Hstep).
    + intros Ek Eo. rewrite Ek, Eo in Hstep.
      destruct (Hexit ii dc _ Hii Hd Hstep) as [-> ->].
      split; [reflexivity|]. by intros ->.
    + intros Ek Eo. rewrite Ek, Eo in Hstep.
      by rewrite (damping_upto_S _ _ _ _ _ _ _ Hd).
  - intros -> Ebv ->.
    destruct Hc; cbn in Hs; try congruence.
    { injection Hs as ->.
      match goal with
      | E : eff_damping _ _ _ _ _ = inl _ |- _ =>
          destruct (eff_damping_status _ _ _ _ _ E); discriminate
      end. }
    cbn. f_equal.
    assert (res0 = res) by congruence. subst res0.
    unfold eff_damping in *.
    destruct (damping_upto stray d j res dampFact (vjSz_of d j)) as [|dfin] eqn:Ed;
      [discriminate|].
    unfold bivar_clamp_fun in *. rewrite Ebv in *.
    assert (deff = dfin) by congruence. subst deff.
    by apply damping_upto_spec.
Qed.

End SelectiveDamping.

(** ** The relative change Delta *)

Section Delta.

Context {num : Type} `{Double num}.
Context {M : Type} `{MaximumValuesService num M}.
Variable stray : num.

Local Abbreviation rds := (rd stray).
Local Abbreviation Driver := (Driver num M).
Local Abbreviation Row := (Row num).
Local Abbreviation Mem := (Mem num M).
Local Abbreviation Exec := (Exec num M).
Local Abbreviation PotentialManager := (PotentialManager num).

Local Open Scope dbl_scope.

Lemma length_scatter {A} (at_ : nat -> nat) (f : nat -> A) n (l : list A) :
  length (scatter at_ f n l) = length l.
Proof. induction n as [|n IH]; cbn; [reflexivity|]. by rewrite length_insert. Qed.

Lemma scatter_lookup_other {A} (at_ : nat -> nat) (f : nat -> A) n (l : list A) i :
  (forall t, (t < n)%nat -> at_ t <> i) ->
  scatter at_ f n l !! i = l !! i.
Proof.
  induction n as [|n IH]; intros Hne; cbn; [reflexivity|].
  rewrite list_lookup_insert_ne by (apply Hne; lia).
  apply IH. intros t Ht. apply Hne. lia.
Qed.

Lemma scatter_lookup_at {A} (at_ : nat -> nat) (f : nat -> A) n (l : list A) ii :
  (forall t1 t2, (t1 < n)%nat -> (t2 < n)%nat -> at_ t1 = at_ t2 -> t1 = t2) ->
  (ii < n)%nat -> (at_ ii < length l)%nat ->
  scatter at_ f n l !! at_ ii = Some (f ii).
Proof.
  induction n as [|n IH]; intros Hinj Hii Hlen; [lia|]. cbn.
  destruct (decide (ii = n)) as [->|Hne].
  - rewrite list_lookup_insert_eq; [reflexivity|by rewrite length_scatter].
  - rewrite list_lookup_insert_ne.
    + apply IH; [|lia|exact Hlen]. intros t1 t2 H1 H2. apply Hinj; lia.
    + intros E. apply Hinj in E; lia.
Qed.

Lemma var_at_inj (d : Driver) (j : nat) (t1 t2 : nat) :
  NoDup (vjInd (row_of d j)) ->
  (t1 < vjSz_of d j)%nat -> (t2 < vjSz_of d j)%nat ->
  var_at d j t1 = var_at d j t2 -> t1 = t2.
Proof.
  unfold var_at, vjSz_of. intros Hnd H1 H2 E.
  destruct (lookup_lt_is_Some_2 _ _ H1) as [i1 E1].
  destruct (lookup_lt_is_Some_2 _ _ H2) as [i2 E2].
  rewrite E1, E2 in E. cbn in E. subst i2.
  by eapply NoDup_lookup.
Qed.

Lemma var_at_elem (d : Driver) (j ii : nat) :
  (ii < vjSz_of d j)%nat -> var_at d j ii ∈ vjInd (row_of d j).
Proof.
  unfold var_at, vjSz_of. intros Hii.
  destruct (lookup_lt_is_Some_2 _ _ Hii) as [i E]. rewrite E. cbn.
  by eapply list_elem_of_lookup_2.
Qed.

(** The marginals of the touched variables after a successful call. *)
Lemma commit_margPi (d : Driver) (j : nat) res deff ii :
  NoDup (vjInd (row_of d j)) ->
  Forall (fun i => i < length (margPi d))%nat (vjInd (row_of d j)) ->
  (ii < vjSz_of d j)%nat ->
  rds (margPi (commit_fun stray d j res deff (vjSz_of d j))) (var_at d j ii) =
  newMargPi stray d j res deff ii.
Proof.
  intros Hnd Hin Hii. cbn. unfold rd.
  rewrite (scatter_lookup_at (var_at d j)); [reflexivity| |exact Hii|].
  - intros t1 t2 H1 H2. by apply var_at_inj.
  - rewrite Forall_forall in Hin. apply Hin. by apply var_at_elem.
Qed.

Lemma commit_margBeta (d : Driver) (j : nat) res deff ii :
  NoDup (vjInd (row_of d j)) ->
  Forall (fun i => i < length (margBeta d))%nat (vjInd (row_of d j)) ->
  (ii < vjSz_of d j)%nat ->
  rds (margBeta (commit_fun stray d j res deff (vjSz_of d j))) (var_at d j ii) =
  newMargBeta stray d j res deff ii.
Proof.
  intros Hnd Hin Hii. cbn. unfold rd.
  rewrite (scatter_lookup_at (var_at d j)); [reflexivity| |exact Hii|].
  - intros t1 t2 H1 H2. by apply var_at_inj.
  - rewrite Forall_forall in Hin. apply Hin. by apply var_at_elem.
Qed.

Lemma cav_acc_moments (d : Driver) (j n : nat) :
  (l_mH (cav_acc stray d j n), l_mRho (cav_acc stray d j n)) =
  moments_upto stray (row_of d j) (margPi d) (margBeta d) n.
Proof.
  induction n as [|n IH]; [reflexivity|].
  cbn [cav_acc moments_upto l_mH l_mRho]. rewrite <- IH. reflexivity.
Qed.

Lemma mpr_acc_moments (d : Driver) (j : nat) res deff n :
  NoDup (vjInd (row_of d j)) ->
  Forall (fun i => i < length (margPi d) /\ i < length (margBeta d))%nat
         (vjInd (row_of d j)) ->
  (n <= vjSz_of d j)%nat ->
  mpr_acc stray d j res deff n =
  moments_upto stray (row_of d j)
    (margPi (commit_fun stray d j res deff (vjSz_of d j)))
    (margBeta (commit_fun stray d j res deff (vjSz_of d j))) n.
Proof.
  intros Hnd Hin. induction n as [|n IH]; intros Hn; [reflexivity|].
  cbn [mpr_acc moments_upto]. rewrite <- IH by lia.
  fold (var_at d j n).
  rewrite commit_margPi, commit_margBeta; try assumption; try lia.
  - reflexivity.
  - eapply Forall_impl; [exact Hin|]. cbn. tauto.
  - eapply Forall_impl; [exact Hin|]. cbn. tauto.
Qed.

(** C9 (Delta).  When [delta] is supplied and the call returns
    [updSuccess], the value reported is
    max(|mH - mH'| / max(|mH|, |mH'|, 1e-8),
        |sqrt mRho - sqrt mRho'| / max(|sqrt mRho|, |sqrt mRho'|, 1e-8)),
    where (mH, mRho) are the moments on s_j of the marginals before the
    call and (mH', mRho') those of the marginals after it.  The macro
    [MAXRELDIFF] takes absolute values in the denominator too; a square
    root is its own absolute value.  The variables of V_j are distinct and
    index the marginal vectors. *)
Theorem sequentialUpdate_delta (epPots : PotentialManager) (d : Driver)
    (j : nat) (dampFact : num) (effDamp : bool) :
  let r := sequentialUpdate stray epPots d j dampFact true effDamp in
  let row := row_of d j in
  NoDup (vjInd row) ->
  Forall (fun i => i < length (margPi d) /\ i < length (margBeta d))%nat
         (vjInd row) ->
  r.2 = Returned updSuccess ->
  let m := moments_on_sj stray row (margPi d) (margBeta d) in
  let m' := moments_on_sj stray row (margPi (drv r.1)) (margBeta (drv r.1)) in
  out_delta r.1 =
  Some (std_max
          (fabs (m.1 - m'.1) / std_max (fabs m.1) (std_max (fabs m'.1) c_1em8))
          (fabs (sqrt m.2 - sqrt m'.2)
           / std_max (fabs (sqrt m.2)) (std_max (fabs (sqrt m'.2)) c_1em8))).
Proof.
  intros r row Hnd Hin Hs m m'.
  change (out_delta r.1 =
          Some (std_max (MAXRELDIFF m.1 m'.1)
                        (MAXRELDIFF (sqrt m.2) (sqrt m'.2)))).
  destruct (returns_inv _ _ _ _ _ _ _ _ Hs) as [_ Hc].
  assert (HmP : margPi (drv r.1) = margPi (observable (drv r.1))) by reflexivity.
  assert (HmB : margBeta (drv r.1) = margBeta (observable (drv r.1))) by reflexivity.
  unfold m', m, moments_on_sj. rewrite HmP, HmB. clear HmP HmB m m'.
  unfold r in *. rewrite delta_refines, driver_refines.
  rewrite outcome_refines in Hs.
  destruct Hc as [Hc|Hc Ho|res s' Hc Ho He|res deff Hc Ho He Hm|res deff Hc Ho He Hm];
    cbn [r_outcome failed] in Hs; try discriminate.
  - injection Hs as ->. destruct (eff_damping_status _ _ _ _ _ _ He); discriminate.
  - cbn [r_delta r_driver]. f_equal. unfold delta_fun. unfold row in *.
    change (length (vjInd (row_of d j))) with (vjSz_of d j).
    rewrite <- (mpr_acc_moments d j res deff (vjSz_of d j) Hnd Hin) by lia.
    rewrite <- cav_acc_moments. reflexivity.
Qed.

End Delta.

(** ** Conservation of the marginal sums *)

Section Conservation.

Context {num : Type} `{Double num}.
Context {M : Type} `{MaximumValuesService num M}.
Variable stray : num.

Local Abbreviation rds := (rd stray).
Local Abbreviation Driver := (Driver num M).
Local Abbreviation Row := (Row num).
Local Abbreviation Mem := (Mem num M).
Local Abbreviation Exec := (Exec num M).
Local Abbreviation PotentialManager := (PotentialManager num).

Local Open Scope dbl_scope.

Context `{!ExactArith num}.

Lemma exact_ring_theory :
  ring_theory c_0 c_1 add mul sub (fun x => sub c_0 x) (@eq num).
Proof. exact exact_ring. Qed.

Add Ring num_ring : exact_ring_theory.

Lemma row_sum_notin (i : nat) (ind : list nat) (vals : list num) :
  i ∉ ind -> row_sum i ind vals = c_0.
Proof.
  revert vals. induction ind as [|i' ind IH]; intros vals Hni; [reflexivity|].
  destruct vals as [|v vals]; [reflexivity|]. cbn.
  rewrite not_elem_of_cons in Hni. destruct Hni as [Hne Hni].
  destruct (decide (i' = i)); [congruence|]. by apply IH.
Qed.

Lemma row_sum_at (ind : list nat) (vals : list num) (ii : nat) (i : nat) (v : num) :
  NoDup ind -> ind !! ii = Some i -> vals !! ii = Some v ->
  row_sum i ind vals = v.
Proof.
  revert vals ii. induction ind as [|i' ind IH]; intros vals ii Hnd Hi Hv;
    [discriminate|].
  destruct vals as [|v' vals]; [discriminate|].
  apply NoDup_cons in Hnd as [Hni Hnd]. cbn.
  destruct ii as [|ii]; cbn in Hi, Hv.
  - injection Hi as ->. injection Hv as ->.
    destruct (decide (i = i)); [|congruence].
    rewrite row_sum_notin by assumption. ring.
  - destruct (decide (i' = i)) as [->|Hne].
    + exfalso. apply Hni. by eapply list_elem_of_lookup_2.
    + by eapply IH.
Qed.

Lemma msg_sum_insert (sel : Row -> list num) (rows : list Row) (j : nat)
    (r r' : Row) (i : nat) :
  rows !! j = Some r ->
  msg_sum sel (<[j := r']> rows) i + row_sum i (vjInd r) (sel r) =
  msg_sum sel rows i + row_sum i (vjInd r') (sel r').
Proof.
  revert j. induction rows as [|r0 rows IH]; intros j Hj; [discriminate|].
  destruct j as [|j]; cbn in Hj.
  - injection Hj as ->. unfold msg_sum.
    change (<[0%nat := r']> (r :: rows)) with (r' :: rows). cbn [foldr]. ring.
  - specialize (IH j Hj). unfold msg_sum in *.
    change (<[S j := r']> (r0 :: rows)) with (r0 :: <[j:=r']> rows).
    cbn [foldr].
    set (X := foldr _ c_0 (<[j:=r']> rows)) in *.
    set (Y := foldr _ c_0 rows) in *.
    transitivity (row_sum i (vjInd r0) (sel r0) +
                  (X + row_sum i (vjInd r) (sel r))); [ring|].
    rewrite IH. ring.
Qed.

Lemma entry_ok_row (epPots : PotentialManager) (d : Driver) j dampFact :
  entry_ok epPots d j dampFact = true -> epRepr d !! j = Some (row_of d j).
Proof.
  unfold entry_ok, row_of. rewrite !andb_true_iff.
  intros [[[_ _] Hr] _]. apply bool_decide_eq_true_1 in Hr as [r ->].
  reflexivity.
Qed.

Lemma success_inv (epPots : PotentialManager) (d : Driver) j dampFact delta effDamp :
  (sequentialUpdate stray epPots d j dampFact delta effDamp).2 = Returned updSuccess ->
  exists res deff,
    epRepr d !! j = Some (row_of d j) /\
    cavity_invalid stray d j = false /\
    oracle_answer stray epPots d j = Some res /\
    eff_damping stray d j res dampFact = inr deff /\
    marginals_invalid stray d j res deff = false /\
    observable (drv (sequentialUpdate stray epPots d j dampFact delta effDamp).1) =
      commit_fun stray d j res deff (vjSz_of d j) /\
    out_effDamp (sequentialUpdate stray epPots d j dampFact delta effDamp).1 =
      (if effDamp then Some deff else None).
Proof.
  intros Hs. destruct (returns_inv _ _ _ _ _ _ _ _ Hs) as [He Hc].
  rewrite driver_refines, effDamp_refines. rewrite outcome_refines in Hs.
  destruct Hc as [Hc|Hc Ho|res s' Hc Ho Hd|res deff Hc Ho Hd Hm|res deff Hc Ho Hd Hm];
    cbn [r_outcome failed] in Hs; try discriminate.
  - injection Hs as ->. destruct (eff_damping_status _ _ _ _ _ _ Hd); discriminate.
  - exists res, deff. repeat split; try assumption. by eapply entry_ok_row.
Qed.

Lemma commit_piP (d : Driver) (j : nat) res deff ii :
  length (piP (row_of d j)) = vjSz_of d j -> (ii < vjSz_of d j)%nat ->
  piP (commit_row stray d j res deff (vjSz_of d j)) !! ii =
  Some (newPi stray d j res deff ii).
Proof.
  intros Hlen Hii. cbn.
  apply (scatter_lookup_at id (newPi stray d j res deff)); [|exact Hii|].
  - intros t1 t2 _ _ E. exact E.
  - unfold id. lia.
Qed.

Lemma commit_betaP (d : Driver) (j : nat) res deff ii :
  length (betaP (row_of d j)) = vjSz_of d j -> (ii < vjSz_of d j)%nat ->
  betaP (commit_row stray d j res deff (vjSz_of d j)) !! ii =
  Some (newBeta stray d j res deff ii).
Proof.
  intros Hlen Hii. cbn.
  apply (scatter_lookup_at id (newBeta stray d j res deff)); [|exact Hii|].
  - intros t1 t2 _ _ E. exact E.
  - unfold id. lia.
Qed.

Lemma sum_step (S S' o nw : num) :
  S' + o = S + nw -> (S - o) + nw = S'.
Proof.
  intros E. transitivity (S + nw - o); [ring|]. rewrite <- E. ring.
Qed.

(** Conservation for one array of message parameters. *)
Lemma conservation (sel : Row -> list num) (marg marg' : list num)
    (rows : list Row) (j : nat) (r r' : Row) (f : nat -> num) (i : nat) :
  rows !! j = Some r ->
  NoDup (vjInd r) ->
  vjInd r' = vjInd r ->
  length (sel r) = length (vjInd r) ->
  (forall ii, (ii < length (vjInd r))%nat -> sel r' !! ii = Some (f ii)) ->
  (forall ii i', vjInd r !! ii = Some i' ->
     rds marg' i' = (rds marg i' - rds (sel r) ii) + f ii) ->
  (i ∉ vjInd r -> rds marg' i = rds marg i) ->
  rds marg i = msg_sum sel rows i ->
  rds marg' i = msg_sum sel (<[j := r']> rows) i.
Proof.
  intros Hj Hnd Hind Hlen Hnew Htouched Hother Hsum.
  pose proof (msg_sum_insert sel rows j r r' i Hj) as Hins.
  destruct (decide (i ∈ vjInd r)) as [Hin|Hni].
  - apply list_elem_of_lookup_1 in Hin as [ii Hii].
    assert (Hlt : (ii < length (vjInd r))%nat) by (by eapply lookup_lt_Some).
    destruct (lookup_lt_is_Some_2 (sel r) ii ltac:(lia)) as [v Hv].
    rewrite (row_sum_at (vjInd r) (sel r) ii i v Hnd Hii Hv) in Hins.
    rewrite Hind in Hins.
    rewrite (row_sum_at (vjInd r) (sel r') ii i (f ii) Hnd Hii (Hnew ii Hlt)) in Hins.
    rewrite (Htouched ii i Hii), Hsum.
    unfold rd at 1. rewrite Hv. cbn. by apply sum_step.
  - rewrite (Hother Hni), Hsum.
    rewrite (row_sum_notin i (vjInd r) (sel r) Hni) in Hins.
    rewrite Hind, (row_sum_notin i (vjInd r) (sel r') Hni) in Hins.
    transitivity (msg_sum sel rows i + c_0); [ring|]. rewrite <- Hins. ring.
Qed.

(** In exact arithmetic the commit keeps the marginal sums.  Let the
    variables of V_j be distinct and index the marginal vectors, and let the
    message arrays of row [j] have the length of V_j.  For every variable
    [i]: if pi_i is the sum of the pi_ji over the factors touching [i] before
    a call that returns [updSuccess], it is so after the call, and likewise
    beta_i.  The ring laws are needed: (pi_i - pi_ji) + pi^_ji is the new sum
    only where the subtraction and the addition do not round. *)
Lemma sum_conservation_exact (epPots : PotentialManager)
    (d : Driver) (j : nat) (dampFact : num) (delta effDamp : bool) :
  let r := sequentialUpdate stray epPots d j dampFact delta effDamp in
  let row := row_of d j in
  NoDup (vjInd row) ->
  Forall (fun i => i < length (margPi d) /\ i < length (margBeta d))%nat
         (vjInd row) ->
  length (piP row) = length (vjInd row) ->
  length (betaP row) = length (vjInd row) ->
  r.2 = Returned updSuccess ->
  (forall i,
     (rds (margPi d) i = msg_sum piP (epRepr d) i ->
      rds (margPi (drv r.1)) i = msg_sum piP (epRepr (drv r.1)) i) /\
     (rds (margBeta d) i = msg_sum betaP (epRepr d) i ->
      rds (margBeta (drv r.1)) i = msg_sum betaP (epRepr (drv r.1)) i)) /\
  (forall ii, (ii < length (vjInd row))%nat ->
     rds (margPi (drv r.1)) (var_at d j ii) =
       (rds (margPi d) (var_at d j ii) - rds (piP row) ii)
       + rds (piP (row_of (drv r.1) j)) ii /\
     rds (margBeta (drv r.1)) (var_at d j ii) =
       (rds (margBeta d) (var_at d j ii) - rds (betaP row) ii)
       + rds (betaP (row_of (drv r.1) j)) ii) /\
  (forall j', j' <> j -> epRepr (drv r.1) !! j' = epRepr d !! j').
Proof.
  intros r row Hnd Hin HlenP HlenB Hs.
  destruct (success_inv _ _ _ _ _ _ Hs)
    as (res & deff & Hrow & _ & _ & _ & _ & Hobs & _).
  assert (HinP : Forall (fun i => i < length (margPi d))%nat (vjInd row))
    by (eapply Forall_impl; [exact Hin|cbn; tauto]).
  assert (HinB : Forall (fun i => i < length (margBeta d))%nat (vjInd row))
    by (eapply Forall_impl; [exact Hin|cbn; tauto]).
  assert (HR : epRepr (drv r.1) =
               <[j := commit_row stray d j res deff (vjSz_of d j)]> (epRepr d)).
  { change (epRepr (drv r.1)) with (epRepr (observable (drv r.1))).
    unfold r. rewrite Hobs. reflexivity. }
  assert (HP : margPi (drv r.1) =
               margPi (commit_fun stray d j res deff (vjSz_of d j))).
  { change (margPi (drv r.1)) with (margPi (observable (drv r.1))).
    unfold r. by rewrite Hobs. }
  assert (HB : margBeta (drv r.1) =
               margBeta (commit_fun stray d j res deff (vjSz_of d j))).
  { change (margBeta (drv r.1)) with (margBeta (observable (drv r.1))).
    unfold r. by rewrite Hobs. }
  assert (Hj : (j < length (epRepr d))%nat) by (by eapply lookup_lt_Some).
  assert (Hrow' : row_of (drv r.1) j =
                  commit_row stray d j res deff (vjSz_of d j)).
  { unfold row_of at 1. rewrite HR, list_lookup_insert_eq by exact Hj.
    reflexivity. }
  assert (HtP : forall ii, (ii < length (vjInd row))%nat ->
            rds (margPi (drv r.1)) (var_at d j ii) =
            (rds (margPi d) (var_at d j ii) - rds (piP row) ii)
            + rds (piP (row_of (drv r.1) j)) ii).
  { intros ii Hii. rewrite HP, Hrow', commit_margPi by assumption.
    unfold rd at 3. rewrite commit_piP by assumption. reflexivity. }
  assert (HtB : forall ii, (ii < length (vjInd row))%nat ->
            rds (margBeta (drv r.1)) (var_at d j ii) =
            (rds (margBeta d) (var_at d j ii) - rds (betaP row) ii)
            + rds (betaP (row_of (drv r.1) j)) ii).
  { intros ii Hii. rewrite HB, Hrow', commit_margBeta by assumption.
    unfold rd at 3. rewrite commit_betaP by assumption. reflexivity. }
  split; [|split].
  - intros i. rewrite HR. split; intros Hsum.
    + apply (conservation piP (margPi d) (margPi (drv r.1)) (epRepr d) j row
               (commit_row stray d j res deff (vjSz_of d j))
               (newPi stray d j res deff) i Hrow Hnd eq_refl HlenP).
      * intros ii Hii. by apply commit_piP.
      * intros ii i' Hii.
        assert (Hlt : (ii < length (vjInd row))%nat) by (by eapply lookup_lt_Some).
        assert (Hv : var_at d j ii = i').
        { unfold var_at. fold row. by rewrite Hii. }
        rewrite <- Hv, (HtP ii Hlt), Hrow'. unfold rd at 3.
        by rewrite commit_piP.
      * intros Hni. rewrite HP. cbn. unfold rd.
        rewrite scatter_lookup_other; [reflexivity|].
        intros t Ht E. apply Hni. rewrite <- E. by apply var_at_elem.
      * exact Hsum.
    + apply (conservation betaP (margBeta d) (margBeta (drv r.1)) (epRepr d) j row
               (commit_row stray d j res deff (vjSz_of d j))
               (newBeta stray d j res deff) i Hrow Hnd eq_refl HlenB).
      * intros ii Hii. by apply commit_betaP.
      * intros ii i' Hii.
        assert (Hlt : (ii < length (vjInd row))%nat) by (by eapply lookup_lt_Some).
        assert (Hv : var_at d j ii = i').
        { unfold var_at. fold row. by rewrite Hii. }
        rewrite <- Hv, (HtB ii Hlt), Hrow'. unfold rd at 3.
        by rewrite commit_betaP.
      * intros Hni. rewrite HB. cbn. unfold rd.
        rewrite scatter_lookup_other; [reflexivity|].
        intros t Ht E. apply Hni. rewrite <- E. by apply var_at_elem.
      * exact Hsum.
  - intros ii Hii. split; [by apply HtP|by apply HtB].
  - intros j' Hne. rewrite HR. by apply list_lookup_insert_ne.
Qed.

End Conservation.

(** ** The undamped messages *)

Section Undamped.

Context {num : Type} `{Double num}.
Context {M : Type} `{MaximumValuesService num M}.
Variable stray : num.

Local Abbreviation rds := (rd stray).
Local Abbreviation Driver := (Driver num M).
Local Abbreviation Row := (Row num).
Local Abbreviation Mem := (Mem num M).
Local Abbreviation Exec := (Exec num M).
Local Abbreviation PotentialManager := (PotentialManager num).

Local Open Scope dbl_scope.

Lemma damping_upto_inr_und (d : Driver) (j : nat) res dampFact n dc ii :
  damping_upto stray d j res dampFact n = inr dc ->
  (ii < n)%nat ->
  exists prPi prBeta dc', und stray d j res ii = Some (prPi, prBeta) /\
    damping_upto stray d j res dampFact ii = inr dc'.
Proof.
  revert dc. induction n as [|n IH]; intros dc Hd Hii; [lia|].
  cbn [damping_upto] in Hd.
  destruct (damping_upto stray d j res dampFact n) as [s|dc0] eqn:Ed;
    [discriminate|].
  destruct (decide (ii = n)) as [->|Hne].
  - unfold clamp_step in Hd.
    destruct (und stray d j res n) as [[prPi prBeta]|]; [|discriminate].
    by exists prPi, prBeta, dc0.
  - apply (IH dc0 eq_refl). lia.
Qed.

Lemma scatter_id_lookup {A} (f : nat -> A) n (l : list A) ii :
  (ii < n)%nat -> (ii < length l)%nat -> scatter id f n l !! ii = Some (f ii).
Proof.
  intros Hii Hlen.
  apply (scatter_lookup_at id f n l ii); [|exact Hii|exact Hlen].
  intros t1 t2 _ _ E. exact E.
Qed.

Lemma rd_scatter_id (f : nat -> num) n (l : list num) ii :
  (ii < n)%nat -> (ii < length l)%nat -> rds (scatter id f n l) ii = f ii.
Proof. intros Hii Hlen. unfold rd. by rewrite scatter_id_lookup. Qed.

Lemma exit_numerical (epPots : PotentialManager) (d : Driver) j dampFact
    delta effDamp s res ii dc :
  (sequentialUpdate stray epPots d j dampFact delta effDamp).2 = Returned s ->
  cavity_invalid stray d j = false ->
  oracle_answer stray epPots d j = Some res ->
  (ii < vjSz_of d j)%nat ->
  damping_upto stray d j res dampFact ii = inr dc ->
  und stray d j res ii = None ->
  s = updNumericalError.
Proof.
  intros Hs Hcav Hres Hii Hd Hu.
  destruct (returns_inv _ _ _ _ _ _ _ _ Hs) as [_ Hc].
  rewrite outcome_refines in Hs.
  assert (He : eff_damping stray d j res dampFact = inl updNumericalError).
  { unfold eff_damping.
    rewrite (damping_upto_inl_le stray d j res dampFact updNumericalError
               (S ii) (vjSz_of d j)); [reflexivity|lia|].
    rewrite (damping_upto_S _ _ _ _ _ _ _ Hd). unfold clamp_step.
    by rewrite Hu. }
  destruct Hc; try congruence.
  cbn in Hs. congruence.
Qed.

(** After a successful call the messages of row [j] are the undamped
    messages, damped with the effective factor. *)
Lemma success_messages (epPots : PotentialManager)
    (d : Driver) (j : nat) (dampFact : num) (delta effDamp : bool)
    (res : list num) :
  let r := sequentialUpdate stray epPots d j dampFact delta effDamp in
  let row := row_of d j in
  r.2 = Returned updSuccess ->
  oracle_answer stray epPots d j = Some res ->
  exists deff, eff_damping stray d j res dampFact = inr deff /\
    forall ii, (ii < vjSz_of d j)%nat ->
      exists prPi prBeta,
        undampedUpdate (rds (bP row) ii)
          (rds (margPi d) (var_at d j ii) - rds (piP row) ii)
          (rds (margBeta d) (var_at d j ii) - rds (betaP row) ii)
          (rds res 0) (rds res 1) = Some (prPi, prBeta) /\
        ((ii < length (piP row))%nat ->
         rds (piP (row_of (drv r.1) j)) ii = damp deff (rds (piP row) ii) prPi) /\
        ((ii < length (betaP row))%nat ->
         rds (betaP (row_of (drv r.1) j)) ii =
         damp deff (rds (betaP row) ii) prBeta).
Proof.
  intros r row Hs Hres.
  destruct (success_inv _ _ _ _ _ _ _ Hs)
    as (res' & deff & Hrow & _ & Hres' & Hd & _ & Hobs & _).
  assert (res' = res) by congruence. subst res'.
  exists deff. split; [exact Hd|]. intros ii Hii.
  unfold eff_damping in Hd.
  destruct (damping_upto stray d j res dampFact (vjSz_of d j)) as [|dc] eqn:Edu;
    [discriminate|].
  destruct (damping_upto_inr_und d j res dampFact _ dc ii Edu Hii)
    as (prPi & prBeta & _ & Hu & _).
  exists prPi, prBeta. split; [exact Hu|].
  assert (Hj : (j < length (epRepr d))%nat) by (by eapply lookup_lt_Some).
  assert (Hrow' : row_of (drv r.1) j =
                  commit_row stray d j res deff (vjSz_of d j)).
  { unfold row_of at 1.
    change (epRepr (drv r.1)) with (epRepr (observable (drv r.1))).
    unfold r. rewrite Hobs. cbn [epRepr commit_fun].
    by rewrite list_lookup_insert_eq. }
  rewrite Hrow'. cbn [piP betaP commit_row].
  unfold row in *. clear row.
  split; intros Hlen; rewrite rd_scatter_id by assumption.
  + unfold newPi, prPi_at. by rewrite Hu.
  + unfold newBeta, prBeta_at. by rewrite Hu.
Qed.

(** The undamped messages, with the two tests as the code writes them.
    Let the second loop reach position [ii], with coefficient b, cavity
    pi^c = pi_i - pi_ji and beta^c = beta_i - beta_ji, and the answer
    (alpha, nu) of the potential.  If [fabs(b) > 1e-6], then with
    t2 = pi^c/b: the call returns [updNumericalError] when
    [t2/b - nu < 1e-10], and otherwise the undamped message is
    pi~ = e*pi^c*nu, beta~ = e*(beta^c*nu + t2*alpha) with e = 1/(t2/b - nu).
    Otherwise the call returns [updNumericalError] when
    [pi^c - nu*b*b < 1e-10], and otherwise pi~ = t*b*nu*pi^c,
    beta~ = t*(beta^c*b*nu + pi^c*alpha) with t = b/(pi^c - nu*b*b).  After
    a successful call every message of the row is this undamped message,
    damped with the effective factor. *)
Lemma undamped_message_cases (epPots : PotentialManager)
    (d : Driver) (j : nat) (dampFact : num) (delta effDamp : bool)
    (s : Status) (res : list num) :
  let r := sequentialUpdate stray epPots d j dampFact delta effDamp in
  let row := row_of d j in
  let alpha := rds res 0 in
  let nu := rds res 1 in
  r.2 = Returned s ->
  cavity_invalid stray d j = false ->
  oracle_answer stray epPots d j = Some res ->
  (forall ii dc,
     (ii < vjSz_of d j)%nat ->
     damping_upto stray d j res dampFact ii = inr dc ->
     let b := rds (bP row) ii in
     let pic := rds (margPi d) (var_at d j ii) - rds (piP row) ii in
     let betac := rds (margBeta d) (var_at d j ii) - rds (betaP row) ii in
     ((c_1em6 <? fabs b) = true ->
      let t2 := pic / b in
      let e := c_1 / (t2 / b - nu) in
      ((t2 / b - nu <? c_1em10) = true -> s = updNumericalError) /\
      ((t2 / b - nu <? c_1em10) = false ->
       undampedUpdate b pic betac alpha nu =
       Some (e * pic * nu, e * (betac * nu + t2 * alpha)))) /\
     ((c_1em6 <? fabs b) = false ->
      let t := b / (pic - nu * b * b) in
      ((pic - nu * b * b <? c_1em10) = true -> s = updNumericalError) /\
      ((pic - nu * b * b <? c_1em10) = false ->
       undampedUpdate b pic betac alpha nu =
       Some (t * b * nu * pic, t * (betac * b * nu + pic * alpha)))))
  /\ (s = updSuccess ->
      exists deff, eff_damping stray d j res dampFact = inr deff /\
      forall ii, (ii < vjSz_of d j)%nat ->
        exists prPi prBeta,
          undampedUpdate (rds (bP row) ii)
            (rds (margPi d) (var_at d j ii) - rds (piP row) ii)
            (rds (margBeta d) (var_at d j ii) - rds (betaP row) ii)
            alpha nu = Some (prPi, prBeta) /\
          ((ii < length (piP row))%nat ->
           rds (piP (row_of (drv r.1) j)) ii = damp deff (rds (piP row) ii) prPi) /\
          ((ii < length (betaP row))%nat ->
           rds (betaP (row_of (drv r.1) j)) ii =
           damp deff (rds (betaP row) ii) prBeta)).
Proof.
  intros r row alpha nu Hs Hcav Hres. split.
  - intros ii dc Hii Hd b pic betac.
    assert (Hu : und stray d j res ii = undampedUpdate b pic betac alpha nu)
      by reflexivity.
    pose proof (exit_numerical epPots d j dampFact delta effDamp s res ii dc
                  Hs Hcav Hres Hii Hd) as Hexit.
    rewrite Hu in Hexit. unfold undampedUpdate in Hexit |- *.
    split; intros Eb; rewrite Eb in *; cbn zeta in *; split; intros Et;
      rewrite Et in *; auto.
  - intros ->. exact (success_messages epPots d j dampFact delta effDamp res Hs Hres).
Qed.

End Undamped.

(** ** The two thresholds, on doubles *)

Section Thresholds.

Local Open Scope Z_scope.

(** Rationals n * 2^e: order and change of exponent. *)
Lemma two_power_pos (e : Z) : (0 < 2 ^ e)%Q.
Proof. apply Qpower_0_lt. reflexivity. Qed.

Lemma scaled_le (a b e : Z) :
  a <= b -> (inject_Z a * 2 ^ e <= inject_Z b * 2 ^ e)%Q.
Proof.
  intros Hab. apply Qmult_le_compat_r.
  - rewrite <- Zle_Qle. exact Hab.
  - apply Qlt_le_weak, two_power_pos.
Qed.

Lemma scaled_lt (a b e : Z) :
  a < b -> (inject_Z a * 2 ^ e < inject_Z b * 2 ^ e)%Q.
Proof.
  intros Hab. apply Qmult_lt_compat_r.
  - apply two_power_pos.
  - rewrite <- Zlt_Qlt. exact Hab.
Qed.

Lemma scaled_shift (a e k : Z) :
  0 <= k -> (inject_Z a * 2 ^ (e + k) == inject_Z (a * 2 ^ k) * 2 ^ e)%Q.
Proof.
  intros Hk. rewrite Qpower_plus by discriminate.
  rewrite inject_Z_mult, (Zpower_Qpower 2 k Hk).
  change (inject_Z 2) with 2%Q.
  set (x := (2 ^ e)%Q). set (y := (2 ^ k)%Q). ring.
Qed.

(** A mantissa of [n] binary digits lies in [2^(n-1), 2^n). *)
Lemma digits2_pos_bounds (m : positive) :
  2 ^ (Zpos (digits2_pos m) - 1) <= Zpos m < 2 ^ Zpos (digits2_pos m).
Proof.
  induction m as [m IH|m IH|]; cbn [digits2_pos].
  - rewrite Pos2Z.inj_succ.
    replace (Z.succ (Zpos (digits2_pos m)) - 1) with
      (Z.succ (Zpos (digits2_pos m) - 1)) by lia.
    rewrite !Z.pow_succ_r by lia. lia.
  - rewrite Pos2Z.inj_succ.
    replace (Z.succ (Zpos (digits2_pos m)) - 1) with
      (Z.succ (Zpos (digits2_pos m) - 1)) by lia.
    rewrite !Z.pow_succ_r by lia. lia.
  - cbn. lia.
Qed.

(** A canonical mantissa is below 2^53, and at least 2^52 unless the
    exponent is the least one. *)
Lemma canonical_bounds (m : positive) (e : Z) :
  canonical_mantissa prec emax m e = true ->
  Zpos m < 2 ^ 53 /\ (-1074 < e -> 2 ^ 52 <= Zpos m).
Proof.
  unfold canonical_mantissa, fexp, SpecFloat.emin, prec, emax.
  intros Hc. apply Z.eqb_eq in Hc.
  pose proof (digits2_pos_bounds m) as [Hlo Hhi].
  assert (Hd : Zpos (digits2_pos m) <= 53) by lia.
  split.
  - apply (Z.lt_le_trans _ _ _ Hhi). apply Z.pow_le_mono_r; lia.
  - intros He. assert (Zpos (digits2_pos m) = 53) as E by lia.
    rewrite E in Hlo. exact Hlo.
Qed.

(** Where a rational [q] lies between a normal double [mc * 2^ec] and its
    successor, the doubles that are at least [q] are those above
    [mc * 2^ec] in the order of the format. *)
Lemma above_threshold (mc : positive) (ec : Z) (q : Q) (m : positive) (e : Z) :
  2 ^ 52 <= Zpos mc < 2 ^ 53 -> -1074 <= ec ->
  (real_value mc ec < q)%Q -> (q <= real_value (mc + 1) ec)%Q ->
  canonical_mantissa prec emax m e = true ->
  Qle_bool q (real_value m e) =
  match e ?= ec with
  | Lt => false
  | Gt => true
  | Eq => match (m ?= mc)%positive with Gt => true | _ => false end
  end.
Proof.
  intros [Hmc1 Hmc2] Hec Hq1 Hq2 Hc.
  destruct (canonical_bounds m e Hc) as [Hm1 Hm2].
  unfold real_value in *.
  destruct (Z.compare_spec e ec) as [->|He|He].
  - destruct (Pos.compare_spec m mc) as [->|Hm|Hm].
    + apply not_true_is_false. rewrite Qle_bool_iff. intros Hle.
      exact (Qlt_irrefl _ (Qlt_le_trans _ _ _ Hq1 Hle)).
    + apply not_true_is_false. rewrite Qle_bool_iff. intros Hle.
      apply (Qlt_irrefl q). apply (Qle_lt_trans _ _ _ Hle).
      apply (Qle_lt_trans _ (inject_Z (Zpos mc) * 2 ^ ec)); [|exact Hq1].
      apply scaled_le. lia.
    + apply Qle_bool_iff. apply (Qle_trans _ _ _ Hq2).
      apply scaled_le. lia.
  - apply not_true_is_false. rewrite Qle_bool_iff. intros Hle.
    apply (Qlt_irrefl q). apply (Qle_lt_trans _ _ _ Hle).
    apply (Qlt_trans _ (inject_Z (Zpos mc) * 2 ^ ec)); [|exact Hq1].
    replace ec with (e + (ec - e)) by lia.
    rewrite scaled_shift by lia. apply scaled_lt.
    assert (2 ^ 1 <= 2 ^ (ec - e)) by (apply Z.pow_le_mono_r; lia).
    nia.
  - apply Qle_bool_iff. apply (Qle_trans _ _ _ Hq2).
    replace e with (ec + (e - ec)) by lia.
    rewrite scaled_shift by lia. apply scaled_le.
    assert (2 ^ 1 <= 2 ^ (e - ec)) by (apply Z.pow_le_mono_r; lia).
    assert (2 ^ 52 <= Zpos m) by (apply Hm2; lia).
    nia.
Qed.

(** The mantissa of a finite double is canonical. *)
Lemma valid_finite (x : float) (s : bool) (m : positive) (e : Z) :
  Prim2SF x = S754_finite s m e -> canonical_mantissa prec emax m e = true.
Proof.
  intros E. pose proof (Prim2SF_valid x) as Hv. rewrite E in Hv.
  cbn in Hv. unfold bounded in Hv. apply andb_prop in Hv. tauto.
Qed.

(** The double written [1e-6] is 4722366482869645 * 2^-72.  It is below
    10^-6, and its successor is not. *)
Lemma const_1em6 :
  2 ^ 52 <= 4722366482869645 < 2 ^ 53 /\
  (real_value 4722366482869645 (-72) < 1 # 1000000)%Q /\
  (1 # 1000000 <= real_value (4722366482869645 + 1) (-72))%Q.
Proof.
  split; [vm_compute; split; [discriminate|reflexivity]|].
  split; [vm_compute; reflexivity|vm_compute; discriminate].
Qed.

(** The double written [1e-10] is 7737125245533627 * 2^-86.  It is not
    below 10^-10, and its predecessor is. *)
Lemma const_1em10 :
  2 ^ 52 <= 7737125245533626 < 2 ^ 53 /\
  (real_value 7737125245533626 (-86) < 1 # 10000000000)%Q /\
  (1 # 10000000000 <= real_value (7737125245533626 + 1) (-86))%Q.
Proof.
  split; [vm_compute; split; [discriminate|reflexivity]|].
  split; [vm_compute; reflexivity|vm_compute; discriminate].
Qed.

(** The test [fabs(bval) > 1e-6] of the code, with the constant rounded to
    a double, holds exactly when |b| is at least the real number 10^-6. *)
Lemma at_least_1em6_test (b : float) :
  (1e-6 <? abs b)%float = at_least_1em6 b.
Proof.
  rewrite ltb_spec, abs_spec. unfold at_least_1em6.
  change (Prim2SF 1e-6) with (S754_finite false 4722366482869645 (-72)).
  destruct (Prim2SF b) as [s|s| |s m e] eqn:E;
    [reflexivity|reflexivity|reflexivity|].
  cbn [SFabs SFltb SFcompare].
  destruct const_1em6 as (Hm & Hlo & Hhi).
  rewrite (above_threshold 4722366482869645 (-72) (1 # 1000000) m e Hm
             ltac:(discriminate) Hlo Hhi (valid_finite b s m e E)).
  rewrite (Z.compare_antisym e (-72)).
  destruct (e ?= -72); cbn [CompOpp]; try reflexivity.
  rewrite (Pos.compare_antisym 4722366482869645 m). unfold Pos.compare.
  destruct (Pos.compare_cont Eq 4722366482869645 m); reflexivity.
Qed.

(** The test [... < 1e-10] of the code holds exactly when the value is
    below the real number 10^-10. *)
Lemma below_1em10_test (x : float) :
  (x <? 1e-10)%float = below_1em10 x.
Proof.
  rewrite ltb_spec. unfold below_1em10.
  change (Prim2SF 1e-10) with (S754_finite false 7737125245533627 (-86)).
  destruct (Prim2SF x) as [s|s| |[|] m e] eqn:E;
    [reflexivity|destruct s; reflexivity|reflexivity|reflexivity|].
  cbn [SFltb SFcompare].
  destruct const_1em10 as (Hm & Hlo & Hhi).
  rewrite (above_threshold 7737125245533626 (-86) (1 # 10000000000) m e Hm
             ltac:(discriminate) Hlo Hhi (valid_finite x false m e E)).
  clear Hm Hlo Hhi E.
  destruct (e ?= -86); [|reflexivity|reflexivity].
  rewrite Pos.compare_cont_spec. cbn [Pos.switch_Eq].
  rewrite !Pos2Z.inj_compare.
  destruct (Z.compare_spec (Zpos m) 7737125245533627) as [Hm1|Hm1|Hm1];
    destruct (Z.compare_spec (Zpos m) 7737125245533626) as [Hm'|Hm'|Hm'];
    first [reflexivity|lia].
Qed.

End Thresholds.

(** ** The undamped messages of the program *)

Section UndampedDouble.

Context {M : Type} `{MaximumValuesService float M}.
Variable stray : float.

Local Abbreviation rds := (rd stray).
Local Abbreviation Driver := (Driver float M).
Local Abbreviation PotentialManager := (PotentialManager float).

Local Open Scope dbl_scope.

(** C8 (undamped messages), for the doubles of the program and the real
    numbers 10^-6 and 10^-10.  Let the second loop reach position [ii], with
    coefficient b, cavity pi^c = pi_i - pi_ji and beta^c = beta_i - beta_ji,
    and the answer (alpha, nu) of the potential.  If |b| >= 10^-6, then with
    t2 = pi^c/b: the call returns [updNumericalError] when t2/b - nu is
    below 10^-10, and otherwise the undamped message is pi~ = e*pi^c*nu,
    beta~ = e*(beta^c*nu + t2*alpha) with e = 1/(t2/b - nu).  Otherwise the
    call returns [updNumericalError] when pi^c - nu*b*b is below 10^-10, and
    otherwise pi~ = t*b*nu*pi^c, beta~ = t*(beta^c*b*nu + pi^c*alpha) with
    t = b/(pi^c - nu*b*b).  The code tests [fabs(bval) > 1e-6] and
    [... < 1e-10] against the constants rounded to doubles; no double lies
    between a rounded constant and the real number, so the tests select the
    same doubles.  After a successful call every message of the row is this
    undamped message, damped with the effective factor. *)
Theorem sequentialUpdate_undamped_message (epPots : PotentialManager)
    (d : Driver) (j : nat) (dampFact : float) (delta effDamp : bool)
    (s : Status) (res : list float) :
  let r := sequentialUpdate stray epPots d j dampFact delta effDamp in
  let row := row_of d j in
  let alpha := rds res 0 in
  let nu := rds res 1 in
  r.2 = Returned s ->
  cavity_invalid stray d j = false ->
  oracle_answer stray epPots d j = Some res ->
  (forall ii dc,
     (ii < vjSz_of d j)%nat ->
     damping_upto stray d j res dampFact ii = inr dc ->
     let b := rds (bP row) ii in
     let pic := rds (margPi d) (var_at d j ii) - rds (piP row) ii in
     let betac := rds (margBeta d) (var_at d j ii) - rds (betaP row) ii in
     (at_least_1em6 b = true ->
      let t2 := pic / b in
      let e := c_1 / (t2 / b - nu) in
      (below_1em10 (t2 / b - nu) = true -> s = updNumericalError) /\
      (below_1em10 (t2 / b - nu) = false ->
       undampedUpdate b pic betac alpha nu =
       Some (e * pic * nu, e * (betac * nu + t2 * alpha)))) /\
     (at_least_1em6 b = false ->
      let t := b / (pic - nu * b * b) in
      (below_1em10 (pic - nu * b * b) = true -> s = updNumericalError) /\
      (below_1em10 (pic - nu * b * b) = false ->
       undampedUpdate b pic betac alpha nu =
       Some (t * b * nu * pic, t * (betac * b * nu + pic * alpha)))))
  /\ (s = updSuccess ->
      exists deff, eff_damping stray d j res dampFact = inr deff /\
      forall ii, (ii < vjSz_of d j)%nat ->
        exists prPi prBeta,
          undampedUpdate (rds (bP row) ii)
            (rds (margPi d) (var_at d j ii) - rds (piP row) ii)
            (rds (margBeta d) (var_at d j ii) - rds (betaP row) ii)
            alpha nu = Some (prPi, prBeta) /\
          ((ii < length (piP row))%nat ->
           rds (piP (row_of (drv r.1) j)) ii = damp deff (rds (piP row) ii) prPi) /\
          ((ii < length (betaP row))%nat ->
           rds (betaP (row_of (drv r.1) j)) ii =
           damp deff (rds (betaP row) ii) prBeta)).
Proof.
  intros r row alpha nu Hs Hcav Hres.
  destruct (undamped_message_cases stray epPots d j dampFact delta effDamp s res
              Hs Hcav Hres) as [Hpos Hsucc].
  refine (conj _ Hsucc).
  intros ii dc Hii Hd b pic betac.
  destruct (Hpos ii dc Hii Hd) as [Hbig Hsmall].
  split.
  - intros Hb t2 e.
    destruct (Hbig (eq_trans (at_least_1em6_test b) Hb)) as [Hexit Hset].
    split; intros Ht.
    + exact (Hexit (eq_trans (below_1em10_test _) Ht)).
    + exact (Hset (eq_trans (below_1em10_test _) Ht)).
  - intros Hb t.
    destruct (Hsmall (eq_trans (at_least_1em6_test b) Hb)) as [Hexit Hset].
    split; intros Ht.
    + exact (Hexit (eq_trans (below_1em10_test _) Ht)).
    + exact (Hset (eq_trans (below_1em10_test _) Ht)).
Qed.

End UndampedDouble.

(** ** What a successful call commits *)

Section Commit.

Context {num : Type} `{Double num}.
Context {M : Type} `{MaximumValuesService num M}.
Variable stray : num.

Local Abbreviation rds := (rd stray).
Local Abbreviation Driver := (Driver num M).
Local Abbreviation Row := (Row num).
Local Abbreviation Mem := (Mem num M).
Local Abbreviation Exec := (Exec num M).
Local Abbreviation PotentialManager := (PotentialManager num).

Local Open Scope dbl_scope.

(** C6, amended (what a successful call commits).  Let the variables of V_j
    be distinct and index the marginal vectors, and let the message arrays
    of row [j] have the length of V_j.  After a call that returns
    [updSuccess], with (alpha, nu) the answer of the potential and d_eff the
    effective damping factor: at every position [ii] of V_j, with variable
    i, the message now in row [j] is the damped undamped message
    pi^_ji = damp(d_eff, pi_ji, pi~_ji) (and beta^_ji likewise), and the
    marginal has been committed as cavity plus this message, both computed
    in the arithmetic of the program: pi_i <- (pi_i - pi_ji) + pi^_ji and
    beta_i <- (beta_i - beta_ji) + beta^_ji.  The marginals of the variables
    outside V_j and the rows of all other factors are as before, and so are
    V_j and the coefficients of row [j].  Nothing is said of the sums: in
    binary64 the subtraction and the addition round. *)
Theorem sequentialUpdate_commits_cavity_plus_message
    (epPots : PotentialManager) (d : Driver) (j : nat) (dampFact : num)
    (delta effDamp : bool) :
  let r := sequentialUpdate stray epPots d j dampFact delta effDamp in
  let row := row_of d j in
  NoDup (vjInd row) ->
  Forall (fun i => i < length (margPi d) /\ i < length (margBeta d))%nat
         (vjInd row) ->
  length (piP row) = length (vjInd row) ->
  length (betaP row) = length (vjInd row) ->
  r.2 = Returned updSuccess ->
  exists res deff,
    oracle_answer stray epPots d j = Some res /\
    eff_damping stray d j res dampFact = inr deff /\
    (forall ii, (ii < length (vjInd row))%nat ->
       let i := var_at d j ii in
       let pic := rds (margPi d) i - rds (piP row) ii in
       let betac := rds (margBeta d) i - rds (betaP row) ii in
       exists prPi prBeta,
         undampedUpdate (rds (bP row) ii) pic betac (rds res 0) (rds res 1)
           = Some (prPi, prBeta) /\
         rds (piP (row_of (drv r.1) j)) ii = damp deff (rds (piP row) ii) prPi /\
         rds (betaP (row_of (drv r.1) j)) ii =
           damp deff (rds (betaP row) ii) prBeta /\
         rds (margPi (drv r.1)) i = pic + damp deff (rds (piP row) ii) prPi /\
         rds (margBeta (drv r.1)) i =
           betac + damp deff (rds (betaP row) ii) prBeta) /\
    (forall i, i ∉ vjInd row ->
       rds (margPi (drv r.1)) i = rds (margPi d) i /\
       rds (margBeta (drv r.1)) i = rds (margBeta d) i) /\
    (forall j', j' <> j -> epRepr (drv r.1) !! j' = epRepr d !! j') /\
    vjInd (row_of (drv r.1) j) = vjInd row /\
    bP (row_of (drv r.1) j) = bP row.
Proof.
  intros r row Hnd Hin HlenP HlenB Hs.
  destruct (success_inv _ _ _ _ _ _ _ Hs)
    as (res & deff & Hrow & _ & Hres & Hd & _ & Hobs & _).
  destruct (success_messages stray epPots d j dampFact delta effDamp res Hs Hres)
    as (deff' & Hd' & Hmsg).
  assert (deff' = deff) by congruence. subst deff'.
  assert (HinP : Forall (fun i => i < length (margPi d))%nat (vjInd row))
    by (eapply Forall_impl; [exact Hin|cbn; tauto]).
  assert (HinB : Forall (fun i => i < length (margBeta d))%nat (vjInd row))
    by (eapply Forall_impl; [exact Hin|cbn; tauto]).
  assert (HR : epRepr (drv r.1) =
               <[j := commit_row stray d j res deff (vjSz_of d j)]> (epRepr d)).
  { change (epRepr (drv r.1)) with (epRepr (observable (drv r.1))).
    unfold r. rewrite Hobs. reflexivity. }
  assert (HP : margPi (drv r.1) =
               margPi (commit_fun stray d j res deff (vjSz_of d j))).
  { change (margPi (drv r.1)) with (margPi (observable (drv r.1))).
    unfold r. by rewrite Hobs. }
  assert (HB : margBeta (drv r.1) =
               margBeta (commit_fun stray d j res deff (vjSz_of d j))).
  { change (margBeta (drv r.1)) with (margBeta (observable (drv r.1))).
    unfold r. by rewrite Hobs. }
  assert (Hj : (j < length (epRepr d))%nat) by (by eapply lookup_lt_Some).
  assert (Hrow' : row_of (drv r.1) j =
                  commit_row stray d j res deff (vjSz_of d j)).
  { unfold row_of at 1. rewrite HR, list_lookup_insert_eq by exact Hj.
    reflexivity. }
  exists res, deff.
  refine (conj Hres (conj Hd (conj _ (conj _ (conj _ _))))).
  - intros ii Hii i pic betac.
    destruct (Hmsg ii Hii) as (prPi & prBeta & Hu & HmP & HmB).
    exists prPi, prBeta.
    assert (Hu' : und stray d j res ii = Some (prPi, prBeta)) by exact Hu.
    assert (HnP : newPi stray d j res deff ii = damp deff (rds (piP row) ii) prPi).
    { unfold newPi, prPi_at. by rewrite Hu'. }
    assert (HnB : newBeta stray d j res deff ii =
                  damp deff (rds (betaP row) ii) prBeta).
    { unfold newBeta, prBeta_at. by rewrite Hu'. }
    refine (conj Hu (conj _ (conj _ (conj _ _)))).
    + apply HmP. exact (eq_ind_r (fun n => (ii < n)%nat) Hii HlenP).
    + apply HmB. exact (eq_ind_r (fun n => (ii < n)%nat) Hii HlenB).
    + rewrite HP. unfold i. rewrite commit_margPi by assumption.
      unfold newMargPi. by rewrite HnP.
    + rewrite HB. unfold i. rewrite commit_margBeta by assumption.
      unfold newMargBeta. by rewrite HnB.
  - intros i Hni. rewrite HP, HB. cbn [margPi margBeta commit_fun]. unfold rd.
    rewrite !scatter_lookup_other; [done| |].
    + intros t Ht E. apply Hni. rewrite <- E. by apply var_at_elem.
    + intros t Ht E. apply Hni. rewrite <- E. by apply var_at_elem.
  - intros j' Hne. rewrite HR. by apply list_lookup_insert_ne.
  - by rewrite Hrow'.
Qed.

End Commit.

(** ** Trivial moment matching *)

Section TrivialMoments.

Context {num : Type} `{Double num}.
Context {M : Type} `{MaximumValuesService num M}.
Variable stray : num.

Local Abbreviation rds := (rd stray).
Local Abbreviation Driver := (Driver num M).
Local Abbreviation Row := (Row num).
Local Abbreviation Mem := (Mem num M).
Local Abbreviation Exec := (Exec num M).
Local Abbreviation PotentialManager := (PotentialManager num).

Local Open Scope dbl_scope.

Context `{!ExactArith num}.

Add Ring num_ring' : (exact_ring_theory (num:=num)).




End TrivialMoments.

(** ** The bivariate-precision mode *)

Section Bivariate.

Context {num : Type} `{Double num}.
Context {M : Type} `{MaximumValuesService num M}.
Variable stray : num.

Local Abbreviation rds := (rd stray).
Local Abbreviation Driver := (Driver num M).
Local Abbreviation Row := (Row num).
Local Abbreviation Mem := (Mem num M).
Local Abbreviation Exec := (Exec num M).
Local Abbreviation PotentialManager := (PotentialManager num).

Local Open Scope dbl_scope.

(** No call writes the precision messages a_j and c_j, their marginals or
    their maximum-value services. *)
Lemma sequentialUpdate_leaves_tau (epPots : PotentialManager) (d : Driver)
    (j : nat) (dampFact : num) (delta effDamp : bool) :
  let d' := drv (sequentialUpdate stray epPots d j dampFact delta effDamp).1 in
  epReprPrec d' = epReprPrec d /\ margA d' = margA d /\ margC d' = margC d /\
  epMaxA d' = epMaxA d /\ epMaxC d' = epMaxC d.
Proof.
  intros d'.
  change (epReprPrec d') with (epReprPrec (observable d')).
  change (margA d') with (margA (observable d')).
  change (margC d') with (margC (observable d')).
  change (epMaxA d') with (epMaxA (observable d')).
  change (epMaxC d') with (epMaxC (observable d')).
  unfold d'. rewrite driver_refines. unfold sequentialUpdate_fun.
  repeat match goal with
         | |- context [match ?x with _ => _ end] => destruct x
         end; repeat split; reflexivity.
Qed.

End Bivariate.

(** * Witnesses and counterexamples, on concrete drivers *)

(** Scenario S4: the clamp of factor 1 would leave no room, the call is
    skipped and nothing observable has changed. *)
Lemma sequentialUpdate_atomic_witness :
  let r := sequentialUpdate nan (pots_const atypeUnivariate answer_drop)
             (drv_two 10.05%float) 1 0%float true true in
  r.2 = Returned updCavCondSkipped /\
  observable (drv r.1) = observable (drv_two 10.05%float).
Proof.
  split; [vm_compute; reflexivity|].
  apply (sequentialUpdate_atomic nan _ _ _ _ _ _ updCavCondSkipped);
    [vm_compute; reflexivity|discriminate].
Defined.

(** Scenario S2: pi_0 - pi_10 = 1e-9 is below piMin/2 = 0.05. *)
Lemma sequentialUpdate_cavityInvalid_witness :
  let d := drv_two 1.000000001%float in
  let r := sequentialUpdate nan (pots_const atypeUnivariate answer_drop)
             d 1 0%float true true in
  r.2 = Returned updCavityInvalid /\
  observable (drv r.1) = observable d /\ oracle_calls r.1 = [].
Proof.
  intros d r.
  assert (Hs : r.2 = Returned updCavityInvalid) by (vm_compute; reflexivity).
  split; [exact Hs|].
  destruct (sequentialUpdate_cavityInvalid nan _ _ _ _ _ _ _ Hs) as [[Hiff _] Hkeep].
  apply Hkeep, Hiff. reflexivity.
Defined.

(** A damping factor of 1 is refused, one of 0.5 is not. *)
Lemma sequentialUpdate_dampFact_validated_witness :
  let pots := pots_const atypeUnivariate answer_drop in
  let d := drv_two 11%float in
  sequentialUpdate nan pots d 1 1%float true true =
    (enter d, Thrown InvalidParameterException) /\
  (sequentialUpdate nan pots d 1 0.5%float true true).2 <>
    Thrown InvalidParameterException.
Proof.
  intros pots d. split.
  - apply (sequentialUpdate_dampFact_validated nan pots d 1 1%float true true);
      [reflexivity|right; reflexivity].
  - apply (sequentialUpdate_dampFact_validated nan pots d 1 0.5%float true true);
      reflexivity.
Defined.

(** Scenario S3: pi_0 = 11, kappa_0 = 10, piMin = 0.1 and the message of
    factor 1 drops from 1 to -0.5, so that 1-eta = 0.9/1.5 = 0.6: the call
    succeeds with the damping factor raised from 0 to 0.4. *)
Lemma sequentialUpdate_selective_damping_witness :
  let d := drv_two 11%float in
  let pots := pots_const atypeUnivariate answer_drop in
  let r := sequentialUpdate nan pots d 1 0%float true true in
  r.2 = Returned updSuccess /\
  damping_spec nan d [(0%nat, 0%nat, 10%float); (0%nat, 1%nat, 1%float)] 1
    [0%float; PrimFloat.div (-10)%float 19%float] 0%float 1 = 0.4%float /\
  out_effDamp r.1 = Some 0.4%float.
Proof.
  intros d pots r.
  assert (Hs : r.2 = Returned updSuccess) by (vm_compute; reflexivity).
  split; [exact Hs|]. split; [vm_compute; reflexivity|].
  destruct (sequentialUpdate_selective_damping nan pots d 1 0%float true true
              updSuccess
              [(0%nat, 0%nat, 10%float); (0%nat, 1%nat, 1%float)]
              [0%float; PrimFloat.div (-10)%float 19%float]
              Hs eq_refl eq_refl eq_refl) as [_ Hfin].
  unfold r. rewrite (Hfin eq_refl eq_refl eq_refl). vm_compute. reflexivity.
Defined.

(** C2: the write-back of a and c is missing.  The potential answers
    (a^, c^) = (4.5, 4.5) on the cavity (a_bar, c_bar) = (1, 3), so the new
    messages are a~ = 3.5 and c~ = 1.5 and the call succeeds with damping 0.
    The messages a_j = 3 and c_j = 1, the marginals a_0 = c_0 = 4 and the
    a and c services are nevertheless what they were. *)
Example bivariate_commit_missing :
  let d := drv_bivar 3 1 in
  let pots := pots_const atypeBivarPrec
                (Some [0.3; 0.2; 4.5; 4.5]%float) in
  let r := sequentialUpdate nan pots d 0 0%float true true in
  r.2 = Returned updSuccess /\
  out_effDamp r.1 = Some 0%float /\
  (4.5 - cavA nan d 0 = 3.5)%float /\ (4.5 - cavC nan d 0 = 1.5)%float /\
  epReprPrec (drv r.1) = Some [ {| tauInd := 0; aP := 3%float; cP := 1%float |} ] /\
  margA (drv r.1) = [4%float] /\ margC (drv r.1) = [4%float] /\
  epMaxA (drv r.1) = Some [(0%nat, 0%nat, 3%float)] /\
  epMaxC (drv r.1) = Some [(0%nat, 0%nat, 1%float)].
Proof. vm_compute. repeat split; reflexivity. Qed.

(** C3: the clamp of the bivariate branch.  First call: a~ = 2.5 is below
    a_j = 3; the a quantities give 1-eta = min(0.9/0.5, 1) = 1, which asks
    for no more damping, but the code divides
    pi_1 - max(kappa^a, 0) - piMin = 1.9 by [piP[2] - prPi], one element past
    the row (0.0 here) minus the last undamped pi, and skips the update.
    Second call: c~ = 0.92 is below c_j = 3.92 and the c quantities give
    1-eta < 0.02, which asks to skip, but the code has no clamp for c and
    the update succeeds. *)
Example bivariate_clamp_wrong :
  (let d := drv_bivar 3 1 in
   let pots := pots_const atypeBivarPrec (Some [0.3; 0.2; 3.5; 4.5]%float) in
   let r := sequentialUpdate 0%float pots d 0 0%float true true in
   ((3.5 - cavA 0 d 0 <? 3) = true)%float /\
   clamp_spec 4%float 3%float 0.1%float 3%float (3.5 - cavA 0 d 0)%float
     = 1%float /\
   r.2 = Returned updCavCondSkipped) /\
  (let d := drv_bivar 3 3.92 in
   let pots := pots_const atypeBivarPrec (Some [0.3; 0.2; 4.5; 1.0]%float) in
   let r := sequentialUpdate nan pots d 0 0%float true true in
   ((1.0 - cavC nan d 0 <? 3.92) = true)%float /\
   ((clamp_spec 4%float 3.92%float 0.1%float 3.92%float (1.0 - cavC nan d 0)%float
       <=? 0.02) = true)%float /\
   r.2 = Returned updSuccess).
Proof. vm_compute. repeat split; reflexivity. Qed.

(** Scenario S3 again: the Delta that the successful call reports. *)
Lemma sequentialUpdate_delta_witness :
  let d := drv_two 11%float in
  let pots := pots_const atypeUnivariate answer_drop in
  let r := sequentialUpdate nan pots d 1 0%float true true in
  let m := moments_on_sj nan (row_of d 1) (margPi d) (margBeta d) in
  let m' := moments_on_sj nan (row_of d 1) (margPi (drv r.1))
              (margBeta (drv r.1)) in
  r.2 = Returned updSuccess /\
  out_delta r.1 =
  Some (std_max
          (fabs (m.1 - m'.1) / std_max (fabs m.1) (std_max (fabs m'.1) c_1em8))
          (fabs (sqrt m.2 - sqrt m'.2)
           / std_max (fabs (sqrt m.2)) (std_max (fabs (sqrt m'.2)) c_1em8)))%D.
Proof.
  intros d pots r m m'.
  assert (Hs : r.2 = Returned updSuccess) by (vm_compute; reflexivity).
  split; [exact Hs|].
  apply (sequentialUpdate_delta nan pots d 1 0%float true).
  - apply NoDup_singleton.
  - repeat constructor.
  - exact Hs.
Defined.

(** C6 as stated fails in binary64, in three calls that return
    [updSuccess]; the beta are 0 throughout.
    First call: two factors send pi_00 = 0.1 and pi_10 = 0.3, and
    pi_0 = 0.4 is their sum as the doubles add.  The potential answers
    (alpha, nu) = (0, 0.2) and the call on factor 0, without damping, has
    the cavity 0.4 - 0.1 = 0.30000000000000004 and the new message 0.6: the
    marginal is committed as 0.9000000000000000222, while the messages add
    up to 0.6 + 0.3 = 0.8999999999999999112.
    Second call: pi_00 = 1e16 and pi_10 = 1.5 with pi_0 = 10000000000000002,
    the double that their sum rounds to.  The cavity is 2, the answer (0, 1)
    gives the new message 2, and the marginal is committed as 4 while the
    messages add up to 3.5.
    Third call: three factors with b = 2^26 send 2^53, 1.5 and 0.5, and
    pi_0 = 2^53 + 2 is their sum, exactly, as rationals and as doubles.  The
    call on factor 1 has the cavity (2^53 + 2) - 1.5, which rounds to 2^53;
    the answer (0, 2^-54) gives the undamped message 0.25 and, with damping
    0.5, the new message 0.25 + 0.5 * (1.5 - 0.25) = 0.875.  The marginal is
    committed as 2^53 + 0.875, which rounds to 2^53, while the messages add
    up to 2^53 + 1.375 as rationals and to 2^53 + 2 as doubles. *)
Lemma sum_conservation_counterexample :
  (let d := drv_msgs 1 [0.1; 0.3]%float 0.4 in
   let pots := pots_const atypeUnivariate (Some [0%float; 0.2%float]) in
   let r := sequentialUpdate nan pots d 0 0%float true true in
   rd nan (margPi d) 0 = msg_sum piP (epRepr d) 0 /\
   rd nan (margBeta d) 0 = msg_sum betaP (epRepr d) 0 /\
   r.2 = Returned updSuccess /\
   rd nan (margPi (drv r.1)) 0 = 0x1.ccccccccccccdp-1%float /\
   msg_sum piP (epRepr (drv r.1)) 0 = 0x1.cccccccccccccp-1%float /\
   rd nan (margPi (drv r.1)) 0 <> msg_sum piP (epRepr (drv r.1)) 0) /\
  (let d := drv_msgs 1 [1e16; 1.5]%float 10000000000000002 in
   let pots := pots_const atypeUnivariate (Some [0%float; 1%float]) in
   let r := sequentialUpdate nan pots d 0 0%float true true in
   rd nan (margPi d) 0 = msg_sum piP (epRepr d) 0 /\
   rd nan (margBeta d) 0 = msg_sum betaP (epRepr d) 0 /\
   r.2 = Returned updSuccess /\
   rd nan (margPi (drv r.1)) 0 = 4%float /\
   msg_sum piP (epRepr (drv r.1)) 0 = 3.5%float) /\
  (let d := drv_msgs 0x1p26 [0x1p53; 1.5; 0.5]%float 9007199254740994 in
   let pots := pots_const atypeUnivariate (Some [0%float; 0x1p-54%float]) in
   let r := sequentialUpdate nan pots d 1 0.5%float true true in
   rd nan (margPi d) 0 = msg_sum piP (epRepr d) 0 /\
   (exact_value (rd nan (margPi d) 0) == exact_msg_sum piP (epRepr d) 0)%Q /\
   rd nan (margBeta d) 0 = msg_sum betaP (epRepr d) 0 /\
   (exact_value (rd nan (margBeta d) 0) == exact_msg_sum betaP (epRepr d) 0)%Q /\
   r.2 = Returned updSuccess /\
   piP <$> epRepr (drv r.1) = [[0x1p53]; [0.875]; [0.5]]%float /\
   rd nan (margPi (drv r.1)) 0 = 9007199254740992%float /\
   msg_sum piP (epRepr (drv r.1)) 0 = 9007199254740994%float /\
   (exact_msg_sum piP (epRepr (drv r.1)) 0 == 9007199254740992 + (11 # 8))%Q /\
   ~ (exact_value (rd nan (margPi (drv r.1)) 0)
      == exact_msg_sum piP (epRepr (drv r.1)) 0)%Q).
Proof.
  split; [|split].
  - vm_compute. repeat split; try reflexivity.
    intros E. apply (f_equal Prim2SF) in E. vm_compute in E. discriminate.
  - vm_compute. repeat split; reflexivity.
  - cbv zeta.
    repeat match goal with |- _ /\ _ => split end;
      try (vm_compute; reflexivity).
    vm_compute. discriminate.
Qed.

(** The first call of the counterexample: the marginal is the cavity
    0.4 - 0.1 plus the new message 0.6, as the doubles subtract and add, and
    the row of factor 1 is as it was. *)
Lemma sequentialUpdate_commits_cavity_plus_message_witness :
  let d := drv_msgs 1 [0.1; 0.3]%float 0.4 in
  let pots := pots_const atypeUnivariate (Some [0%float; 0.2%float]) in
  let r := sequentialUpdate nan pots d 0 0%float true true in
  r.2 = Returned updSuccess /\
  rd nan (piP (row_of (drv r.1) 0)) 0 = 0.6%float /\
  rd nan (margPi (drv r.1)) 0 = ((0.4 - 0.1) + 0.6)%float /\
  epRepr (drv r.1) !! 1%nat = epRepr d !! 1%nat.
Proof.
  intros d pots r.
  assert (Hs : r.2 = Returned updSuccess) by (vm_compute; reflexivity).
  destruct (sequentialUpdate_commits_cavity_plus_message nan pots d 0 0%float
              true true (NoDup_singleton 0%nat)) as (res & deff & Hres & Hd & Hpos & _ & Hrows & _).
  - repeat constructor.
  - reflexivity.
  - reflexivity.
  - exact Hs.
  - vm_compute in Hres. injection Hres as <-.
    vm_compute in Hd. injection Hd as <-.
    destruct (Hpos 0%nat) as (prPi & prBeta & Hu & HP & _ & HM & _);
      [cbv; lia|].
    vm_compute in Hu. injection Hu as <- <-.
    refine (conj Hs (conj _ (conj _ _))).
    + exact HP.
    + exact HM.
    + apply Hrows. discriminate.
Defined.

(** The exact lemma in the rationals (scenario S3): pi_0 = 11 = 10 + 1
    before the call and pi_0 = 10 + pi_10 after it. *)
Lemma sum_conservation_exact_example :
  let d := drvq_two in
  let pots := pots_const atypeUnivariate (Some [Q2Qc 0; Q2Qc (-10 # 19)]) in
  let r := sequentialUpdate (Q2Qc 0) pots d 1 (Q2Qc 0) true true in
  r.2 = Returned updSuccess /\
  rd (Q2Qc 0) (margPi d) 0 = msg_sum piP (epRepr d) 0 /\
  rd (Q2Qc 0) (margPi (drv r.1)) 0 = msg_sum piP (epRepr (drv r.1)) 0.
Proof.
  intros d pots r.
  assert (Hs : r.2 = Returned updSuccess) by (vm_compute; reflexivity).
  assert (Hbefore : rd (Q2Qc 0) (margPi d) 0 = msg_sum piP (epRepr d) 0)
    by (apply Qc_is_canon; vm_compute; reflexivity).
  split; [exact Hs|]. split; [exact Hbefore|].
  destruct (sum_conservation_exact (Q2Qc 0) pots d 1 (Q2Qc 0)
              true true) as [Hsum _].
  - apply NoDup_singleton.
  - repeat constructor.
  - reflexivity.
  - reflexivity.
  - exact Hs.
  - apply (Hsum 0%nat). exact Hbefore.
Qed.

(** Scenario S3: |b| = 1 is at least 10^-6, the denominator 10 + 10/19 is
    not below 10^-10, and the undamped message is given by the first pair
    of formulas.  The double written 1e-6 is itself below 10^-6, and the
    double written 1e-10 is not below 10^-10. *)
Lemma sequentialUpdate_undamped_message_witness :
  let d := drv_two 11%float in
  let nu := PrimFloat.div (-10)%float 19%float in
  let pots := pots_const atypeUnivariate answer_drop in
  let r := sequentialUpdate nan pots d 1 0%float true true in
  let pic := (11 - 1)%float in
  let e := (1 / (pic / 1 / 1 - nu))%float in
  r.2 = Returned updSuccess /\
  at_least_1em6 1%float = true /\
  below_1em10 (pic / 1 / 1 - nu)%float = false /\
  at_least_1em6 1e-6%float = false /\
  below_1em10 1e-10%float = false /\
  undampedUpdate 1%float pic (0 - 0)%float 0%float nu =
  Some ((e * pic * nu)%float, (e * ((0 - 0) * nu + pic / 1 * 0))%float).
Proof.
  intros d nu pots r pic e.
  assert (Hs : r.2 = Returned updSuccess) by (vm_compute; reflexivity).
  assert (Hb : at_least_1em6 1%float = true) by (vm_compute; reflexivity).
  assert (Ht : below_1em10 (pic / 1 / 1 - nu)%float = false)
    by (vm_compute; reflexivity).
  refine (conj Hs (conj Hb (conj Ht (conj _ (conj _ _)))));
    [vm_compute; reflexivity|vm_compute; reflexivity|].
  destruct (sequentialUpdate_undamped_message nan pots d 1 0%float true true
              updSuccess [0%float; nu] Hs eq_refl eq_refl) as [Hpos _].
  destruct (Hpos 0%nat 0%float) as [Hbig _]; [cbv; lia|reflexivity|].
  destruct Hbig as [_ Hset]; [exact Hb|].
  apply Hset. exact Ht.
Defined.



(** * Further properties of the driver *)

(** ** Lists written position by position *)

Section Scatter.

Context {A : Type}.

Lemma existsb_seq_ext (f g : nat -> bool) (n : nat) :
  (forall t, (t < n)%nat -> f t = g t) ->
  existsb f (seq 0 n) = existsb g (seq 0 n).
Proof.
  intros Hfg. induction n as [|n IH]; [reflexivity|].
  rewrite seq_S, !existsb_app. cbn [existsb Nat.add].
  rewrite IH by (intros; apply Hfg; lia). by rewrite Hfg by lia.
Qed.

Lemma scatter_ext (at_ : nat -> nat) (f g : nat -> A) (n : nat) (l : list A) :
  (forall t, (t < n)%nat -> f t = g t) ->
  scatter at_ f n l = scatter at_ g n l.
Proof.
  intros Hfg. induction n as [|n IH]; [reflexivity|].
  cbn [scatter]. rewrite IH by (intros; apply Hfg; lia).
  by rewrite Hfg by lia.
Qed.

Lemma scatter_ext2 (a1 a2 : nat -> nat) (f g : nat -> A) (n : nat)
    (l : list A) :
  (forall t, (t < n)%nat -> a1 t = a2 t /\ f t = g t) ->
  scatter a1 f n l = scatter a2 g n l.
Proof.
  intros Hfg. induction n as [|n IH]; [reflexivity|].
  cbn [scatter]. rewrite IH by (intros; apply Hfg; lia).
  destruct (Hfg n ltac:(lia)) as [-> ->]. reflexivity.
Qed.

Lemma insert_scatter (a : nat -> nat) (f : nat -> A) (n : nat)
    (l : list A) (i : nat) (x : A) :
  (forall t, (t < n)%nat -> a t <> i) ->
  <[i := x]> (scatter a f n l) = scatter a f n (<[i := x]> l).
Proof.
  intros Hne. induction n as [|n IH]; [reflexivity|].
  cbn [scatter]. rewrite <- IH by (intros; apply Hne; lia).
  apply list_insert_insert_ne. intros E. by apply (Hne n ltac:(lia)).
Qed.

Lemma scatter_commute (a1 a2 : nat -> nat) (f1 f2 : nat -> A)
    (n1 n2 : nat) (l : list A) :
  (forall t1 t2, (t1 < n1)%nat -> (t2 < n2)%nat -> a1 t1 <> a2 t2) ->
  scatter a1 f1 n1 (scatter a2 f2 n2 l) = scatter a2 f2 n2 (scatter a1 f1 n1 l).
Proof.
  intros Hne. induction n1 as [|n1 IH]; [reflexivity|].
  cbn [scatter]. rewrite IH by (intros; apply Hne; lia).
  apply insert_scatter. intros t Ht E. apply (Hne n1 t); [lia|exact Ht|by symmetry].
Qed.

Lemma scatter_fix (at_ : nat -> nat) (f : nat -> A) (n : nat) (l : list A) :
  (forall t x, (t < n)%nat -> l !! at_ t = Some x -> f t = x) ->
  scatter at_ f n l = l.
Proof.
  induction n as [|n IH]; intros Hf; [reflexivity|].
  cbn [scatter]. rewrite IH by (intros t x Ht; apply Hf; lia).
  destruct (l !! at_ n) as [x|] eqn:E.
  - rewrite (Hf n x ltac:(lia) E). by apply list_insert_id.
  - apply list_insert_ge. by apply lookup_ge_None.
Qed.

Lemma foldl_ext_seq (f g : A -> nat -> A) (a : A) (n : nat) :
  (forall x ii, (ii < n)%nat -> f x ii = g x ii) ->
  foldl f a (seq 0 n) = foldl g a (seq 0 n).
Proof.
  intros Hfg. induction n as [|n IH]; [reflexivity|].
  rewrite seq_S, !foldl_app. cbn [foldl].
  rewrite IH by (intros; apply Hfg; lia). apply Hfg. lia.
Qed.

End Scatter.


Section Frame.
Context {num : Type} `{Double num}.
Context {M : Type} `{MaximumValuesService num M}.
Variable stray : num.

Local Abbreviation rds := (rd stray).
Local Abbreviation Driver := (Driver num M).
Local Abbreviation Row := (Row num).
Local Abbreviation Mem := (Mem num M).
Local Abbreviation Exec := (Exec num M).
Local Abbreviation PotentialManager := (PotentialManager num).

Local Open Scope dbl_scope.

(** The driver after a call: as before, or the committed one. *)
Lemma driver_cases (epPots : PotentialManager) (d : Driver) (j : nat)
    (dampFact : num) (delta effDamp : bool) :
  let r := sequentialUpdate stray epPots d j dampFact delta effDamp in
  (r.2 <> Returned updSuccess /\ observable (drv r.1) = observable d) \/
  (exists res deff,
     r.2 = Returned updSuccess /\
     epRepr d !! j = Some (row_of d j) /\
     observable (drv r.1) = commit_fun stray d j res deff (vjSz_of d j)).
Proof.
  intros r. unfold r. rewrite driver_refines, outcome_refines.
  unfold sequentialUpdate_fun.
  destruct (group_matches epPots d j); cbn [negb];
    [|left; split; [discriminate|reflexivity]].
  destruct ((dampFact <? c_0) || (c_1 <=? dampFact));
    [left; split; [discriminate|reflexivity]|].
  destruct (entry_ok epPots d j dampFact) eqn:Ee; cbn [negb];
    [|left; split; [discriminate|reflexivity]].
  destruct (cavity_invalid stray d j);
    [left; split; [discriminate|reflexivity]|].
  destruct (oracle_answer stray epPots d j) as [res|];
    [|left; split; [discriminate|reflexivity]].
  destruct (eff_damping stray d j res dampFact) as [s|deff] eqn:Ed.
  { left. split; [|reflexivity]. cbn.
    destruct (eff_damping_status _ _ _ _ _ _ Ed); subst s; discriminate. }
  destruct (marginals_invalid stray d j res deff);
    [left; split; [discriminate|reflexivity]|].
  right. exists res, deff. repeat split. by eapply entry_ok_row.
Qed.

(** X1 (frame).  Whatever its outcome, a call keeps the shape of the
    driver: the number of rows, the rows of the other factors, V_j and the
    coefficients b_ji of every row, the lengths of the message arrays and
    of the marginal vectors, and the marginals of the variables outside
    V_j. *)
Theorem sequentialUpdate_frame (epPots : PotentialManager) (d : Driver)
    (j : nat) (dampFact : num) (delta effDamp : bool) :
  let d' := drv (sequentialUpdate stray epPots d j dampFact delta effDamp).1 in
  length (epRepr d') = length (epRepr d) /\
  (forall j', j' <> j -> epRepr d' !! j' = epRepr d !! j') /\
  (forall j', vjInd (row_of d' j') = vjInd (row_of d j') /\
              bP (row_of d' j') = bP (row_of d j') /\
              length (piP (row_of d' j')) = length (piP (row_of d j')) /\
              length (betaP (row_of d' j')) = length (betaP (row_of d j'))) /\
  length (margPi d') = length (margPi d) /\
  length (margBeta d') = length (margBeta d) /\
  (forall i, i ∉ vjInd (row_of d j) ->
     margPi d' !! i = margPi d !! i /\ margBeta d' !! i = margBeta d !! i).
Proof.
  intros d'.
  change (epRepr d') with (epRepr (observable d')).
  change (margPi d') with (margPi (observable d')).
  change (margBeta d') with (margBeta (observable d')).
  assert (Hrow : forall j', row_of d' j' = row_of (observable d') j')
    by reflexivity.
  setoid_rewrite Hrow. clear Hrow.
  destruct (driver_cases epPots d j dampFact delta effDamp)
    as [[_ E]|(res & deff & _ & Hj & E)]; fold d' in E; rewrite E.
  { repeat split. }
  assert (Hlt : (j < length (epRepr d))%nat) by (by eapply lookup_lt_Some).
  cbn [epRepr margPi margBeta commit_fun].
  split; [by rewrite length_insert|].
  split; [intros j' Hne; by rewrite list_lookup_insert_ne|].
  split.
  { intros j'. unfold row_of at 1 3 5 7. cbn [epRepr commit_fun].
    destruct (decide (j' = j)) as [->|Hne].
    - rewrite list_lookup_insert_eq by exact Hlt. cbn.
      rewrite !length_scatter. repeat split.
    - rewrite list_lookup_insert_ne by congruence. repeat split. }
  rewrite !length_scatter. split; [reflexivity|]. split; [reflexivity|].
  intros i Hi.
  split; apply scatter_lookup_other; intros t Ht E'; apply Hi;
    rewrite <- E'; by apply var_at_elem.
Qed.

End Frame.

Section Scratch.
Context {num : Type} `{Double num}.
Context {M : Type} `{MaximumValuesService num M}.
Variable stray : num.

Local Abbreviation rds := (rd stray).
Local Abbreviation Driver := (Driver num M).
Local Abbreviation Row := (Row num).
Local Abbreviation Mem := (Mem num M).
Local Abbreviation Exec := (Exec num M).
Local Abbreviation PotentialManager := (PotentialManager num).

Local Open Scope dbl_scope.

Lemma cav_acc_buffVec (d : Driver) (j n : nat) (b : list num) :
  cav_acc stray (set_buffVec d b) j n = cav_acc stray d j n.
Proof.
  induction n as [|n IH]; [reflexivity|].
  cbn [cav_acc]. rewrite IH. reflexivity.
Qed.

Lemma damping_upto_buffVec (d : Driver) (j : nat) res dampFact n (b : list num) :
  damping_upto stray (set_buffVec d b) j res dampFact n =
  damping_upto stray d j res dampFact n.
Proof.
  induction n as [|n IH]; [reflexivity|].
  cbn [damping_upto]. rewrite IH. reflexivity.
Qed.

Lemma commit_maxPi_buffVec (d : Driver) (j : nat) res deff n mx (b : list num) :
  commit_maxPi stray (set_buffVec d b) j res deff n mx =
  commit_maxPi stray d j res deff n mx.
Proof.
  induction n as [|n IH]; [reflexivity|].
  cbn [commit_maxPi]. rewrite IH. reflexivity.
Qed.

Lemma mpr_acc_buffVec (d : Driver) (j : nat) res deff n (b : list num) :
  mpr_acc stray (set_buffVec d b) j res deff n = mpr_acc stray d j res deff n.
Proof.
  induction n as [|n IH]; [reflexivity|].
  cbn [mpr_acc]. rewrite IH. reflexivity.
Qed.

Lemma commit_fun_buffVec (d : Driver) (j : nat) res deff n (b : list num) :
  commit_fun stray (set_buffVec d b) j res deff n = commit_fun stray d j res deff n.
Proof.
  unfold commit_fun.
  change (epMaxPi (set_buffVec d b)) with (epMaxPi d).
  destruct (epMaxPi d) as [mx|]; cbn [fmap option_fmap option_map];
    [rewrite commit_maxPi_buffVec|]; reflexivity.
Qed.

Lemma sequentialUpdate_fun_buffVec (epPots : PotentialManager) (d : Driver)
    (j : nat) (dampFact : num) (delta effDamp : bool) (b : list num) :
  sequentialUpdate_fun stray epPots (set_buffVec d b) j dampFact delta effDamp =
  sequentialUpdate_fun stray epPots d j dampFact delta effDamp.
Proof.
  assert (Hin : oracle_input stray (set_buffVec d b) j = oracle_input stray d j).
  { unfold oracle_input. change (vjSz_of (set_buffVec d b) j) with (vjSz_of d j).
    rewrite cav_acc_buffVec. reflexivity. }
  assert (Ho : oracle_answer stray epPots (set_buffVec d b) j
               = oracle_answer stray epPots d j).
  { unfold oracle_answer. by rewrite Hin. }
  assert (He : forall res, eff_damping stray (set_buffVec d b) j res dampFact
                           = eff_damping stray d j res dampFact).
  { intros res. unfold eff_damping.
    change (vjSz_of (set_buffVec d b) j) with (vjSz_of d j).
    rewrite damping_upto_buffVec. reflexivity. }
  assert (Hdl : forall res deff, delta_fun stray (set_buffVec d b) j res deff
                                 = delta_fun stray d j res deff).
  { intros res deff. unfold delta_fun.
    change (vjSz_of (set_buffVec d b) j) with (vjSz_of d j).
    rewrite cav_acc_buffVec, mpr_acc_buffVec. reflexivity. }
  unfold sequentialUpdate_fun.
  change (group_matches epPots (set_buffVec d b) j) with (group_matches epPots d j).
  change (entry_ok epPots (set_buffVec d b) j dampFact)
    with (entry_ok epPots d j dampFact).
  change (cavity_invalid stray (set_buffVec d b) j) with (cavity_invalid stray d j).
  rewrite Ho, Hin.
  destruct (group_matches epPots d j); [|reflexivity]. cbn [negb].
  destruct ((dampFact <? c_0) || (c_1 <=? dampFact)); [reflexivity|].
  destruct (entry_ok epPots d j dampFact); [|reflexivity]. cbn [negb].
  destruct (cavity_invalid stray d j); [reflexivity|].
  destruct (oracle_answer stray epPots d j) as [res|]; [|reflexivity].
  rewrite He. destruct (eff_damping stray d j res dampFact) as [s|deff];
    [reflexivity|].
  change (marginals_invalid stray (set_buffVec d b) j res deff)
    with (marginals_invalid stray d j res deff).
  destruct (marginals_invalid stray d j res deff); [reflexivity|].
  change (vjSz_of (set_buffVec d b) j) with (vjSz_of d j).
  rewrite commit_fun_buffVec, Hdl. reflexivity.
Qed.

(** X2 (scratch buffer).  What a call returns, leaves and reports does not
    depend on what the scratch buffer [buffVec] held when it started, for
    instance from an earlier call. *)
Theorem sequentialUpdate_scratch_irrelevant (epPots : PotentialManager)
    (d : Driver) (j : nat) (dampFact : num) (delta effDamp : bool)
    (b : list num) :
  let r := sequentialUpdate stray epPots d j dampFact delta effDamp in
  let r' := sequentialUpdate stray epPots (set_buffVec d b) j dampFact
              delta effDamp in
  r'.2 = r.2 /\
  observable (drv r'.1) = observable (drv r.1) /\
  out_delta r'.1 = out_delta r.1 /\
  out_effDamp r'.1 = out_effDamp r.1 /\
  oracle_calls r'.1 = oracle_calls r.1.
Proof.
  intros r r'.
  assert (E : result_of r' = result_of r).
  { unfold r, r'. rewrite !sequentialUpdate_refines.
    apply sequentialUpdate_fun_buffVec. }
  split; [exact (f_equal r_outcome E)|].
  split; [exact (f_equal r_driver E)|].
  split; [exact (f_equal r_delta E)|].
  split; [exact (f_equal r_effDamp E)|exact (f_equal r_calls E)].
Qed.

End Scratch.

Section OutParameters.
Context {num : Type} `{Double num}.
Context {M : Type} `{MaximumValuesService num M}.
Variable stray : num.

Local Abbreviation rds := (rd stray).
Local Abbreviation Driver := (Driver num M).
Local Abbreviation Row := (Row num).
Local Abbreviation Mem := (Mem num M).
Local Abbreviation Exec := (Exec num M).
Local Abbreviation PotentialManager := (PotentialManager num).

Local Open Scope dbl_scope.

Local Ltac out_params_case :=
  cbn; repeat split; intros;
  repeat match goal with
         | H : is_Some None |- _ => destruct H as [? H]; discriminate H
         | H : _ /\ _ |- _ => destruct H
         | H : _ \/ _ |- _ => destruct H
         end;
  try discriminate; eauto.

(** X3 (out-parameters).  Asking for [delta] or [effDamp] changes neither
    the status, nor the driver, nor the question put to the potential.
    [*delta] is written exactly when it is asked for and the call returns
    [updSuccess].  [*effDamp] is written exactly when it is asked for and
    the call returns [updSuccess], [updMarginalsInvalid] or
    [updCavCondSkipped]; in the last case it is 1.0.  On
    [updCavityInvalid], [updNumericalError] and on an exception neither is
    written. *)
Theorem sequentialUpdate_out_parameters (epPots : PotentialManager)
    (d : Driver) (j : nat) (dampFact : num) (delta effDamp : bool) :
  let r := sequentialUpdate stray epPots d j dampFact delta effDamp in
  let r0 := sequentialUpdate stray epPots d j dampFact false false in
  r.2 = r0.2 /\
  observable (drv r.1) = observable (drv r0.1) /\
  oracle_calls r.1 = oracle_calls r0.1 /\
  (is_Some (out_delta r.1) <-> delta = true /\ r.2 = Returned updSuccess) /\
  (is_Some (out_effDamp r.1) <->
   effDamp = true /\
   (r.2 = Returned updSuccess \/ r.2 = Returned updMarginalsInvalid \/
    r.2 = Returned updCavCondSkipped)) /\
  (effDamp = true -> r.2 = Returned updCavCondSkipped ->
   out_effDamp r.1 = Some c_1).
Proof.
  intros r r0. unfold r, r0.
  rewrite !driver_refines, !outcome_refines, !calls_refines, delta_refines,
    effDamp_refines.
  unfold sequentialUpdate_fun.
  destruct (group_matches epPots d j); cbn [negb]; [|out_params_case].
  destruct ((dampFact <? c_0) || (c_1 <=? dampFact)); [out_params_case|].
  destruct (entry_ok epPots d j dampFact); cbn [negb]; [|out_params_case].
  destruct (cavity_invalid stray d j); [out_params_case|].
  destruct (oracle_answer stray epPots d j) as [res|]; [|out_params_case].
  destruct (eff_damping stray d j res dampFact) as [s|deff] eqn:Ed.
  { destruct (eff_damping_status _ _ _ _ _ _ Ed); subst s;
      destruct effDamp; out_params_case. }
  destruct (marginals_invalid stray d j res deff);
    destruct effDamp, delta; out_params_case.
Qed.

Lemma damping_upto_no_service (d : Driver) (j : nat) res dampFact n :
  epMaxPi d = None ->
  damping_upto stray d j res dampFact n = inr dampFact \/
  damping_upto stray d j res dampFact n = inl updNumericalError.
Proof.
  intros Hmx. induction n as [|n IH]; [by left|].
  cbn [damping_upto]. destruct IH as [-> | ->]; [|by right].
  unfold clamp_step. rewrite Hmx.
  destruct (und stray d j res n); [by left|by right].
Qed.

(** X4 (no service, no selective damping).  Without the max-pi service and,
    in bivariate mode, without the max-a service, a call never returns
    [updCavCondSkipped], and the effective damping factor it reports is the
    one it was given. *)
Theorem sequentialUpdate_without_services (epPots : PotentialManager)
    (d : Driver) (j : nat) (dampFact : num) (delta effDamp : bool)
    (s : Status) :
  let r := sequentialUpdate stray epPots d j dampFact delta effDamp in
  epMaxPi d = None ->
  hasBVPrec d = false \/ epMaxA d = None ->
  r.2 = Returned s ->
  s <> updCavCondSkipped /\
  (effDamp = true -> s = updSuccess \/ s = updMarginalsInvalid ->
   out_effDamp r.1 = Some dampFact).
Proof.
  intros r Hmx Hmode Hs. unfold r in *.
  destruct (returns_inv _ _ _ _ _ _ _ _ Hs) as [_ Hc].
  rewrite effDamp_refines. rewrite outcome_refines in Hs.
  assert (Heff : forall res,
            eff_damping stray d j res dampFact = inr dampFact \/
            eff_damping stray d j res dampFact = inl updNumericalError).
  { intros res. unfold eff_damping.
    destruct (damping_upto_no_service d j res dampFact (vjSz_of d j) Hmx)
      as [-> | ->]; [|by right].
    left. unfold bivar_clamp_fun.
    destruct Hmode as [-> | ->]; [reflexivity|].
    by destruct (hasBVPrec d). }
  destruct Hc as [Hc|Hc Ho|res s' Hc Ho Hd|res deff Hc Ho Hd Hm|res deff Hc Ho Hd Hm];
    cbn [r_outcome r_effDamp failed] in *; injection Hs as <-.
  - split; [discriminate|]. intros _ [?|?]; discriminate.
  - split; [discriminate|]. intros _ [?|?]; discriminate.
  - destruct (Heff res) as [E|E]; rewrite E in Hd; [discriminate|].
    injection Hd as <-. split; [discriminate|]. intros _ [?|?]; discriminate.
  - destruct (Heff res) as [E|E]; rewrite E in Hd; [|discriminate].
    injection Hd as <-. split; [discriminate|]. by intros ->.
  - destruct (Heff res) as [E|E]; rewrite E in Hd; [|discriminate].
    injection Hd as <-. split; [discriminate|]. by intros ->.
Qed.

End OutParameters.

Section AfterSuccess.
Context {num : Type} `{Double num}.
Context {M : Type} `{MaximumValuesService num M}.
Variable stray : num.

Local Abbreviation rds := (rd stray).
Local Abbreviation Driver := (Driver num M).
Local Abbreviation Row := (Row num).
Local Abbreviation Mem := (Mem num M).
Local Abbreviation Exec := (Exec num M).
Local Abbreviation PotentialManager := (PotentialManager num).

Local Open Scope dbl_scope.

(** X5 (marginals after success).  After a successful call no marginal
    precision of a variable of V_j is below half the threshold. *)
Theorem sequentialUpdate_marginals_valid (epPots : PotentialManager)
    (d : Driver) (j : nat) (dampFact : num) (delta effDamp : bool) :
  let r := sequentialUpdate stray epPots d j dampFact delta effDamp in
  let row := row_of d j in
  NoDup (vjInd row) ->
  Forall (fun i => i < length (margPi d))%nat (vjInd row) ->
  r.2 = Returned updSuccess ->
  forall i, i ∈ vjInd row ->
    (rds (margPi (drv r.1)) i <? c_half * piMinThres d) = false.
Proof.
  intros r row Hnd Hin Hs i Hi.
  destruct (success_inv _ _ _ _ _ _ _ Hs)
    as (res & deff & _ & _ & _ & _ & Hm & Hobs & _).
  change (margPi (drv r.1)) with (margPi (observable (drv r.1))).
  unfold r. rewrite Hobs.
  apply list_elem_of_lookup_1 in Hi as [ii Hii].
  assert (Hlt : (ii < vjSz_of d j)%nat) by (by eapply lookup_lt_Some).
  assert (Hv : var_at d j ii = i).
  { unfold var_at. fold row. by rewrite Hii. }
  rewrite <- Hv, commit_margPi by assumption.
  unfold marginals_invalid in Hm.
  destruct (newMargPi stray d j res deff ii <? thres2_of d) eqn:E;
    [|exact E].
  assert (Hex : existsb (fun ii => newMargPi stray d j res deff ii <? thres2_of d)
                  (seq 0 (vjSz_of d j)) = true).
  { apply existsb_exists. exists ii. split; [apply in_seq; lia|exact E]. }
  congruence.
Qed.

Lemma cav_acc_cavity_moments (d : Driver) (j n : nat) :
  foldl (fun a ii =>
           let b := rds (bP (row_of d j)) ii in
           let pic := rds (margPi d) (var_at d j ii) - rds (piP (row_of d j)) ii in
           let betac :=
             rds (margBeta d) (var_at d j ii) - rds (betaP (row_of d j)) ii in
           (a.1 + b / pic * betac, a.2 + b * (b / pic)))
        (c_0, c_0) (seq 0 n)
  = (l_cH (cav_acc stray d j n), l_cRho (cav_acc stray d j n)).
Proof.
  induction n as [|n IH]; [reflexivity|].
  rewrite seq_S, foldl_app, IH. reflexivity.
Qed.

(** X6 (one question to the potential).  A call that returns
    [updCavityInvalid] has not called [compMoments].  A call that returns
    any other status has called it exactly once, on potential [j], with the
    cavity moments (h, rho) on s_j, followed in bivariate mode by the
    cavity parameters of tau; and if the potential answered [false], the
    status is [updNumericalError]. *)
Theorem sequentialUpdate_asks_once (epPots : PotentialManager)
    (d : Driver) (j : nat) (dampFact : num) (delta effDamp : bool)
    (s : Status) :
  let r := sequentialUpdate stray epPots d j dampFact delta effDamp in
  let inp :=
    [ (cavity_moments stray d j).1; (cavity_moments stray d j).2 ] ++
    (if hasBVPrec d then [cavA stray d j; cavC stray d j] else []) in
  r.2 = Returned s ->
  (s = updCavityInvalid -> oracle_calls r.1 = []) /\
  (s <> updCavityInvalid ->
   oracle_calls r.1 = [(j, inp)] /\
   exists pot, getPot epPots j = Some pot /\
     (compMoments pot inp = None -> s = updNumericalError)).
Proof.
  intros r inp Hs.
  assert (Hinp : inp = oracle_input stray d j).
  { unfold inp, oracle_input, cavity_moments.
    rewrite cav_acc_cavity_moments. by destruct (hasBVPrec d). }
  rewrite Hinp. clear Hinp inp.
  destruct (returns_inv _ _ _ _ _ _ _ _ Hs) as [He Hc].
  unfold r in *. rewrite calls_refines. rewrite outcome_refines in Hs.
  assert (Hpot : exists pot, getPot epPots j = Some pot).
  { unfold entry_ok, group_matches in He. rewrite !andb_true_iff in He.
    destruct He as [[[Hg _] _] _].
    destruct (getPot epPots j) as [pot|]; [by exists pot|discriminate]. }
  destruct Hpot as [pot Hpot].
  destruct Hc as [Hc|Hc Ho|res s' Hc Ho Hd|res deff Hc Ho Hd Hm|res deff Hc Ho Hd Hm];
    cbn [r_outcome r_calls failed] in *; injection Hs as <-.
  - split; [reflexivity|]. by intros [].
  - split; [discriminate|]. intros _. split; [reflexivity|].
    exists pot. split; [exact Hpot|reflexivity].
  - assert (s' <> updCavityInvalid)
      by (destruct (eff_damping_status _ _ _ _ _ _ Hd); subst s'; discriminate).
    split; [by intros ?|]. intros _. split; [reflexivity|].
    exists pot. split; [exact Hpot|].
    unfold oracle_answer in Ho. rewrite Hpot in Ho. cbn in Ho. congruence.
  - split; [discriminate|]. intros _. split; [reflexivity|].
    exists pot. split; [exact Hpot|].
    unfold oracle_answer in Ho. rewrite Hpot in Ho. cbn in Ho. congruence.
  - split; [discriminate|]. intros _. split; [reflexivity|].
    exists pot. split; [exact Hpot|].
    unfold oracle_answer in Ho. rewrite Hpot in Ho. cbn in Ho. congruence.
Qed.

Lemma commit_maxPi_foldl (d : Driver) (j : nat) res deff (mx : M) (n : nat) :
  commit_maxPi stray d j res deff n mx =
  foldl (fun m ii => update m (var_at d j ii) j
                       (rds (piP (commit_row stray d j res deff (S ii))) ii))
        mx (seq 0 n).
Proof.
  induction n as [|n IH]; [reflexivity|].
  rewrite seq_S, foldl_app. cbn [foldl commit_maxPi]. by rewrite IH.
Qed.

(** X7 (the max-pi service is told).  On success the max-pi service, when
    there is one, receives [update(i, j, pi_ji)] once for every position of
    V_j, in row order, with the committed precision message. *)
Theorem sequentialUpdate_updates_maxPi (epPots : PotentialManager)
    (d : Driver) (j : nat) (dampFact : num) (delta effDamp : bool) (mx : M) :
  let r := sequentialUpdate stray epPots d j dampFact delta effDamp in
  let row := row_of d j in
  length (piP row) = length (vjInd row) ->
  epMaxPi d = Some mx ->
  r.2 = Returned updSuccess ->
  epMaxPi (drv r.1) =
  Some (foldl (fun m ii => update m (var_at d j ii) j
                             (rds (piP (row_of (drv r.1) j)) ii))
              mx (seq 0 (length (vjInd row)))).
Proof.
  intros r row Hlen Hmx Hs.
  destruct (success_inv _ _ _ _ _ _ _ Hs)
    as (res & deff & Hrow & _ & _ & _ & _ & Hobs & _).
  assert (Hj : (j < length (epRepr d))%nat) by (by eapply lookup_lt_Some).
  assert (Hrow' : row_of (drv r.1) j =
                  commit_row stray d j res deff (vjSz_of d j)).
  { unfold row_of at 1.
    change (epRepr (drv r.1)) with (epRepr (observable (drv r.1))).
    unfold r. rewrite Hobs. cbn [epRepr commit_fun].
    by rewrite list_lookup_insert_eq. }
  rewrite Hrow'.
  change (epMaxPi (drv r.1)) with (epMaxPi (observable (drv r.1))).
  unfold r. rewrite Hobs. cbn [epMaxPi commit_fun]. rewrite Hmx. cbn.
  f_equal. rewrite commit_maxPi_foldl. apply foldl_ext_seq.
  intros m ii Hii. f_equal. cbn [piP commit_row].
  unfold vjSz_of, row in *.
  rewrite !rd_scatter_id; [reflexivity|lia..].
Qed.

End AfterSuccess.

Section Lifetime.
Context {num : Type} `{Double num}.
Context {M : Type} `{MaximumValuesService num M}.
Variable stray : num.

Local Abbreviation rds := (rd stray).
Local Abbreviation Driver := (Driver num M).
Local Abbreviation Row := (Row num).
Local Abbreviation Mem := (Mem num M).
Local Abbreviation Exec := (Exec num M).
Local Abbreviation PotentialManager := (PotentialManager num).

Local Open Scope dbl_scope.

Lemma same_shape_refl (d : Driver) : same_shape d d.
Proof. unfold same_shape. repeat split; auto. Qed.

Lemma same_shape_trans (d1 d2 d3 : Driver) :
  same_shape d1 d2 -> same_shape d2 d3 -> same_shape d1 d3.
Proof.
  unfold same_shape.
  intros (A1 & A2 & A3 & A4 & A5 & A6 & A7 & A8 & A9 & A10 & A11 & A12 & A13)
         (B1 & B2 & B3 & B4 & B5 & B6 & B7 & B8 & B9 & B10 & B11 & B12 & B13).
  repeat split; try congruence.
  - destruct (A2 j) as (E & _), (B2 j) as (E' & _). congruence.
  - destruct (A2 j) as (_ & E & _), (B2 j) as (_ & E' & _). congruence.
  - destruct (A2 j) as (_ & _ & E & _), (B2 j) as (_ & _ & E' & _). congruence.
  - destruct (A2 j) as (_ & _ & _ & E), (B2 j) as (_ & _ & _ & E'). congruence.
  - intros ?. apply A13, B13. assumption.
  - intros ?. apply B13, A13. assumption.
Qed.

Lemma commit_same_shape (d : Driver) (j : nat) res deff :
  epRepr d !! j = Some (row_of d j) ->
  same_shape d (commit_fun stray d j res deff (vjSz_of d j)).
Proof.
  intros Hj.
  assert (Hlt : (j < length (epRepr d))%nat) by (by eapply lookup_lt_Some).
  unfold same_shape. cbn [epRepr margPi margBeta commit_fun epReprPrec margA
    margC piMinThres aMinThres cMinThres epMaxA epMaxC epMaxPi].
  rewrite length_insert, !length_scatter.
  repeat split.
  1-4: unfold row_of at 1; cbn [epRepr commit_fun];
       (destruct (decide (j0 = j)) as [->|Hne];
        [rewrite list_lookup_insert_eq by exact Hlt; cbn;
         rewrite ?length_scatter; reflexivity
        |rewrite list_lookup_insert_ne by congruence; reflexivity]).
  - intros [x Hx]. destruct (epMaxPi d); [eauto|discriminate].
  - intros [x Hx]. rewrite Hx. cbn. eauto.
Qed.

Lemma observable_same_shape (d d1 d2 : Driver) :
  observable d1 = observable d2 -> same_shape d d2 -> same_shape d d1.
Proof.
  intros E. unfold same_shape.
  change (epRepr d1) with (epRepr (observable d1)).
  change (margPi d1) with (margPi (observable d1)).
  change (margBeta d1) with (margBeta (observable d1)).
  change (epReprPrec d1) with (epReprPrec (observable d1)).
  change (margA d1) with (margA (observable d1)).
  change (margC d1) with (margC (observable d1)).
  change (piMinThres d1) with (piMinThres (observable d1)).
  change (aMinThres d1) with (aMinThres (observable d1)).
  change (cMinThres d1) with (cMinThres (observable d1)).
  change (epMaxA d1) with (epMaxA (observable d1)).
  change (epMaxC d1) with (epMaxC (observable d1)).
  change (epMaxPi d1) with (epMaxPi (observable d1)).
  assert (Hrow : forall j, row_of d1 j = row_of (observable d1) j)
    by reflexivity.
  setoid_rewrite Hrow. rewrite E. tauto.
Qed.

(** A call keeps the shape of the driver, whatever its outcome. *)
Lemma call_same_shape (epPots : PotentialManager) (d : Driver) (j : nat)
    (dampFact : num) (delta effDamp : bool) :
  same_shape d (drv (sequentialUpdate stray epPots d j dampFact delta effDamp).1).
Proof.
  destruct (driver_cases stray epPots d j dampFact delta effDamp)
    as [[_ E]|(res & deff & _ & Hj & E)].
  - apply (observable_same_shape d _ d E), same_shape_refl.
  - apply (observable_same_shape d _
             (commit_fun stray d j res deff (vjSz_of d j)));
      [exact E|by apply commit_same_shape].
Qed.

Lemma after_updates_same_shape (epPots : PotentialManager) (d : Driver)
    (calls : list (nat * num)) :
  same_shape d (after_updates stray epPots d calls).
Proof.
  revert d. induction calls as [|c calls IH]; intros d; [apply same_shape_refl|].
  cbn [after_updates foldl].
  eapply same_shape_trans; [|apply IH]. apply call_same_shape.
Qed.

Lemma numArgumentGroup_all (pots : list (EPScalarPotential num))
    (g : ArgumentGroup) :
  length pots = numArgumentGroup pots g <->
  Forall (fun pot => getArgumentGroup pot = g) pots.
Proof.
  unfold numArgumentGroup. induction pots as [|pot pots IH].
  - split; [constructor|reflexivity].
  - rewrite filter_cons.
    pose proof (length_filter (fun pot => getArgumentGroup pot = g) pots) as Hle.
    destruct (decide (getArgumentGroup pot = g)) as [E|Hne]; cbn [length].
    + split.
      * intros Hl. constructor; [exact E|]. apply IH. lia.
      * intros Hall. apply Forall_cons in Hall as [_ Hall].
        apply IH in Hall. lia.
    + split; [lia|]. intros Hall. apply Forall_cons in Hall as [E _].
      contradiction.
Qed.

(** X8 (what no call writes).  Whatever its outcome, a call leaves the
    part of tau as it is: the messages a_j and c_j and the indices k(j),
    the marginals a_k and c_k and the two services for a and c.  It leaves
    the three thresholds as they are, and it does not create a max-pi
    service. *)
Theorem sequentialUpdate_keeps_tau (epPots : PotentialManager) (d : Driver)
    (j : nat) (dampFact : num) (delta effDamp : bool) :
  let d' := drv (sequentialUpdate stray epPots d j dampFact delta effDamp).1 in
  epReprPrec d' = epReprPrec d /\
  margA d' = margA d /\ margC d' = margC d /\
  epMaxA d' = epMaxA d /\ epMaxC d' = epMaxC d /\
  piMinThres d' = piMinThres d /\
  aMinThres d' = aMinThres d /\ cMinThres d' = cMinThres d /\
  (epMaxPi d = None -> epMaxPi d' = None).
Proof.
  intros d'.
  destruct (call_same_shape epPots d j dampFact delta effDamp)
    as (_ & _ & _ & _ & Hprec & HA & HC & Hp & Ha & Hc & HxA & HxC & Hx).
  fold d' in Hprec, HA, HC, Hp, Ha, Hc, HxA, HxC, Hx.
  repeat split; try assumption.
  intros Hn. destruct (epMaxPi d') as [mx|] eqn:E; [|reflexivity].
  destruct (proj1 Hx (ex_intro _ mx eq_refl)) as [mx' Hmx']. congruence.
Qed.

End Lifetime.

Section Constructed.
Context {num : Type} `{Double num}.
Context {M : Type} `{MaximumValuesService num M}.
Variable stray : num.

Local Abbreviation rds := (rd stray).
Local Abbreviation Driver := (Driver num M).
Local Abbreviation Row := (Row num).
Local Abbreviation Mem := (Mem num M).
Local Abbreviation Exec := (Exec num M).
Local Abbreviation PotentialManager := (PotentialManager num).

Local Open Scope dbl_scope.

Local Abbreviation Univ := (FactorizedEPRepresentation num).
Local Abbreviation Bivar := (FactEPRepresBivarPrec num).

Lemma not_all_group (pots : list (EPScalarPotential num)) (g : ArgumentGroup) :
  Nat.eqb (length pots) (numArgumentGroup pots g) = false <->
  exists pot, pot ∈ pots /\ getArgumentGroup pot <> g.
Proof.
  rewrite Nat.eqb_neq, numArgumentGroup_all. split.
  - intros Hn. apply not_Forall_Exists in Hn; [|intros pot; apply _].
    apply Exists_exists in Hn. exact Hn.
  - intros (pot & Hin & Hne) Hall. rewrite Forall_forall in Hall.
    by apply Hne, Hall.
Qed.

(** X9 (univariate constructor).  The constructor for univariate potentials
    throws [InvalidParameterException] exactly when the threshold is
    [<= 0], or a marginal vector has not [numVariables()] entries, or some
    potential of the manager is not in group [atypeUnivariate]. *)
Theorem FactorizedEPDriver_univariate_checks
    (pepPots : list (EPScalarPotential num)) (pepRepr : Univ)
    (pmargBeta pmargPi : list num) (ppiMinThres : num) (pepMaxPi : option M) :
  FactorizedEPDriver_univariate stray pepPots pepRepr pmargBeta pmargPi
    ppiMinThres pepMaxPi = inl InvalidParameterException
  <->
  (ppiMinThres <=? c_0) = true \/
  length pmargBeta <> numVariables pepRepr \/
  length pmargPi <> numVariables pepRepr \/
  exists pot, pot ∈ pepPots /\ getArgumentGroup pot <> atypeUnivariate.
Proof.
  unfold FactorizedEPDriver_univariate.
  rewrite <- (not_all_group pepPots atypeUnivariate).
  rewrite <- !Nat.eqb_neq.
  destruct (ppiMinThres <=? c_0), (Nat.eqb (length pmargBeta) _),
    (Nat.eqb (length pmargPi) _), (Nat.eqb (length pepPots) _); cbn;
    intuition discriminate.
Qed.

(** X10 (bivariate constructor).  The constructor for bivariate precision
    potentials throws [InvalidParameterException] exactly when one of the
    three thresholds is [<= 0], or a marginal vector of x has not
    [numVariables()] entries, or one of tau has not [numPrecVars()]
    entries, or some potential is not in group [atypeBivarPrec]. *)
Theorem FactorizedEPDriver_bivarPrec_checks
    (pepPots : list (EPScalarPotential num)) (pepRepr : Bivar)
    (pmargBeta pmargPi pmargA pmargC : list num)
    (ppiMinThres paMinThres pcMinThres : num)
    (pepMaxPi pepMaxA pepMaxC : option M) :
  FactorizedEPDriver_bivarPrec pepPots pepRepr pmargBeta pmargPi pmargA pmargC
    ppiMinThres paMinThres pcMinThres pepMaxPi pepMaxA pepMaxC
    = inl InvalidParameterException
  <->
  (ppiMinThres <=? c_0) = true \/ (paMinThres <=? c_0) = true \/
  (pcMinThres <=? c_0) = true \/
  length pmargBeta <> numVariables (rep_base pepRepr) \/
  length pmargPi <> numVariables (rep_base pepRepr) \/
  length pmargA <> numPrecVars pepRepr \/
  length pmargC <> numPrecVars pepRepr \/
  exists pot, pot ∈ pepPots /\ getArgumentGroup pot <> atypeBivarPrec.
Proof.
  unfold FactorizedEPDriver_bivarPrec.
  rewrite <- (not_all_group pepPots atypeBivarPrec).
  rewrite <- !Nat.eqb_neq.
  destruct (ppiMinThres <=? c_0), (paMinThres <=? c_0), (pcMinThres <=? c_0),
    (Nat.eqb (length pmargBeta) _), (Nat.eqb (length pmargPi) _),
    (Nat.eqb (length pmargA) _), (Nat.eqb (length pmargC) _),
    (Nat.eqb (length pepPots) _); cbn; intuition discriminate.
Qed.

Lemma group_matches_manager (pots : list (EPScalarPotential num)) (d : Driver)
    (j : nat) (g : ArgumentGroup) :
  Forall (fun pot => getArgumentGroup pot = g) pots ->
  (j < length pots)%nat ->
  hasBVPrec d = match g with atypeUnivariate => false | atypeBivarPrec => true end ->
  group_matches (manager_of pots) d j = true.
Proof.
  intros Hall Hj Hmode. unfold group_matches, manager_of. cbn [getPot].
  destruct (lookup_lt_is_Some_2 _ _ Hj) as [pot Hpot]. rewrite Hpot.
  rewrite Forall_forall in Hall.
  rewrite (Hall pot (list_elem_of_lookup_2 _ _ _ Hpot)), Hmode.
  by destruct g.
Qed.

(** X11 (the assertion holds on a univariate driver).  On a driver that the
    univariate constructor has built, and after any run of calls, the
    condition that [sequentialUpdate] asserts on entry holds for every [j]
    below the number of potentials: potential [j] is of group
    [atypeUnivariate] and the driver has no representation of the
    precisions.  Row [j] of the representation is there for every [j] below
    the number of rows. *)
Theorem univariate_driver_assertion_holds
    (pepPots : list (EPScalarPotential num)) (pepRepr : Univ)
    (pmargBeta pmargPi : list num) (ppiMinThres : num) (pepMaxPi : option M)
    (d : Driver) (calls : list (nat * num)) (j : nat) :
  FactorizedEPDriver_univariate stray pepPots pepRepr pmargBeta pmargPi
    ppiMinThres pepMaxPi = inr d ->
  (j < length pepPots)%nat ->
  let d' := after_updates stray (manager_of pepPots) d calls in
  group_matches (manager_of pepPots) d' j = true /\
  (exists pot, getPot (manager_of pepPots) j = Some pot /\
     getArgumentGroup pot = atypeUnivariate) /\
  hasBVPrec d' = false /\
  ((j < length (rep_rows pepRepr))%nat -> is_Some (epRepr d' !! j)).
Proof.
  intros Hc Hj d'.
  pose proof (after_updates_same_shape stray (manager_of pepPots) d calls)
    as (Hlen & _ & _ & _ & Hprec & _).
  fold d' in Hlen, Hprec.
  unfold FactorizedEPDriver_univariate in Hc.
  destruct ((ppiMinThres <=? c_0) || _ || _); [discriminate|].
  destruct (Nat.eqb (length pepPots) _) eqn:Eall; [|discriminate].
  cbn [negb] in Hc. injection Hc as <-. cbn [epRepr epReprPrec] in *.
  apply Nat.eqb_eq, numArgumentGroup_all in Eall.
  assert (Hbv : hasBVPrec d' = false) by (unfold hasBVPrec; by rewrite Hprec).
  split; [by apply (group_matches_manager pepPots d' j atypeUnivariate)|].
  split.
  - destruct (lookup_lt_is_Some_2 _ _ Hj) as [pot Hpot]. exists pot.
    split; [exact Hpot|]. rewrite Forall_forall in Eall.
    apply Eall. by eapply list_elem_of_lookup_2.
  - split; [exact Hbv|]. intros Hrow. apply lookup_lt_is_Some_2. lia.
Qed.

(** X12 (the assertion holds on a bivariate driver).  The same for a driver
    that the bivariate constructor has built: potential [j] is of group
    [atypeBivarPrec] and the driver has the representation of the
    precisions, whose row [j] is there for every [j] below their number. *)
Theorem bivarPrec_driver_assertion_holds
    (pepPots : list (EPScalarPotential num)) (pepRepr : Bivar)
    (pmargBeta pmargPi pmargA pmargC : list num)
    (ppiMinThres paMinThres pcMinThres : num)
    (pepMaxPi pepMaxA pepMaxC : option M)
    (d : Driver) (calls : list (nat * num)) (j : nat) :
  FactorizedEPDriver_bivarPrec pepPots pepRepr pmargBeta pmargPi pmargA pmargC
    ppiMinThres paMinThres pcMinThres pepMaxPi pepMaxA pepMaxC = inr d ->
  (j < length pepPots)%nat ->
  let d' := after_updates stray (manager_of pepPots) d calls in
  group_matches (manager_of pepPots) d' j = true /\
  (exists pot, getPot (manager_of pepPots) j = Some pot /\
     getArgumentGroup pot = atypeBivarPrec) /\
  hasBVPrec d' = true /\
  ((j < length (rep_rows (rep_base pepRepr)))%nat -> is_Some (epRepr d' !! j)) /\
  ((j < length (rep_tau pepRepr))%nat -> is_Some (epReprPrec d' ≫= (.!! j))).
Proof.
  intros Hc Hj d'.
  pose proof (after_updates_same_shape stray (manager_of pepPots) d calls)
    as (Hlen & _ & _ & _ & Hprec & _).
  fold d' in Hlen, Hprec.
  unfold FactorizedEPDriver_bivarPrec in Hc.
  destruct ((ppiMinThres <=? c_0) || _ || _ || _ || _ || _ || _); [discriminate|].
  destruct (Nat.eqb (length pepPots) _) eqn:Eall; [|discriminate].
  cbn [negb] in Hc. injection Hc as <-. cbn [epRepr epReprPrec] in *.
  apply Nat.eqb_eq, numArgumentGroup_all in Eall.
  assert (Hbv : hasBVPrec d' = true) by (unfold hasBVPrec; by rewrite Hprec).
  split; [by apply (group_matches_manager pepPots d' j atypeBivarPrec)|].
  split.
  - destruct (lookup_lt_is_Some_2 _ _ Hj) as [pot Hpot]. exists pot.
    split; [exact Hpot|]. rewrite Forall_forall in Eall.
    apply Eall. by eapply list_elem_of_lookup_2.
  - split; [exact Hbv|]. split.
    + intros Hrow. apply lookup_lt_is_Some_2. lia.
    + intros Htau. rewrite Hprec. cbn. by apply lookup_lt_is_Some_2.
Qed.

(** X13 (a univariate driver stays one).  After any run of calls on a driver
    that the univariate constructor has built, the marginal vectors still
    have [numVariables()] entries, the threshold is the one given and not
    [<= 0], the rows have the index sets and coefficients they had, and the
    marginals of tau cannot be had: [getMarginalsA] and [getMarginalsC]
    throw [WrongStatusException]. *)
Theorem univariate_driver_lifetime
    (pepPots : list (EPScalarPotential num)) (pepRepr : Univ)
    (pmargBeta pmargPi : list num) (ppiMinThres : num) (pepMaxPi : option M)
    (d : Driver) (epPots : PotentialManager) (calls : list (nat * num)) :
  FactorizedEPDriver_univariate stray pepPots pepRepr pmargBeta pmargPi
    ppiMinThres pepMaxPi = inr d ->
  let d' := after_updates stray epPots d calls in
  length (getMarginalsPi d') = numVariables pepRepr /\
  length (getMarginalsBeta d') = numVariables pepRepr /\
  piMinThres d' = ppiMinThres /\ (piMinThres d' <=? c_0) = false /\
  length (epRepr d') = length (rep_rows pepRepr) /\
  (forall j r, rep_rows pepRepr !! j = Some r ->
     exists r', epRepr d' !! j = Some r' /\
       vjInd r' = vjInd r /\ bP r' = bP r /\
       length (piP r') = length (piP r) /\
       length (betaP r') = length (betaP r)) /\
  getMarginalsA d' = inl WrongStatusException /\
  getMarginalsC d' = inl WrongStatusException.
Proof.
  intros Hc d'.
  pose proof (after_updates_same_shape stray epPots d calls)
    as (Hlen & Hrows & HlP & HlB & Hprec & _ & _ & Hthr & _).
  fold d' in Hlen, Hrows, HlP, HlB, Hprec, Hthr.
  unfold FactorizedEPDriver_univariate in Hc.
  destruct (ppiMinThres <=? c_0) eqn:Et; [discriminate|].
  destruct (Nat.eqb (length pmargBeta) _) eqn:E1; [|discriminate].
  destruct (Nat.eqb (length pmargPi) _) eqn:E2; [|discriminate].
  destruct (Nat.eqb (length pepPots) _); [|discriminate].
  cbn in Hc. injection Hc as <-. cbn in Hlen, HlP, HlB, Hprec, Hthr.
  apply Nat.eqb_eq in E1, E2.
  unfold getMarginalsPi, getMarginalsBeta, getMarginalsA, getMarginalsC,
    hasBVPrec.
  rewrite Hprec, Hthr, HlP, HlB, Hlen, Et. repeat split; try assumption.
  intros j r Hr.
  assert (Hlt : (j < length (epRepr d'))%nat)
    by (rewrite Hlen; by eapply lookup_lt_Some).
  destruct (lookup_lt_is_Some_2 _ _ Hlt) as [r' Hr']. exists r'.
  split; [exact Hr'|].
  specialize (Hrows j). unfold row_of in Hrows. cbn [epRepr] in Hrows.
  rewrite Hr', Hr in Hrows. exact Hrows.
Qed.

(** X14 (the marginals of tau stay as given).  After any run of calls on a
    driver that the bivariate constructor has built, [getMarginalsA] and
    [getMarginalsC] return the vectors handed to the constructor, with
    [numPrecVars()] entries: no call writes them.  The three thresholds are
    the ones given, none of them [<= 0]. *)
Theorem bivarPrec_driver_lifetime
    (pepPots : list (EPScalarPotential num)) (pepRepr : Bivar)
    (pmargBeta pmargPi pmargA pmargC : list num)
    (ppiMinThres paMinThres pcMinThres : num)
    (pepMaxPi pepMaxA pepMaxC : option M)
    (d : Driver) (epPots : PotentialManager) (calls : list (nat * num)) :
  FactorizedEPDriver_bivarPrec pepPots pepRepr pmargBeta pmargPi pmargA pmargC
    ppiMinThres paMinThres pcMinThres pepMaxPi pepMaxA pepMaxC = inr d ->
  let d' := after_updates stray epPots d calls in
  getMarginalsA d' = inr pmargA /\ getMarginalsC d' = inr pmargC /\
  length pmargA = numPrecVars pepRepr /\ length pmargC = numPrecVars pepRepr /\
  length (getMarginalsPi d') = numVariables (rep_base pepRepr) /\
  length (getMarginalsBeta d') = numVariables (rep_base pepRepr) /\
  piMinThres d' = ppiMinThres /\ aMinThres d' = paMinThres /\
  cMinThres d' = pcMinThres /\
  (ppiMinThres <=? c_0) = false /\ (paMinThres <=? c_0) = false /\
  (pcMinThres <=? c_0) = false.
Proof.
  intros Hc d'.
  pose proof (after_updates_same_shape stray epPots d calls)
    as (_ & _ & HlP & HlB & Hprec & HA & HC & Hthr & HthrA & HthrC & _).
  fold d' in HlP, HlB, Hprec, HA, HC, Hthr, HthrA, HthrC.
  unfold FactorizedEPDriver_bivarPrec in Hc.
  destruct (ppiMinThres <=? c_0) eqn:Et; [discriminate|].
  destruct (Nat.eqb (length pmargBeta) _) eqn:E1; [|discriminate].
  destruct (Nat.eqb (length pmargPi) _) eqn:E2; [|discriminate].
  destruct (paMinThres <=? c_0) eqn:Eta; [discriminate|].
  destruct (pcMinThres <=? c_0) eqn:Etc; [discriminate|].
  destruct (Nat.eqb (length pmargA) _) eqn:E3; [|discriminate].
  destruct (Nat.eqb (length pmargC) _) eqn:E4; [|discriminate].
  destruct (Nat.eqb (length pepPots) _); [|discriminate].
  cbn in Hc. injection Hc as <-.
  cbn in HlP, HlB, Hprec, HA, HC, Hthr, HthrA, HthrC.
  apply Nat.eqb_eq in E1, E2, E3, E4.
  unfold getMarginalsPi, getMarginalsBeta, getMarginalsA, getMarginalsC,
    hasBVPrec.
  rewrite Hprec, HA, HC, Hthr, HthrA, HthrC, HlP, HlB.
  repeat split; assumption.
Qed.

End Constructed.

Section NotANumber.

Context {M : Type} `{MaximumValuesService float M}.
Variable stray : float.

Local Abbreviation rds := (rd stray).
Local Abbreviation Driver := (Driver float M).
Local Abbreviation PotentialManager := (PotentialManager float).

Local Open Scope dbl_scope.

(** Every comparison with NaN is false. *)
Lemma ltb_nan_l (x : float) : (nan <? x) = false.
Proof.
  cbn [ltb binary64]. rewrite ltb_spec.
  change (Prim2SF nan) with S754_nan. reflexivity.
Qed.

Lemma ltb_nan_r (x : float) : (x <? nan) = false.
Proof.
  cbn [ltb binary64]. rewrite ltb_spec.
  change (Prim2SF nan) with S754_nan.
  unfold SFltb, SFcompare. by destruct (Prim2SF x) as [[]|[]| |[]].
Qed.

Lemma leb_nan_l (x : float) : (nan <=? x) = false.
Proof.
  cbn [leb binary64]. rewrite leb_spec.
  change (Prim2SF nan) with S754_nan. reflexivity.
Qed.

Lemma leb_nan_r (x : float) : (x <=? nan) = false.
Proof.
  cbn [leb binary64]. rewrite leb_spec.
  change (Prim2SF nan) with S754_nan.
  unfold SFleb, SFcompare. by destruct (Prim2SF x) as [[]|[]| |[]].
Qed.

Lemma damping_upto_nan (d : Driver) (j : nat) res n :
  damping_upto stray d j res nan n = inr nan \/
  exists s, damping_upto stray d j res nan n = inl s.
Proof.
  induction n as [|n IH]; [by left|].
  cbn [damping_upto]. destruct IH as [-> | [s ->]]; [|right; by exists s].
  unfold clamp_step.
  destruct (und stray d j res n); [|right; by eexists].
  destruct (epMaxPi d) as [mx|]; [|by left].
  destruct (decreases stray d j res n); [|by left].
  destruct (getMaxValue mx (var_at d j n) <=? c_0); [right; by eexists|].
  destruct (one_minus_eta stray d mx j res n <=? c_002); [right; by eexists|].
  left. unfold std_max. by rewrite ltb_nan_l.
Qed.

Lemma eff_damping_nan (d : Driver) (j : nat) res deff :
  eff_damping stray d j res nan = inr deff -> deff = nan.
Proof.
  unfold eff_damping.
  destruct (damping_upto_nan d j res (vjSz_of d j)) as [-> | [s ->]];
    [|discriminate].
  unfold bivar_clamp_fun.
  destruct (hasBVPrec d); [|congruence].
  destruct (epMaxA d) as [mxA|]; [|congruence].
  destruct (rds res 2 - cavA stray d j <? aP (tauRow_of stray d j));
    [|congruence].
  destruct (bivar_temp stray d mxA j res <=? c_002); [discriminate|].
  unfold std_max. rewrite ltb_nan_l. congruence.
Qed.

(** X15 (NaN as damping factor).  The test [dampFact<0.0 || dampFact>=1.0]
    lets NaN through: the call does not throw.  It then runs as an update
    that selective damping can skip but cannot damp: on success every
    message of the row is its undamped value, and the effective damping
    factor reported is NaN. *)
Theorem sequentialUpdate_nan_dampFact (epPots : PotentialManager)
    (d : Driver) (j : nat) (delta effDamp : bool) :
  let r := sequentialUpdate stray epPots d j nan delta effDamp in
  let row := row_of d j in
  r.2 <> Thrown InvalidParameterException /\
  (r.2 = Returned updSuccess ->
   (effDamp = true -> out_effDamp r.1 = Some nan) /\
   forall ii, (ii < length (vjInd row))%nat ->
     exists res prPi prBeta,
       oracle_answer stray epPots d j = Some res /\
       undampedUpdate (rds (bP row) ii)
         (rds (margPi d) (var_at d j ii) - rds (piP row) ii)
         (rds (margBeta d) (var_at d j ii) - rds (betaP row) ii)
         (rds res 0) (rds res 1) = Some (prPi, prBeta) /\
       ((ii < length (piP row))%nat ->
        rds (piP (row_of (drv r.1) j)) ii = prPi) /\
       ((ii < length (betaP row))%nat ->
        rds (betaP (row_of (drv r.1) j)) ii = prBeta)).
Proof.
  intros r row. split.
  - unfold r. rewrite outcome_refines. unfold sequentialUpdate_fun.
    rewrite ltb_nan_l, leb_nan_r. cbn [orb].
    repeat match goal with
           | |- context [if ?c then _ else _] => destruct c
           | |- context [match ?c with _ => _ end] => destruct c
           end; discriminate.
  - intros Hs.
    destruct (success_inv _ _ _ _ _ _ _ Hs)
      as (res & deff & _ & _ & Hres & Hd & _ & _ & Heff).
    pose proof (eff_damping_nan _ _ _ _ Hd) as ->.
    split; [intros ->; exact Heff|].
    intros ii Hii.
    destruct (success_messages _ epPots d j nan delta effDamp res Hs Hres)
      as (deff & Hd' & Hall).
    assert (deff = nan) by congruence. subst deff.
    destruct (Hall ii Hii) as (prPi & prBeta & Hu & HP & HB).
    exists res, prPi, prBeta. split; [exact Hres|]. split; [exact Hu|].
    unfold damp in HP, HB. rewrite ltb_nan_r in HP, HB. by split.
Qed.

End NotANumber.

Section NaNThreshold.

Context {M : Type} `{MaximumValuesService float M}.
Variable stray : float.

Local Abbreviation rds := (rd stray).
Local Abbreviation Driver := (Driver float M).
Local Abbreviation PotentialManager := (PotentialManager float).

Local Open Scope dbl_scope.

Lemma nan_threshold_checks (d : Driver) (j : nat) :
  piMinThres d = nan -> hasBVPrec d = false ->
  cavity_invalid stray d j = false /\
  forall res deff, marginals_invalid stray d j res deff = false.
Proof.
  intros Ht Hbv.
  assert (Ht2 : thres2_of d = nan) by (unfold thres2_of; by rewrite Ht).
  split.
  - unfold cavity_invalid, cavity_tau_invalid, cavity_pi_invalid.
    rewrite Hbv, Ht2. cbn [andb]. rewrite orb_false_r.
    apply existsb_seq_false. intros t _. apply ltb_nan_r.
  - intros res deff. unfold marginals_invalid. rewrite Ht2.
    apply existsb_seq_false. intros t _. apply ltb_nan_r.
Qed.

(** X16 (NaN as threshold).  The test [ppiMinThres<=0.0] of the constructor
    lets NaN through.  A driver built with it never returns
    [updCavityInvalid] or [updMarginalsInvalid]: both checks compare with
    0.5*NaN and are never met. *)
Theorem univariate_driver_nan_threshold
    (pepPots : list (EPScalarPotential float))
    (pepRepr : FactorizedEPRepresentation float)
    (pmargBeta pmargPi : list float) (pepMaxPi : option M) :
  length pmargBeta = numVariables pepRepr ->
  length pmargPi = numVariables pepRepr ->
  Forall (fun pot => getArgumentGroup pot = atypeUnivariate) pepPots ->
  exists d : Driver,
    FactorizedEPDriver_univariate stray pepPots pepRepr pmargBeta pmargPi
      nan pepMaxPi = inr d /\
    forall (epPots : PotentialManager) (calls : list (nat * float))
           (j : nat) (dampFact : float) (delta effDamp : bool),
      let r := sequentialUpdate stray epPots
                 (after_updates stray epPots d calls) j dampFact delta effDamp in
      r.2 <> Returned updCavityInvalid /\
      r.2 <> Returned updMarginalsInvalid.
Proof.
  intros HlB HlP Hall.
  unfold FactorizedEPDriver_univariate.
  rewrite leb_nan_l, HlB, HlP, Nat.eqb_refl. cbn [negb orb].
  apply numArgumentGroup_all in Hall. rewrite <- Hall, Nat.eqb_refl.
  cbn [negb]. eexists. split; [reflexivity|].
  intros epPots calls j dampFact delta effDamp.
  match goal with
  | |- context [after_updates stray epPots ?d0 calls] =>
      pose proof (after_updates_same_shape stray epPots d0 calls)
        as (_ & _ & _ & _ & Hprec & _ & _ & Hthr & _);
      set (d' := after_updates stray epPots d0 calls) in *
  end.
  cbn in Hprec, Hthr.
  set (r := sequentialUpdate stray epPots d' j dampFact delta effDamp).
  assert (Hbv : hasBVPrec d' = false) by (unfold hasBVPrec; by rewrite Hprec).
  destruct (nan_threshold_checks d' j Hthr Hbv) as [Hcav Hmarg].
  destruct r.2 as [s| |] eqn:Hs; [|split; discriminate..].
  destruct (returns_inv _ _ _ _ _ _ _ _ Hs) as [_ Hc].
  unfold r in Hs. rewrite outcome_refines in Hs.
  destruct Hc as [Hc|Hc Ho|res s' Hc Ho Hd|res deff Hc Ho Hd Hm|res deff Hc Ho Hd Hm];
    cbn [r_outcome failed] in Hs; injection Hs as <-.
  - congruence.
  - split; discriminate.
  - destruct (eff_damping_status _ _ _ _ _ _ Hd); subst s'; split; discriminate.
  - rewrite Hmarg in Hm. discriminate.
  - split; discriminate.
Qed.

End NaNThreshold.

Section EmptyRow.
Context {num : Type} `{Double num}.
Context {M : Type} `{MaximumValuesService num M}.
Variable stray : num.

Local Abbreviation rds := (rd stray).
Local Abbreviation Driver := (Driver num M).
Local Abbreviation Row := (Row num).
Local Abbreviation Mem := (Mem num M).
Local Abbreviation Exec := (Exec num M).
Local Abbreviation PotentialManager := (PotentialManager num).

Local Open Scope dbl_scope.

Lemma commit_nothing (d : Driver) (j : nat) res deff :
  epRepr d !! j = Some (row_of d j) ->
  commit_fun stray d j res deff 0 = observable d.
Proof.
  intros Hj. unfold commit_fun, observable, set_buffVec. cbn [scatter].
  assert (Hrow : commit_row stray d j res deff 0 = row_of d j)
    by (unfold commit_row; cbn [scatter]; by destruct (row_of d j)).
  rewrite Hrow, list_insert_id by exact Hj.
  by destruct (epMaxPi d).
Qed.

(** X17 (a factor without variables).  In univariate mode, for a factor whose
    V_j is empty, the potential is asked about the moments (0, 0).  If it
    answers, the call returns [updSuccess], leaves the driver as it was and
    reports the damping factor it was given; if it does not, the call
    returns [updNumericalError]. *)
Theorem sequentialUpdate_empty_row (epPots : PotentialManager)
    (d : Driver) (j : nat) (dampFact : num) (delta effDamp : bool)
    (row : Row) (pot : EPScalarPotential num) :
  let r := sequentialUpdate stray epPots d j dampFact delta effDamp in
  hasBVPrec d = false ->
  epRepr d !! j = Some row -> vjInd row = [] ->
  getPot epPots j = Some pot -> getArgumentGroup pot = atypeUnivariate ->
  (dampFact <? c_0) = false -> (c_1 <=? dampFact) = false ->
  oracle_calls r.1 = [(j, [c_0; c_0])] /\
  observable (drv r.1) = observable d /\
  match compMoments pot [c_0; c_0] with
  | None => r.2 = Returned updNumericalError
  | Some _ =>
      r.2 = Returned updSuccess /\
      (effDamp = true -> out_effDamp r.1 = Some dampFact) /\
      (delta = true ->
       out_delta r.1 =
       Some (std_max (MAXRELDIFF c_0 c_0) (MAXRELDIFF (sqrt c_0) (sqrt c_0))))
  end.
Proof.
  intros r Hbv Hj Hv Hpot Hgrp Hlo Hhi.
  assert (Hrow : row_of d j = row) by (unfold row_of; by rewrite Hj).
  assert (Hsz : vjSz_of d j = 0%nat) by (unfold vjSz_of; by rewrite Hrow, Hv).
  assert (Hjr : epRepr d !! j = Some (row_of d j)) by congruence.
  unfold r. rewrite calls_refines, driver_refines, outcome_refines,
    effDamp_refines, delta_refines.
  unfold sequentialUpdate_fun, entry_ok, group_matches.
  rewrite Hpot, Hgrp, Hbv, Hlo, Hhi. cbn [negb orb andb].
  assert (His : is_Some (epRepr d !! j)) by (rewrite Hj; eauto).
  rewrite (bool_decide_eq_true_2 _ His). cbn [negb andb].
  unfold cavity_invalid, cavity_pi_invalid, cavity_tau_invalid, oracle_answer,
    oracle_input, eff_damping, bivar_clamp_fun, marginals_invalid, delta_fun.
  rewrite Hsz, Hbv, Hpot. cbn [seq existsb orb andb cav_acc l_cH l_cRho l_mH
    l_mRho damping_upto mpr_acc fst snd mbind option_bind].
  destruct (compMoments pot [c_0; c_0]) as [res|]; cbn.
  - rewrite commit_nothing by exact Hjr.
    repeat split; by intros ->.
  - repeat split.
Qed.

End EmptyRow.

Section DefinedReads.

Context {num : Type} `{Double num}.
Context {M : Type} `{MaximumValuesService num M}.

(** Two values for the undefined reads. *)
Variables stray1 stray2 : num.

Local Abbreviation Driver := (Driver num M).
Local Abbreviation PotentialManager := (PotentialManager num).

Local Open Scope dbl_scope.

Variable d : Driver.
Variable j : nat.

(** Row [j] has arrays of one length and indices into the marginals. *)
Hypothesis Hbv : hasBVPrec d = false.
Hypothesis HlenB : length (bP (row_of d j)) = vjSz_of d j.
Hypothesis HlenPi : length (piP (row_of d j)) = vjSz_of d j.
Hypothesis HlenBeta : length (betaP (row_of d j)) = vjSz_of d j.
Hypothesis Hin :
  Forall (fun i => i < length (margPi d) /\ i < length (margBeta d))%nat
         (vjInd (row_of d j)).

Lemma rd_defined (l : list num) (i : nat) :
  (i < length l)%nat -> rd stray1 l i = rd stray2 l i.
Proof.
  intros Hi. unfold rd. by destruct (lookup_lt_is_Some_2 l i Hi) as [x ->].
Qed.

Lemma var_at_range (ii : nat) :
  (ii < vjSz_of d j)%nat ->
  (var_at d j ii < length (margPi d))%nat /\
  (var_at d j ii < length (margBeta d))%nat.
Proof.
  intros Hii. rewrite Forall_forall in Hin. apply Hin. by apply var_at_elem.
Qed.

Lemma cavPi_defined (ii : nat) :
  (ii < vjSz_of d j)%nat -> cavPi stray1 d j ii = cavPi stray2 d j ii.
Proof.
  intros Hii. unfold cavPi, mPi_at, pi_at.
  rewrite (rd_defined (margPi d)) by (by apply var_at_range).
  rewrite (rd_defined (piP _)) by lia. reflexivity.
Qed.

Lemma cavBeta_defined (ii : nat) :
  (ii < vjSz_of d j)%nat -> cavBeta stray1 d j ii = cavBeta stray2 d j ii.
Proof.
  intros Hii. unfold cavBeta, mBeta_at, beta_at.
  rewrite (rd_defined (margBeta d)) by (by apply var_at_range).
  rewrite (rd_defined (betaP _)) by lia. reflexivity.
Qed.

Lemma b_at_defined (ii : nat) :
  (ii < vjSz_of d j)%nat -> b_at stray1 d j ii = b_at stray2 d j ii.
Proof. intros Hii. unfold b_at. apply rd_defined. lia. Qed.

Lemma cav_acc_defined (n : nat) :
  (n <= vjSz_of d j)%nat -> cav_acc stray1 d j n = cav_acc stray2 d j n.
Proof.
  induction n as [|n IH]; intros Hn; [reflexivity|].
  cbn [cav_acc]. rewrite IH by lia. unfold mPi_at, mBeta_at.
  rewrite b_at_defined, cavPi_defined, cavBeta_defined by lia.
  rewrite (rd_defined (margPi d)) by (apply var_at_range; lia).
  rewrite (rd_defined (margBeta d)) by (apply var_at_range; lia).
  reflexivity.
Qed.

Lemma cavity_invalid_defined :
  cavity_invalid stray1 d j = cavity_invalid stray2 d j.
Proof.
  unfold cavity_invalid, cavity_tau_invalid, cavity_pi_invalid.
  rewrite Hbv. cbn [andb]. f_equal.
  apply existsb_seq_ext. intros t Ht. by rewrite cavPi_defined.
Qed.

Lemma oracle_input_defined :
  oracle_input stray1 d j = oracle_input stray2 d j.
Proof.
  unfold oracle_input. rewrite Hbv, cav_acc_defined by lia. reflexivity.
Qed.

Variable res : list num.
Hypothesis Hres : (2 <= length res)%nat.

Lemma und_defined (ii : nat) :
  (ii < vjSz_of d j)%nat -> und stray1 d j res ii = und stray2 d j res ii.
Proof.
  intros Hii. unfold und.
  rewrite b_at_defined, cavPi_defined, cavBeta_defined by lia.
  rewrite !(rd_defined res) by lia. reflexivity.
Qed.

Lemma prPi_at_defined (ii : nat) :
  (ii < vjSz_of d j)%nat -> und stray1 d j res ii <> None ->
  prPi_at stray1 d j res ii = prPi_at stray2 d j res ii /\
  prBeta_at stray1 d j res ii = prBeta_at stray2 d j res ii.
Proof.
  intros Hii Hu. unfold prPi_at, prBeta_at.
  rewrite <- (und_defined ii Hii).
  by destruct (und stray1 d j res ii).
Qed.

Lemma clamp_step_defined (ii : nat) (dc : num) :
  (ii < vjSz_of d j)%nat ->
  clamp_step stray1 d j res ii dc = clamp_step stray2 d j res ii dc.
Proof.
  intros Hii. unfold clamp_step.
  rewrite <- (und_defined ii Hii).
  destruct (und stray1 d j res ii) as [p|] eqn:Eu; [|reflexivity].
  destruct (prPi_at_defined ii Hii) as [EP _]; [by rewrite Eu|].
  unfold decreases, one_minus_eta, pi_at, mPi_at.
  rewrite EP.
  rewrite (rd_defined (piP _)) by lia.
  rewrite (rd_defined (margPi d)) by (by apply var_at_range).
  reflexivity.
Qed.

Lemma damping_upto_defined (dampFact : num) (n : nat) :
  (n <= vjSz_of d j)%nat ->
  damping_upto stray1 d j res dampFact n = damping_upto stray2 d j res dampFact n.
Proof.
  induction n as [|n IH]; intros Hn; [reflexivity|].
  cbn [damping_upto]. rewrite IH by lia.
  destruct (damping_upto stray2 d j res dampFact n); [reflexivity|].
  apply clamp_step_defined. lia.
Qed.

Lemma eff_damping_defined (dampFact : num) :
  eff_damping stray1 d j res dampFact = eff_damping stray2 d j res dampFact.
Proof.
  unfold eff_damping, bivar_clamp_fun.
  rewrite damping_upto_defined, Hbv by lia. reflexivity.
Qed.

Variables dampFact deff : num.
Hypothesis Hdeff : eff_damping stray1 d j res dampFact = inr deff.

Lemma und_some (ii : nat) :
  (ii < vjSz_of d j)%nat -> und stray1 d j res ii <> None.
Proof.
  intros Hii. unfold eff_damping in Hdeff.
  destruct (damping_upto stray1 d j res dampFact (vjSz_of d j)) as [|dc] eqn:E;
    [discriminate|].
  destruct (damping_upto_inr_und stray1 d j res dampFact _ dc ii E Hii)
    as (prPi & prBeta & _ & Hu & _).
  by rewrite Hu.
Qed.

Lemma newPi_defined (ii : nat) :
  (ii < vjSz_of d j)%nat ->
  newPi stray1 d j res deff ii = newPi stray2 d j res deff ii /\
  newBeta stray1 d j res deff ii = newBeta stray2 d j res deff ii /\
  newMargPi stray1 d j res deff ii = newMargPi stray2 d j res deff ii /\
  newMargBeta stray1 d j res deff ii = newMargBeta stray2 d j res deff ii.
Proof.
  intros Hii.
  destruct (prPi_at_defined ii Hii (und_some ii Hii)) as [EP EB].
  unfold newMargPi, newMargBeta, newPi, newBeta, pi_at, beta_at.
  rewrite EP, EB, cavPi_defined, cavBeta_defined by lia.
  rewrite (rd_defined (piP _)), (rd_defined (betaP _)) by lia.
  repeat split.
Qed.

Lemma commit_row_defined (n : nat) :
  (n <= vjSz_of d j)%nat ->
  commit_row stray1 d j res deff n = commit_row stray2 d j res deff n.
Proof.
  intros Hn. unfold commit_row.
  rewrite (scatter_ext id (newBeta stray1 d j res deff)
             (newBeta stray2 d j res deff))
    by (intros t Ht; apply newPi_defined; lia).
  rewrite (scatter_ext id (newPi stray1 d j res deff)
             (newPi stray2 d j res deff))
    by (intros t Ht; apply newPi_defined; lia).
  reflexivity.
Qed.

Lemma commit_maxPi_defined (n : nat) (mx : M) :
  (n <= vjSz_of d j)%nat ->
  commit_maxPi stray1 d j res deff n mx = commit_maxPi stray2 d j res deff n mx.
Proof.
  induction n as [|n IH]; intros Hn; [reflexivity|].
  cbn [commit_maxPi]. rewrite IH, commit_row_defined by lia.
  rewrite rd_defined; [reflexivity|].
  cbn [piP commit_row]. rewrite length_scatter. lia.
Qed.

Lemma commit_fun_defined :
  commit_fun stray1 d j res deff (vjSz_of d j) =
  commit_fun stray2 d j res deff (vjSz_of d j).
Proof.
  unfold commit_fun.
  rewrite commit_row_defined by lia.
  rewrite (scatter_ext (var_at d j) (newMargBeta stray1 d j res deff)
             (newMargBeta stray2 d j res deff))
    by (intros t Ht; apply newPi_defined; lia).
  rewrite (scatter_ext (var_at d j) (newMargPi stray1 d j res deff)
             (newMargPi stray2 d j res deff))
    by (intros t Ht; apply newPi_defined; lia).
  destruct (epMaxPi d) as [mx|]; cbn [fmap option_fmap option_map];
    [rewrite commit_maxPi_defined by lia|]; reflexivity.
Qed.

Lemma mpr_acc_defined (n : nat) :
  (n <= vjSz_of d j)%nat ->
  mpr_acc stray1 d j res deff n = mpr_acc stray2 d j res deff n.
Proof.
  induction n as [|n IH]; intros Hn; [reflexivity|].
  cbn [mpr_acc]. rewrite IH, b_at_defined by lia.
  destruct (newPi_defined n ltac:(lia)) as (_ & _ & -> & ->). reflexivity.
Qed.

Lemma marginals_invalid_defined :
  marginals_invalid stray1 d j res deff = marginals_invalid stray2 d j res deff.
Proof.
  unfold marginals_invalid. apply existsb_seq_ext. intros t Ht.
  by destruct (newPi_defined t Ht) as (_ & _ & -> & _).
Qed.

Lemma delta_fun_defined :
  delta_fun stray1 d j res deff = delta_fun stray2 d j res deff.
Proof.
  unfold delta_fun. by rewrite cav_acc_defined, mpr_acc_defined by lia.
Qed.

End DefinedReads.

Section NoUndefinedRead.

Context {num : Type} `{Double num}.
Context {M : Type} `{MaximumValuesService num M}.

Local Abbreviation Driver := (Driver num M).
Local Abbreviation PotentialManager := (PotentialManager num).

Local Open Scope dbl_scope.

(** X20 (no undefined value is used).  In univariate mode, when the arrays of
    row [j] have the length of V_j, its indices lie inside the marginal
    vectors and the potential fills in both of its results, nothing that
    the call returns, leaves or reports depends on the value of an
    uninitialised variable or of an element outside an array. *)
Theorem sequentialUpdate_reads_defined (stray1 stray2 : num)
    (epPots : PotentialManager) (d : Driver) (j : nat) (dampFact : num)
    (delta effDamp : bool) :
  let row := row_of d j in
  let r1 := sequentialUpdate stray1 epPots d j dampFact delta effDamp in
  let r2 := sequentialUpdate stray2 epPots d j dampFact delta effDamp in
  hasBVPrec d = false ->
  length (bP row) = length (vjInd row) ->
  length (piP row) = length (vjInd row) ->
  length (betaP row) = length (vjInd row) ->
  Forall (fun i => i < length (margPi d) /\ i < length (margBeta d))%nat
         (vjInd row) ->
  (forall pot inp res, getPot epPots j = Some pot ->
     compMoments pot inp = Some res -> (2 <= length res)%nat) ->
  r1.2 = r2.2 /\
  observable (drv r1.1) = observable (drv r2.1) /\
  out_delta r1.1 = out_delta r2.1 /\
  out_effDamp r1.1 = out_effDamp r2.1 /\
  oracle_calls r1.1 = oracle_calls r2.1.
Proof.
  intros row r1 r2 Hbv HlB HlPi HlBeta Hin Hans.
  assert (E : result_of r1 = result_of r2).
  { unfold r1, r2. rewrite !sequentialUpdate_refines.
    unfold sequentialUpdate_fun, oracle_answer.
    rewrite (cavity_invalid_defined stray1 stray2 d j) by assumption.
    rewrite (oracle_input_defined stray1 stray2 d j) by assumption.
    destruct (group_matches epPots d j); [|reflexivity]. cbn [negb].
    destruct ((dampFact <? c_0) || (c_1 <=? dampFact)); [reflexivity|].
    destruct (entry_ok epPots d j dampFact); [|reflexivity]. cbn [negb].
    destruct (cavity_invalid stray2 d j); [reflexivity|].
    destruct (getPot epPots j) as [pot|] eqn:Epot; [|reflexivity].
    cbn [mbind option_bind].
    destruct (compMoments pot (oracle_input stray2 d j)) as [res|] eqn:Eres;
      [|reflexivity].
    pose proof (Hans pot _ res eq_refl Eres) as Hres.
    rewrite <- (eff_damping_defined stray1 stray2 d j) by assumption.
    destruct (eff_damping stray1 d j res dampFact) as [s|deff] eqn:Ed;
      [reflexivity|].
    rewrite <- (marginals_invalid_defined stray1 stray2 d j HlB HlPi HlBeta
                  Hin res Hres dampFact deff Ed).
    destruct (marginals_invalid stray1 d j res deff); [reflexivity|].
    rewrite (commit_fun_defined stray1 stray2 d j HlB HlPi HlBeta
               Hin res Hres dampFact deff Ed).
    rewrite (delta_fun_defined stray1 stray2 d j HlB HlPi HlBeta
               Hin res Hres dampFact deff Ed).
    reflexivity. }
  split; [exact (f_equal r_outcome E)|].
  split; [exact (f_equal r_driver E)|].
  split; [exact (f_equal r_delta E)|].
  split; [exact (f_equal r_effDamp E)|exact (f_equal r_calls E)].
Qed.

End NoUndefinedRead.

Section AgreeOn.
Context {num : Type} `{Double num}.
Context {M : Type} `{MaximumValuesService num M}.
Variable stray : num.

Local Abbreviation rds := (rd stray).
Local Abbreviation Driver := (Driver num M).
Local Abbreviation Row := (Row num).
Local Abbreviation Mem := (Mem num M).
Local Abbreviation Exec := (Exec num M).
Local Abbreviation PotentialManager := (PotentialManager num).

Local Open Scope dbl_scope.

(** Two drivers that hold the same for all that a call on factor [j]
    reads. *)
Variables d d' : Driver.
Variable j : nat.

Hypothesis Hag : agree_on stray j d d'.

Lemma agree_row : row_of d' j = row_of d j.
Proof. apply Hag. Qed.

Lemma agree_exists : is_Some (epRepr d' !! j) <-> is_Some (epRepr d !! j).
Proof. apply Hag. Qed.

Lemma agree_prec : epReprPrec d' = epReprPrec d.
Proof. apply Hag. Qed.

Lemma agree_margA : margA d' = margA d.
Proof. apply Hag. Qed.

Lemma agree_margC : margC d' = margC d.
Proof. apply Hag. Qed.

Lemma agree_piMin : piMinThres d' = piMinThres d.
Proof. apply Hag. Qed.

Lemma agree_aMin : aMinThres d' = aMinThres d.
Proof. apply Hag. Qed.

Lemma agree_cMin : cMinThres d' = cMinThres d.
Proof. apply Hag. Qed.

Lemma agree_maxPi : epMaxPi d' = epMaxPi d.
Proof. apply Hag. Qed.

Lemma agree_maxA : epMaxA d' = epMaxA d.
Proof. apply Hag. Qed.

Lemma agree_margPi : forall ii, (ii < vjSz_of d j)%nat ->
  rds (margPi d') (var_at d j ii) = rds (margPi d) (var_at d j ii).
Proof. apply Hag. Qed.

Lemma agree_margBeta : forall ii, (ii < vjSz_of d j)%nat ->
  rds (margBeta d') (var_at d j ii) = rds (margBeta d) (var_at d j ii).
Proof. apply Hag. Qed.

Lemma agree_vjSz : vjSz_of d' j = vjSz_of d j.
Proof. unfold vjSz_of. by rewrite agree_row. Qed.

Lemma agree_var_at (ii : nat) : var_at d' j ii = var_at d j ii.
Proof. unfold var_at. by rewrite agree_row. Qed.

Lemma agree_b_at (ii : nat) : b_at stray d' j ii = b_at stray d j ii.
Proof. unfold b_at. by rewrite agree_row. Qed.

Lemma agree_pi_at (ii : nat) : pi_at stray d' j ii = pi_at stray d j ii.
Proof. unfold pi_at. by rewrite agree_row. Qed.

Lemma agree_beta_at (ii : nat) : beta_at stray d' j ii = beta_at stray d j ii.
Proof. unfold beta_at. by rewrite agree_row. Qed.

Lemma agree_mPi_at (ii : nat) :
  (ii < vjSz_of d j)%nat -> mPi_at stray d' j ii = mPi_at stray d j ii.
Proof. intros Hii. unfold mPi_at. rewrite agree_var_at. by apply agree_margPi. Qed.

Lemma agree_mBeta_at (ii : nat) :
  (ii < vjSz_of d j)%nat -> mBeta_at stray d' j ii = mBeta_at stray d j ii.
Proof. intros Hii. unfold mBeta_at. rewrite agree_var_at. by apply agree_margBeta. Qed.

Lemma agree_cavPi (ii : nat) :
  (ii < vjSz_of d j)%nat -> cavPi stray d' j ii = cavPi stray d j ii.
Proof. intros Hii. unfold cavPi. by rewrite agree_mPi_at, agree_pi_at. Qed.

Lemma agree_cavBeta (ii : nat) :
  (ii < vjSz_of d j)%nat -> cavBeta stray d' j ii = cavBeta stray d j ii.
Proof. intros Hii. unfold cavBeta. by rewrite agree_mBeta_at, agree_beta_at. Qed.

Lemma agree_cav_acc (n : nat) :
  (n <= vjSz_of d j)%nat -> cav_acc stray d' j n = cav_acc stray d j n.
Proof.
  induction n as [|n IH]; intros Hn; [reflexivity|].
  cbn [cav_acc]. rewrite IH by lia.
  by rewrite agree_b_at, agree_cavPi, agree_cavBeta, agree_mPi_at,
    agree_mBeta_at by lia.
Qed.

Lemma agree_hasBVPrec : hasBVPrec d' = hasBVPrec d.
Proof. unfold hasBVPrec. by rewrite agree_prec. Qed.

Lemma agree_tauRow : tauRow_of stray d' j = tauRow_of stray d j.
Proof. unfold tauRow_of. by rewrite agree_prec. Qed.

Lemma agree_cavA : cavA stray d' j = cavA stray d j.
Proof. unfold cavA. by rewrite agree_tauRow, agree_margA. Qed.

Lemma agree_cavC : cavC stray d' j = cavC stray d j.
Proof. unfold cavC. by rewrite agree_tauRow, agree_margC. Qed.

Lemma agree_thres2 : thres2_of d' = thres2_of d.
Proof. unfold thres2_of. by rewrite agree_piMin. Qed.

Lemma agree_cavity_invalid :
  cavity_invalid stray d' j = cavity_invalid stray d j.
Proof.
  unfold cavity_invalid, cavity_tau_invalid, cavity_pi_invalid.
  rewrite agree_hasBVPrec, agree_cavA, agree_cavC, agree_aMin, agree_cMin, agree_vjSz,
    agree_thres2.
  f_equal. apply existsb_seq_ext. intros t Ht. by rewrite agree_cavPi.
Qed.

Lemma agree_oracle_input : oracle_input stray d' j = oracle_input stray d j.
Proof.
  unfold oracle_input.
  by rewrite agree_vjSz, agree_cav_acc, agree_hasBVPrec, agree_cavA, agree_cavC
    by lia.
Qed.

Lemma agree_group_matches (epPots : PotentialManager) :
  group_matches epPots d' j = group_matches epPots d j.
Proof. unfold group_matches. by rewrite agree_hasBVPrec. Qed.

Lemma agree_entry_ok (epPots : PotentialManager) (dampFact : num) :
  entry_ok epPots d' j dampFact = entry_ok epPots d j dampFact.
Proof.
  unfold entry_ok. rewrite agree_group_matches, agree_hasBVPrec, agree_prec.
  f_equal. f_equal. apply bool_decide_ext, agree_exists.
Qed.

Variable res : list num.

Lemma agree_und (ii : nat) :
  (ii < vjSz_of d j)%nat -> und stray d' j res ii = und stray d j res ii.
Proof.
  intros Hii. unfold und. by rewrite agree_b_at, agree_cavPi, agree_cavBeta.
Qed.

Lemma agree_prPi_at (ii : nat) :
  (ii < vjSz_of d j)%nat ->
  prPi_at stray d' j res ii = prPi_at stray d j res ii /\
  prBeta_at stray d' j res ii = prBeta_at stray d j res ii.
Proof. intros Hii. unfold prPi_at, prBeta_at. by rewrite agree_und. Qed.

Lemma agree_clamp_step (ii : nat) (dc : num) :
  (ii < vjSz_of d j)%nat ->
  clamp_step stray d' j res ii dc = clamp_step stray d j res ii dc.
Proof.
  intros Hii. unfold clamp_step, decreases, one_minus_eta.
  destruct (agree_prPi_at ii Hii) as [-> _].
  by rewrite agree_und, agree_maxPi, agree_pi_at, agree_var_at, agree_mPi_at, agree_piMin.
Qed.

Lemma agree_damping_upto (dampFact : num) (n : nat) :
  (n <= vjSz_of d j)%nat ->
  damping_upto stray d' j res dampFact n = damping_upto stray d j res dampFact n.
Proof.
  induction n as [|n IH]; intros Hn; [reflexivity|].
  cbn [damping_upto]. rewrite IH by lia.
  destruct (damping_upto stray d j res dampFact n); [reflexivity|].
  apply agree_clamp_step. lia.
Qed.

Lemma agree_eff_damping (dampFact : num) :
  eff_damping stray d' j res dampFact = eff_damping stray d j res dampFact.
Proof.
  unfold eff_damping, bivar_clamp_fun, bivar_temp, last_mPi, last_prPi.
  rewrite agree_vjSz, agree_damping_upto, agree_hasBVPrec, agree_maxA, agree_cavA,
    agree_tauRow, agree_pi_at, agree_piMin by lia.
  destruct (vjSz_of d j) as [|n] eqn:En; [reflexivity|].
  destruct (agree_prPi_at n ltac:(lia)) as [-> _].
  by rewrite agree_mPi_at by lia.
Qed.

Variable deff : num.

Lemma agree_new (ii : nat) :
  (ii < vjSz_of d j)%nat ->
  newPi stray d' j res deff ii = newPi stray d j res deff ii /\
  newBeta stray d' j res deff ii = newBeta stray d j res deff ii /\
  newMargPi stray d' j res deff ii = newMargPi stray d j res deff ii /\
  newMargBeta stray d' j res deff ii = newMargBeta stray d j res deff ii.
Proof.
  intros Hii. destruct (agree_prPi_at ii Hii) as [EP EB].
  unfold newMargPi, newMargBeta, newPi, newBeta.
  rewrite EP, EB, agree_cavPi, agree_cavBeta, agree_pi_at, agree_beta_at by lia.
  repeat split.
Qed.

Lemma agree_marginals_invalid :
  marginals_invalid stray d' j res deff = marginals_invalid stray d j res deff.
Proof.
  unfold marginals_invalid. rewrite agree_vjSz, agree_thres2.
  apply existsb_seq_ext. intros t Ht.
  by destruct (agree_new t Ht) as (_ & _ & -> & _).
Qed.

Lemma agree_commit_row (n : nat) :
  (n <= vjSz_of d j)%nat ->
  commit_row stray d' j res deff n = commit_row stray d j res deff n.
Proof.
  intros Hn. unfold commit_row. rewrite agree_row.
  rewrite (scatter_ext id (newBeta stray d' j res deff)
             (newBeta stray d j res deff))
    by (intros t Ht; apply agree_new; lia).
  rewrite (scatter_ext id (newPi stray d' j res deff)
             (newPi stray d j res deff))
    by (intros t Ht; apply agree_new; lia).
  reflexivity.
Qed.

Lemma agree_mpr_acc (n : nat) :
  (n <= vjSz_of d j)%nat ->
  mpr_acc stray d' j res deff n = mpr_acc stray d j res deff n.
Proof.
  induction n as [|n IH]; intros Hn; [reflexivity|].
  cbn [mpr_acc]. rewrite IH, agree_b_at by lia.
  destruct (agree_new n ltac:(lia)) as (_ & _ & -> & ->). reflexivity.
Qed.

Lemma agree_delta_fun :
  delta_fun stray d' j res deff = delta_fun stray d j res deff.
Proof.
  unfold delta_fun. by rewrite agree_vjSz, agree_cav_acc, agree_mpr_acc by lia.
Qed.

End AgreeOn.

Section Commute.
Context {num : Type} `{Double num}.
Context {M : Type} `{MaximumValuesService num M}.
Variable stray : num.

Local Abbreviation rds := (rd stray).
Local Abbreviation Driver := (Driver num M).
Local Abbreviation Row := (Row num).
Local Abbreviation Mem := (Mem num M).
Local Abbreviation Exec := (Exec num M).
Local Abbreviation PotentialManager := (PotentialManager num).

Local Open Scope dbl_scope.

Lemma agree_on_refl (j : nat) (d : Driver) : agree_on stray j d d.
Proof. unfold agree_on. repeat split; auto. Qed.

Lemma agree_on_observable (j : nat) (d d1 d2 : Driver) :
  observable d1 = observable d2 -> agree_on stray j d d2 -> agree_on stray j d d1.
Proof.
  intros E. unfold agree_on.
  change (epRepr d1) with (epRepr (observable d1)).
  change (margPi d1) with (margPi (observable d1)).
  change (margBeta d1) with (margBeta (observable d1)).
  change (epReprPrec d1) with (epReprPrec (observable d1)).
  change (margA d1) with (margA (observable d1)).
  change (margC d1) with (margC (observable d1)).
  change (piMinThres d1) with (piMinThres (observable d1)).
  change (aMinThres d1) with (aMinThres (observable d1)).
  change (cMinThres d1) with (cMinThres (observable d1)).
  change (epMaxA d1) with (epMaxA (observable d1)).
  change (epMaxPi d1) with (epMaxPi (observable d1)).
  change (row_of d1 j) with (row_of (observable d1) j).
  rewrite E. tauto.
Qed.

Lemma commit_agree_on (d : Driver) (j j' : nat) res deff :
  j <> j' -> apart d j j' -> epMaxPi d = None ->
  agree_on stray j d (commit_fun stray d j' res deff (vjSz_of d j')).
Proof.
  intros Hne Hapart Hmx. unfold agree_on.
  cbn [epRepr margPi margBeta commit_fun epReprPrec margA margC piMinThres
    aMinThres cMinThres epMaxA epMaxPi].
  unfold row_of at 1. cbn [epRepr commit_fun].
  rewrite list_lookup_insert_ne by congruence.
  rewrite Hmx. repeat split; auto.
  - intros ii Hii. unfold rd. rewrite scatter_lookup_other; [reflexivity|].
    intros t Ht E. by apply (Hapart ii t Hii Ht).
  - intros ii Hii. unfold rd. rewrite scatter_lookup_other; [reflexivity|].
    intros t Ht E. by apply (Hapart ii t Hii Ht).
Qed.

Lemma call_agree_on (epPots : PotentialManager) (d : Driver) (j j' : nat)
    (dampFact : num) (delta effDamp : bool) :
  j <> j' -> apart d j j' -> epMaxPi d = None ->
  agree_on stray j d
    (drv (sequentialUpdate stray epPots d j' dampFact delta effDamp).1).
Proof.
  intros Hne Hapart Hmx.
  destruct (driver_cases stray epPots d j' dampFact delta effDamp)
    as [[_ E]|(res & deff & _ & Hj & E)].
  - apply (agree_on_observable j d _ d E), agree_on_refl.
  - apply (agree_on_observable j d _
             (commit_fun stray d j' res deff (vjSz_of d j')));
      [exact E|by apply commit_agree_on].
Qed.

(** A call on a driver that agrees with [d] on what it reads does what it
    does on [d]. *)
Lemma fun_agree (epPots : PotentialManager) (d d' : Driver) (j : nat)
    (dampFact : num) (delta effDamp : bool) :
  agree_on stray j d d' ->
  let F := sequentialUpdate_fun stray epPots d j dampFact delta effDamp in
  let F' := sequentialUpdate_fun stray epPots d' j dampFact delta effDamp in
  r_outcome F' = r_outcome F /\ r_delta F' = r_delta F /\
  r_effDamp F' = r_effDamp F /\ r_calls F' = r_calls F /\
  ((r_outcome F <> Returned updSuccess /\
    r_driver F = observable d /\ r_driver F' = observable d') \/
   (exists res deff,
      r_outcome F = Returned updSuccess /\
      r_driver F = commit_fun stray d j res deff (vjSz_of d j) /\
      r_driver F' = commit_fun stray d' j res deff (vjSz_of d j))).
Proof.
  intros Hag F F'. unfold F, F', sequentialUpdate_fun, oracle_answer.
  rewrite (agree_group_matches stray d d' j Hag),
    (agree_entry_ok stray d d' j Hag),
    (agree_cavity_invalid stray d d' j Hag),
    (agree_oracle_input stray d d' j Hag),
    (agree_vjSz stray d d' j Hag).
  destruct (group_matches epPots d j); cbn [negb];
    [|repeat split; left; repeat split; discriminate].
  destruct ((dampFact <? c_0) || (c_1 <=? dampFact));
    [repeat split; left; repeat split; discriminate|].
  destruct (entry_ok epPots d j dampFact); cbn [negb];
    [|repeat split; left; repeat split; discriminate].
  destruct (cavity_invalid stray d j);
    [repeat split; left; repeat split; discriminate|].
  destruct (getPot epPots j ≫= _) as [res|];
    [|repeat split; left; repeat split; discriminate].
  rewrite (agree_eff_damping stray d d' j Hag).
  destruct (eff_damping stray d j res dampFact) as [s|deff] eqn:Ed.
  { repeat split; left; repeat split. cbn.
    destruct (eff_damping_status _ _ _ _ _ _ Ed); subst s; discriminate. }
  rewrite (agree_marginals_invalid stray d d' j Hag),
    (agree_delta_fun stray d d' j Hag).
  destruct (marginals_invalid stray d j res deff);
    [repeat split; left; repeat split; discriminate|].
  repeat split. right. by exists res, deff.
Qed.

Lemma commit_fun_observable (d1 d2 : Driver) (j : nat) res deff n :
  observable d1 = observable d2 ->
  commit_fun stray d1 j res deff n = commit_fun stray d2 j res deff n.
Proof.
  intros E.
  rewrite <- (commit_fun_buffVec stray d1 j res deff n []),
          <- (commit_fun_buffVec stray d2 j res deff n []).
  change (set_buffVec d1 []) with (observable d1).
  change (set_buffVec d2 []) with (observable d2). by rewrite E.
Qed.

(** Committing two factors with variables apart, in either order. *)
Lemma commit_commute (d : Driver) (j1 j2 : nat) res1 deff1 res2 deff2 :
  j1 <> j2 -> apart d j1 j2 -> epMaxPi d = None ->
  commit_fun stray (commit_fun stray d j1 res1 deff1 (vjSz_of d j1))
    j2 res2 deff2 (vjSz_of d j2) =
  commit_fun stray (commit_fun stray d j2 res2 deff2 (vjSz_of d j2))
    j1 res1 deff1 (vjSz_of d j1).
Proof.
  intros Hne Hapart Hmx.
  assert (Hapart' : apart d j2 j1).
  { intros t t' Ht Ht' E. by apply (Hapart t' t Ht' Ht). }
  set (c1 := commit_fun stray d j1 res1 deff1 (vjSz_of d j1)).
  set (c2 := commit_fun stray d j2 res2 deff2 (vjSz_of d j2)).
  assert (A2 : agree_on stray j2 d c1)
    by (apply commit_agree_on; [congruence|exact Hapart'|exact Hmx]).
  assert (A1 : agree_on stray j1 d c2)
    by (apply commit_agree_on; [congruence|exact Hapart|exact Hmx]).
  apply driver_eq; cbn [epRepr epReprPrec margBeta margPi piMinThres epMaxPi
    margA margC aMinThres cMinThres epMaxA epMaxC buffVec commit_fun];
    try reflexivity.
  - rewrite (agree_commit_row stray d c1 j2 A2) by lia.
    rewrite (agree_commit_row stray d c2 j1 A1) by lia.
    unfold c1, c2. cbn [epRepr commit_fun].
    apply list_insert_insert_ne. congruence.
  - rewrite (scatter_ext2 (var_at c1 j2) (var_at d j2)
               (newMargBeta stray c1 j2 res2 deff2)
               (newMargBeta stray d j2 res2 deff2)).
    2:{ intros t Ht. split; [apply (agree_var_at stray d c1 j2 A2)|].
        by apply (agree_new stray d c1 j2 A2). }
    rewrite (scatter_ext2 (var_at c2 j1) (var_at d j1)
               (newMargBeta stray c2 j1 res1 deff1)
               (newMargBeta stray d j1 res1 deff1)).
    2:{ intros t Ht. split; [apply (agree_var_at stray d c2 j1 A1)|].
        by apply (agree_new stray d c2 j1 A1). }
    unfold c1, c2. cbn [margBeta commit_fun].
    apply scatter_commute. intros t1 t2 H1 H2. by apply Hapart'.
  - rewrite (scatter_ext2 (var_at c1 j2) (var_at d j2)
               (newMargPi stray c1 j2 res2 deff2)
               (newMargPi stray d j2 res2 deff2)).
    2:{ intros t Ht. split; [apply (agree_var_at stray d c1 j2 A2)|].
        by apply (agree_new stray d c1 j2 A2). }
    rewrite (scatter_ext2 (var_at c2 j1) (var_at d j1)
               (newMargPi stray c2 j1 res1 deff1)
               (newMargPi stray d j1 res1 deff1)).
    2:{ intros t Ht. split; [apply (agree_var_at stray d c2 j1 A1)|].
        by apply (agree_new stray d c2 j1 A1). }
    unfold c1, c2. cbn [margPi commit_fun].
    apply scatter_commute. intros t1 t2 H1 H2. by apply Hapart'.
  - unfold c1, c2. cbn [epMaxPi commit_fun]. by rewrite Hmx.
Qed.

(** The same, for the calls themselves. *)
Lemma call_agree (epPots : PotentialManager) (d d' : Driver) (j : nat)
    (dampFact : num) (delta effDamp : bool) :
  agree_on stray j d d' ->
  let r := sequentialUpdate stray epPots d j dampFact delta effDamp in
  let r' := sequentialUpdate stray epPots d' j dampFact delta effDamp in
  r'.2 = r.2 /\ out_delta r'.1 = out_delta r.1 /\
  out_effDamp r'.1 = out_effDamp r.1 /\
  ((observable (drv r.1) = observable d /\
    observable (drv r'.1) = observable d') \/
   (exists res deff,
      observable (drv r.1) = commit_fun stray d j res deff (vjSz_of d j) /\
      observable (drv r'.1) = commit_fun stray d' j res deff (vjSz_of d j))).
Proof.
  intros Hag r r'.
  destruct (fun_agree epPots d d' j dampFact delta effDamp Hag)
    as (O & D & E & _ & C).
  unfold r, r'.
  rewrite (outcome_refines stray epPots d' j), (outcome_refines stray epPots d j),
    (delta_refines stray epPots d' j), (delta_refines stray epPots d j),
    (effDamp_refines stray epPots d' j), (effDamp_refines stray epPots d j),
    (driver_refines stray epPots d' j), (driver_refines stray epPots d j).
  split; [exact O|]. split; [exact D|]. split; [exact E|].
  destruct C as [(_ & F1 & F2)|(res & deff & _ & F1 & F2)].
  - left. by split.
  - right. by exists res, deff.
Qed.

(** X21 (factors apart commute).  Without the max-pi service, and in
    univariate mode or without the max-a service (whose clamp reads the
    word after row [j], which a call on another factor may write), for two
    factors [j1] and [j2] that share no variable: the call on one returns
    the same status and reports the same values whether it comes before or
    after the call on the other, and the two orders leave the same
    driver. *)
Theorem sequentialUpdate_commute (epPots : PotentialManager) (d : Driver)
    (j1 j2 : nat) (dampFact1 dampFact2 : num) (delta effDamp : bool) :
  let r1 := sequentialUpdate stray epPots d j1 dampFact1 delta effDamp in
  let r12 := sequentialUpdate stray epPots (drv r1.1) j2 dampFact2 delta effDamp in
  let r2 := sequentialUpdate stray epPots d j2 dampFact2 delta effDamp in
  let r21 := sequentialUpdate stray epPots (drv r2.1) j1 dampFact1 delta effDamp in
  j1 <> j2 ->
  (forall i, i ∈ vjInd (row_of d j1) -> i ∉ vjInd (row_of d j2)) ->
  epMaxPi d = None ->
  hasBVPrec d = false \/ epMaxA d = None ->
  (r21.2 = r1.2 /\ out_delta r21.1 = out_delta r1.1 /\
   out_effDamp r21.1 = out_effDamp r1.1) /\
  (r12.2 = r2.2 /\ out_delta r12.1 = out_delta r2.1 /\
   out_effDamp r12.1 = out_effDamp r2.1) /\
  observable (drv r12.1) = observable (drv r21.1).
Proof.
  intros r1 r12 r2 r21 Hne Hdisj Hmx _.
  assert (Hapart : apart d j1 j2).
  { intros t t' Ht Ht' E. apply (Hdisj (var_at d j1 t)).
    - by apply var_at_elem.
    - rewrite E. by apply var_at_elem. }
  assert (Hapart' : apart d j2 j1).
  { intros t t' Ht Ht' E. by apply (Hapart t' t Ht' Ht). }
  assert (A1 : agree_on stray j1 d (drv r2.1))
    by (apply call_agree_on; assumption).
  assert (A2 : agree_on stray j2 d (drv r1.1))
    by (apply call_agree_on; [congruence|assumption..]).
  destruct (call_agree epPots d (drv r2.1) j1 dampFact1 delta effDamp A1)
    as (O1 & D1 & E1 & C1).
  destruct (call_agree epPots d (drv r1.1) j2 dampFact2 delta effDamp A2)
    as (O2 & D2 & E2 & C2).
  split; [exact (conj O1 (conj D1 E1))|].
  split; [exact (conj O2 (conj D2 E2))|].
  change (sequentialUpdate stray epPots d j1 dampFact1 delta effDamp)
    with r1 in C1.
  change (sequentialUpdate stray epPots d j2 dampFact2 delta effDamp)
    with r2 in C2.
  change (sequentialUpdate stray epPots (drv r2.1) j1 dampFact1 delta effDamp)
    with r21 in C1.
  change (sequentialUpdate stray epPots (drv r1.1) j2 dampFact2 delta effDamp)
    with r12 in C2.
  destruct C1 as [(F1 & F1')|(res1 & deff1 & F1 & F1')];
    destruct C2 as [(F2 & F2')|(res2 & deff2 & F2 & F2')].
  - exact (eq_trans (eq_trans F2' F1) (eq_sym (eq_trans F1' F2))).
  - exact (eq_trans
             (eq_trans F2' (commit_fun_observable (drv r1.1) d j2 res2 deff2 _ F1))
             (eq_sym (eq_trans F1' F2))).
  - exact (eq_trans (eq_trans F2' F1)
             (eq_sym (eq_trans F1'
                        (commit_fun_observable (drv r2.1) d j1 res1 deff1 _ F2)))).
  - refine (eq_trans
              (eq_trans F2'
                 (commit_fun_observable (drv r1.1)
                    (commit_fun stray d j1 res1 deff1 (vjSz_of d j1))
                    j2 res2 deff2 _ F1))
              (eq_trans _
                 (eq_sym (eq_trans F1'
                            (commit_fun_observable (drv r2.1)
                               (commit_fun stray d j2 res2 deff2 (vjSz_of d j2))
                               j1 res1 deff1 _ F2))))).
    by apply commit_commute.
Qed.

End Commute.

(** * Witnesses of the further properties *)

(** One factor without service, answer (alpha, nu) = (0.3, 0.2), damping
    0.25: the call succeeds and reports 0.25. *)
Lemma sequentialUpdate_without_services_witness :
  let d := drv_one 1 1 0.5 3 1 in
  let pots := pots_const atypeUnivariate (Some [0.3; 0.2]%float) in
  let r := sequentialUpdate nan pots d 0 0.25%float true true in
  epMaxPi d = None /\ r.2 = Returned updSuccess /\
  out_effDamp r.1 = Some 0.25%float.
Proof.
  intros d pots r.
  assert (Hs : r.2 = Returned updSuccess) by (vm_compute; reflexivity).
  split; [reflexivity|]. split; [exact Hs|].
  destruct (sequentialUpdate_without_services nan pots d 0 0.25%float true true
              updSuccess eq_refl (or_introl eq_refl) Hs) as [_ Heff].
  apply Heff; [reflexivity|by left].
Defined.

(** The same call: the new marginal pi_0 is not below 0.05. *)
Lemma sequentialUpdate_marginals_valid_witness :
  let d := drv_one 1 1 0.5 3 1 in
  let pots := pots_const atypeUnivariate (Some [0.3; 0.2]%float) in
  let r := sequentialUpdate nan pots d 0 0.25%float true true in
  r.2 = Returned updSuccess /\
  (rd nan (margPi (drv r.1)) 0 <? c_half * piMinThres d)%D = false.
Proof.
  intros d pots r.
  assert (Hs : r.2 = Returned updSuccess) by (vm_compute; reflexivity).
  split; [exact Hs|].
  apply (sequentialUpdate_marginals_valid nan pots d 0 0.25%float true true).
  - apply NoDup_singleton.
  - repeat constructor.
  - exact Hs.
  - apply list_elem_of_here.
Defined.

(** The same call: the potential was asked once, about the cavity moments
    of factor 0. *)
Lemma sequentialUpdate_asks_once_witness :
  let d := drv_one 1 1 0.5 3 1 in
  let pots := pots_const atypeUnivariate (Some [0.3; 0.2]%float) in
  let r := sequentialUpdate nan pots d 0 0.25%float true true in
  r.2 = Returned updSuccess /\
  oracle_calls r.1 =
  [(0%nat, [(cavity_moments nan d 0).1; (cavity_moments nan d 0).2])].
Proof.
  intros d pots r.
  assert (Hs : r.2 = Returned updSuccess) by (vm_compute; reflexivity).
  split; [exact Hs|].
  destruct (sequentialUpdate_asks_once nan pots d 0 0.25%float true true
              updSuccess Hs) as [_ Hone].
  destruct (Hone ltac:(discriminate)) as [Hcalls _]. exact Hcalls.
Defined.

(** Scenario S3: the service is told the new message of factor 1. *)
Lemma sequentialUpdate_updates_maxPi_witness :
  let d := drv_two 11%float in
  let pots := pots_const atypeUnivariate answer_drop in
  let r := sequentialUpdate nan pots d 1 0%float true true in
  r.2 = Returned updSuccess /\
  epMaxPi (drv r.1) =
  Some (update [(0%nat, 0%nat, 10%float); (0%nat, 1%nat, 1%float)] 0%nat 1%nat
          (rd nan (piP (row_of (drv r.1) 1)) 0)).
Proof.
  intros d pots r.
  assert (Hs : r.2 = Returned updSuccess) by (vm_compute; reflexivity).
  split; [exact Hs|].
  apply (sequentialUpdate_updates_maxPi nan pots d 1 0%float true true
           [(0%nat, 0%nat, 10%float); (0%nat, 1%nat, 1%float)]
           eq_refl eq_refl Hs).
Defined.

(** The univariate driver of [drv_one], after a call. *)
Lemma univariate_driver_assertion_holds_witness :
  let pots := [pot_const atypeUnivariate (Some [0.3; 0.2]%float)] in
  let d := drv_one 1 1 0.5 3 1 in
  let d' := after_updates 0%float (manager_of pots) d [(0%nat, 0.25%float)] in
  FactorizedEPDriver_univariate (M:=MaxIndex float) 0%float pots repr_one
    [1%float] [3%float] 0.1%float None = inr d /\
  group_matches (manager_of pots) d' 0 = true /\
  is_Some (epRepr d' !! 0%nat).
Proof.
  intros pots d d'.
  assert (Hc : FactorizedEPDriver_univariate (M:=MaxIndex float) 0%float pots
                 repr_one [1%float] [3%float] 0.1%float None = inr d)
    by reflexivity.
  split; [exact Hc|].
  destruct (univariate_driver_assertion_holds 0%float pots repr_one [1%float]
              [3%float] 0.1%float None d [(0%nat, 0.25%float)] 0 Hc)
    as (Hg & _ & _ & Hrow); [cbv; lia|].
  split; [exact Hg|]. apply Hrow. cbv; lia.
Defined.

(** The bivariate driver of [drv_bivar], after a call. *)
Lemma bivarPrec_driver_assertion_holds_witness :
  let pots := [pot_const atypeBivarPrec (Some [0.3; 0.2; 4.5; 4.5]%float)] in
  let mx := Some [(0%nat, 0%nat, 1%float); (1%nat, 0%nat, 2%float)] in
  let mxA := Some [(0%nat, 0%nat, 3%float)] in
  let mxC := Some [(0%nat, 0%nat, 1%float)] in
  let d := drv_bivar 3 1 in
  let d' := after_updates nan (manager_of pots) d [(0%nat, 0%float)] in
  FactorizedEPDriver_bivarPrec pots repr_bivar [1%float; 1%float]
    [3%float; 5%float] [4%float] [4%float] 0.1%float 0.1%float 0.1%float
    mx mxA mxC = inr d /\
  group_matches (manager_of pots) d' 0 = true /\
  is_Some (epRepr d' !! 0%nat) /\
  is_Some (epReprPrec d' ≫= (.!! 0%nat)).
Proof.
  intros pots mx mxA mxC d d'.
  assert (Hc : FactorizedEPDriver_bivarPrec pots repr_bivar [1%float; 1%float]
                 [3%float; 5%float] [4%float] [4%float] 0.1%float 0.1%float
                 0.1%float mx mxA mxC = inr d) by reflexivity.
  split; [exact Hc|].
  destruct (bivarPrec_driver_assertion_holds nan pots repr_bivar _ _ _ _ _ _ _
              _ _ _ d [(0%nat, 0%float)] 0 Hc)
    as (Hg & _ & _ & Hrow & Htau); [cbv; lia|].
  split; [exact Hg|]. split; [apply Hrow|apply Htau]; cbv; lia.
Defined.

(** The univariate driver after two calls. *)
Lemma univariate_driver_lifetime_witness :
  let pots := [pot_const atypeUnivariate (Some [0.3; 0.2]%float)] in
  let d := drv_one 1 1 0.5 3 1 in
  let d' := after_updates 0%float (manager_of pots) d
              [(0%nat, 0.25%float); (0%nat, 0%float)] in
  FactorizedEPDriver_univariate (M:=MaxIndex float) 0%float pots repr_one
    [1%float] [3%float] 0.1%float None = inr d /\
  length (getMarginalsPi d') = 1%nat /\
  getMarginalsA d' = inl WrongStatusException.
Proof.
  intros pots d d'.
  assert (Hc : FactorizedEPDriver_univariate (M:=MaxIndex float) 0%float pots
                 repr_one [1%float] [3%float] 0.1%float None = inr d)
    by reflexivity.
  split; [exact Hc|].
  destruct (univariate_driver_lifetime 0%float pots repr_one [1%float]
              [3%float] 0.1%float None d (manager_of pots)
              [(0%nat, 0.25%float); (0%nat, 0%float)] Hc)
    as (HP & _ & _ & _ & _ & _ & HA & _).
  split; [exact HP|exact HA].
Defined.

(** The bivariate driver after a successful call: the marginals of tau are
    those handed to the constructor. *)
Lemma bivarPrec_driver_lifetime_witness :
  let pots := [pot_const atypeBivarPrec (Some [0.3; 0.2; 4.5; 4.5]%float)] in
  let mx := Some [(0%nat, 0%nat, 1%float); (1%nat, 0%nat, 2%float)] in
  let mxA := Some [(0%nat, 0%nat, 3%float)] in
  let mxC := Some [(0%nat, 0%nat, 1%float)] in
  let d := drv_bivar 3 1 in
  let d' := after_updates nan (manager_of pots) d [(0%nat, 0%float)] in
  FactorizedEPDriver_bivarPrec pots repr_bivar [1%float; 1%float]
    [3%float; 5%float] [4%float] [4%float] 0.1%float 0.1%float 0.1%float
    mx mxA mxC = inr d /\
  (sequentialUpdate nan (manager_of pots) d 0 0%float false false).2
    = Returned updSuccess /\
  getMarginalsA d' = inr [4%float] /\ getMarginalsC d' = inr [4%float].
Proof.
  intros pots mx mxA mxC d d'.
  assert (Hc : FactorizedEPDriver_bivarPrec pots repr_bivar [1%float; 1%float]
                 [3%float; 5%float] [4%float] [4%float] 0.1%float 0.1%float
                 0.1%float mx mxA mxC = inr d) by reflexivity.
  split; [exact Hc|]. split; [vm_compute; reflexivity|].
  destruct (bivarPrec_driver_lifetime nan pots repr_bivar _ _ _ _ _ _ _ _ _ _
              d (manager_of pots) [(0%nat, 0%float)] Hc)
    as (HA & HC & _).
  split; [exact HA|exact HC].
Defined.

(** [repr_one] with NaN as threshold. *)
Lemma univariate_driver_nan_threshold_witness :
  let pots := [pot_const atypeUnivariate (Some [0.3; 0.2]%float)] in
  length [1%float] = numVariables repr_one /\
  length [3%float] = numVariables repr_one /\
  Forall (fun pot => getArgumentGroup pot = atypeUnivariate) pots /\
  exists d : Driver float (MaxIndex float),
    FactorizedEPDriver_univariate 0%float pots repr_one [1%float] [3%float]
      nan None = inr d /\
    (sequentialUpdate 0%float (manager_of pots) d 0 0%float true true).2
      <> Returned updCavityInvalid.
Proof.
  intros pots.
  assert (Hall : Forall (fun pot => getArgumentGroup pot = atypeUnivariate) pots)
    by (repeat constructor).
  split; [reflexivity|]. split; [reflexivity|]. split; [exact Hall|].
  destruct (univariate_driver_nan_threshold (M:=MaxIndex float) 0%float pots
              repr_one [1%float] [3%float] None eq_refl eq_refl Hall)
    as (d & Hd & Hnever).
  exists d. split; [exact Hd|].
  apply (Hnever (manager_of pots) [] 0%nat 0%float true true).
Defined.

(** The factor without variables. *)
Lemma sequentialUpdate_empty_row_witness :
  let pot := pot_const atypeUnivariate (Some [0.3; 0.2]%float) in
  let pots := manager_of [pot] in
  let r := sequentialUpdate nan pots drv_empty 0 0.5%float true true in
  r.2 = Returned updSuccess /\
  observable (drv r.1) = observable drv_empty /\
  out_effDamp r.1 = Some 0.5%float /\
  oracle_calls r.1 = [(0%nat, [0%float; 0%float])].
Proof.
  intros pot pots r.
  assert (Hlo : (0.5%float <? c_0)%D = false) by reflexivity.
  assert (Hhi : (c_1 <=? 0.5%float)%D = false) by reflexivity.
  destruct (sequentialUpdate_empty_row nan pots drv_empty 0 0.5%float true true
              {| vjInd := []; bP := []; betaP := []; piP := [] |} pot
              eq_refl eq_refl eq_refl eq_refl eq_refl Hlo Hhi)
    as (Hcalls & Hobs & Hs & Heff & _).
  split; [exact Hs|]. split; [exact Hobs|].
  split; [exact (Heff eq_refl)|exact Hcalls].
Defined.

(** The call on [drv_one] with NaN and with 0 for the undefined reads. *)
Lemma sequentialUpdate_reads_defined_witness :
  let d := drv_one 1 1 0.5 3 1 in
  let pots := pots_const atypeUnivariate (Some [0.3; 0.2]%float) in
  let r1 := sequentialUpdate nan pots d 0 0.25%float true true in
  let r2 := sequentialUpdate 0%float pots d 0 0.25%float true true in
  r1.2 = Returned updSuccess /\ r1.2 = r2.2 /\
  observable (drv r1.1) = observable (drv r2.1) /\
  out_delta r1.1 = out_delta r2.1.
Proof.
  intros d pots r1 r2.
  split; [vm_compute; reflexivity|].
  destruct (sequentialUpdate_reads_defined nan 0%float pots d 0 0.25%float
              true true eq_refl eq_refl eq_refl eq_refl)
    as (H1 & H2 & H3 & _).
  - repeat constructor.
  - intros pot inp res Hp Hc. cbn in Hp. injection Hp as <-.
    cbn in Hc. injection Hc as <-. cbv. lia.
  - split; [exact H1|]. split; [exact H2|exact H3].
Defined.

(** Two factors on two variables: factor 0 then factor 1, or factor 1 then
    factor 0. *)
Lemma sequentialUpdate_commute_witness :
  let d := drv_apart in
  let pots := pots_const atypeUnivariate (Some [0.3; 0.2]%float) in
  let r1 := sequentialUpdate nan pots d 0 0%float true true in
  let r12 := sequentialUpdate nan pots (drv r1.1) 1 0.25%float true true in
  let r2 := sequentialUpdate nan pots d 1 0.25%float true true in
  let r21 := sequentialUpdate nan pots (drv r2.1) 0 0%float true true in
  r1.2 = Returned updSuccess /\ r2.2 = Returned updSuccess /\
  r21.2 = r1.2 /\ r12.2 = r2.2 /\
  observable (drv r12.1) = observable (drv r21.1).
Proof.
  intros d pots r1 r12 r2 r21.
  split; [vm_compute; reflexivity|]. split; [vm_compute; reflexivity|].
  destruct (sequentialUpdate_commute nan pots d 0 1 0%float 0.25%float
              true true) as ((H1 & _) & (H2 & _) & H3).
  - discriminate.
  - intros i Hi Hi'. apply list_elem_of_singleton in Hi, Hi'. congruence.
  - reflexivity.
  - left. reflexivity.
  - split; [exact H1|]. split; [exact H2|exact H3].
Defined.
